(** * ffind: a parallel directory-tree search tool (src/ffind.c)

    A shallow embedding of the matcher, the command-line front end and the
    work queue with its termination protocol, together with the properties
    the specification states about them. *)

From Stdlib Require Import String Ascii.
From Stdlib Require Import ZArith List Lia Bool Permutation Arith.
From Equations Require Import Equations.
Import ListNotations.

Open Scope Z_scope.

(** ** Wide strings

    A [wchar_t] is a 16-bit code unit, kept as a [Z].  A C string is the list
    of the code units that precede its terminating NUL; reading past the end
    of the list therefore yields the code unit 0. *)

Definition wchar := Z.
Definition wstring := list wchar.

Definition wstr (s : wstring) : Prop := Forall (fun c => c <> 0) s.

Definition W (s : string) : wstring :=
  map (fun a => Z.of_nat (nat_of_ascii a)) (list_ascii_of_string s).

Definition peek (p : wstring) : wchar := hd 0 p.

Definition ch_backslash : wchar := 92.
Definition ch_slash : wchar := 47.
Definition ch_dot : wchar := 46.
Definition ch_comma : wchar := 44.
Definition ch_space : wchar := 32.
Definition ch_tab : wchar := 9.
Definition ch_star : wchar := 42.

(** ** C runtime routines used by the program

    [towlower] is the "C" locale folding ([wmain] never calls [setlocale]):
    only the letters A-Z change. *)

Definition towlower (c : wchar) : wchar :=
  if (65 <=? c) && (c <=? 90) then c + 32 else c.

Arguments towlower : simpl never.

Definition wcslen (s : wstring) : nat := length s.

(** [_wcsnicmp a b n]: compares at most [n] folded code units and stops at a
    NUL. *)
Fixpoint wcsnicmp (a b : wstring) (n : nat) : Z :=
  match n with
  | O => 0
  | S n' =>
      let ca := towlower (peek a) in
      let cb := towlower (peek b) in
      if ca =? cb
      then if ca =? 0 then 0 else wcsnicmp (tl a) (tl b) n'
      else ca - cb
  end.

(** [wcsrchr s c]: the suffix of [s] that starts at the last [c]. *)
Fixpoint wcsrchr (s : wstring) (c : wchar) : option wstring :=
  match s with
  | [] => None
  | x :: s' =>
      match wcsrchr s' c with
      | Some r => Some r
      | None => if x =? c then Some s else None
      end
  end.

Definition wcscmp_eq (a b : wstring) : bool :=
  if list_eq_dec Z.eq_dec a b then true else false.

(** ** Matcher *)

(** The [for] loop of [wcontains_i]: [p] runs over the non-empty suffixes. *)
Fixpoint wcontains_scan (p needle : wstring) (nlen : nat) : bool :=
  match p with
  | [] => false
  | _ :: p' =>
      if wcsnicmp p needle nlen =? 0 then true
      else wcontains_scan p' needle nlen
  end.

Definition wcontains_i (hay needle : wstring) : bool :=
  match needle with
  | [] => true
  | _ => wcontains_scan hay needle (wcslen needle)
  end.

Definition is_slash (c : wchar) : bool :=
  (c =? ch_backslash) || (c =? ch_slash).

Fixpoint basename_loop (p last : wstring) : wstring :=
  match p with
  | [] => last
  | c :: p' => basename_loop p' (if is_slash c then p' else last)
  end.

Definition basename_ptr (path : wstring) : wstring := basename_loop path path.

Definition is_sep (c : wchar) : bool :=
  (c =? ch_comma) || (c =? ch_space) || (c =? ch_tab).

(** The loop that skips commas, spaces and tabs before an entry. *)
Fixpoint skip_seps (p : wstring) : wstring :=
  match p with
  | [] => []
  | c :: p' => if is_sep c then skip_seps p' else p
  end.

(** The loop that advances [p] to the next comma or to the end. *)
Fixpoint scan_entry_end (p : wstring) : wstring :=
  match p with
  | [] => []
  | c :: p' => if c =? ch_comma then p else scan_entry_end p'
  end.

Lemma skip_seps_length p : (length (skip_seps p) <= length p)%nat.
Proof.
  induction p as [|c p IH]; simpl; [lia|].
  destruct (is_sep c); simpl; lia.
Qed.

Lemma scan_entry_end_length p : (length (scan_entry_end p) <= length p)%nat.
Proof.
  induction p as [|c p IH]; simpl; [lia|].
  destruct (c =? ch_comma); simpl; lia.
Qed.

Lemma ext_loop_progress c p :
  (length (scan_entry_end (skip_seps (c :: p))) < length (c :: p))%nat.
Proof.
  simpl. destruct (is_sep c) eqn:Hs.
  - pose proof (skip_seps_length p). pose proof (scan_entry_end_length (skip_seps p)).
    lia.
  - simpl. destruct (c =? ch_comma) eqn:Hc.
    + unfold is_sep in Hs. rewrite Hc in Hs. discriminate.
    + pose proof (scan_entry_end_length p). lia.
Qed.

(** The [while ( *p )] loop of [ext_allowed]; [start] and the new [p] are both
    pointers into the list string, and [len = p - start]. *)
Equations ext_loop (ext p : wstring) : bool by wf (length p) lt :=
  ext_loop ext [] := false;
  ext_loop ext (c :: p') :=
    if (let start := skip_seps (c :: p') in
        let len := (length start - length (scan_entry_end start))%nat in
        (0 <? len)%nat && (wcslen ext =? len)%nat && (wcsnicmp ext start len =? 0))
    then true
    else ext_loop ext (scan_entry_end (skip_seps (c :: p'))).
Next Obligation. apply ext_loop_progress. Qed.

Definition ext_allowed (filename extcsv : wstring) : bool :=
  match extcsv with
  | [] => true
  | _ =>
      match wcsrchr filename ch_dot with
      | None => false
      | Some dot =>
          match tl dot with
          | [] => false
          | ext => ext_loop ext extcsv
          end
      end
  end.

Example ext_allowed_ex1 : ext_allowed (W "a.TXT") (W "txt") = true.
Proof. reflexivity. Qed.
Example ext_allowed_ex2 : ext_allowed (W "a.text") (W "txt") = false.
Proof. reflexivity. Qed.
Example ext_allowed_ex3 : ext_allowed (W "a.h") (W "c, h,cpp") = true.
Proof. reflexivity. Qed.
Example ext_allowed_ex4 : ext_allowed (W "a.h") (W "c,h ,cpp") = false.
Proof. reflexivity. Qed.

(** [join_path]: [dir], a backslash unless [dir] is empty or already ends in
    a separator, then [name]; refused when the result and its NUL do not fit
    in [cap] code units. *)
Definition needs_slash (dir : wstring) : bool :=
  match dir with
  | [] => false
  | _ => negb (is_slash (last dir 0))
  end.

Definition join_path (cap : nat) (dir name : wstring) : option wstring :=
  let total :=
    (wcslen dir + (if needs_slash dir then 1 else 0) + wcslen name + 1)%nat in
  if (cap <? total)%nat then None
  else Some (dir ++ (if needs_slash dir then [ch_backslash] else []) ++ name).

Definition make_glob (cap : nat) (dir : wstring) : option wstring :=
  let total := (wcslen dir + (if needs_slash dir then 1 else 0) + 1 + 1)%nat in
  if (cap <? total)%nat then None
  else Some (dir ++ (if needs_slash dir then [ch_backslash] else []) ++ [ch_star]).

Definition is_dot_or_dotdot (s : wstring) : bool :=
  match s with
  | [c] => c =? ch_dot
  | [c1; c2] => (c1 =? ch_dot) && (c2 =? ch_dot)
  | _ => false
  end.

(** The search settings of [Ctx]. *)
Record Query := mkQuery {
  needle : wstring;
  extcsv : wstring;
  match_full_path : Z
}.

(** The target selection and the test of lines 254-255. *)
Definition match_target (qy : Query) (full : wstring) : wstring :=
  if match_full_path qy =? 0 then basename_ptr full else full.

Definition name_matches (qy : Query) (full : wstring) : bool :=
  wcontains_i (match_target qy full) (needle qy).

(** ** Specification-side notions for the matcher *)

(** Case-insensitive equality of two texts. *)
Definition eq_ci (a b : wstring) : Prop := map towlower a = map towlower b.

(** Case-insensitive containment. *)
Definition contains_ci (hay ndl : wstring) : Prop :=
  exists pre mid post, hay = pre ++ mid ++ post /\ eq_ci mid ndl.

(** The fields of a comma-separated text. *)
Fixpoint split_commas (s : wstring) : list wstring :=
  match s with
  | [] => [[]]
  | c :: s' =>
      if c =? ch_comma then [] :: split_commas s'
      else match split_commas s' with
           | f :: fs => (c :: f) :: fs
           | [] => [[c]]
           end
  end.

Definition is_blank (c : wchar) : bool := (c =? ch_space) || (c =? ch_tab).

Fixpoint lstrip (s : wstring) : wstring :=
  match s with
  | [] => []
  | c :: s' => if is_blank c then lstrip s' else s
  end.

Definition nonempty (s : wstring) : bool :=
  match s with [] => false | _ => true end.

(** The texts the scan of [ext_allowed] compares against, read off its loop
    and not off the specification: the non-empty fields between commas, each
    without the blanks in front of it.  Whatever follows up to the next
    comma, blanks included, stays part of the text ([ext_loop_spec]). *)
Definition csv_entries (s : wstring) : list wstring :=
  filter nonempty (map lstrip (split_commas s)).

(** A text without the blanks on either side of it. *)
Definition strip (s : wstring) : wstring := rev (lstrip (rev (lstrip s))).

(** The entries of a comma-separated list as the specification has them:
    the non-empty fields, trimmed of surrounding blanks. *)
Definition trimmed_entries (s : wstring) : list wstring :=
  filter nonempty (map strip (split_commas s)).

(** The fields of a text whose separators are commas, spaces and tabs
    alike. *)
Fixpoint split_seps (s : wstring) : list wstring :=
  match s with
  | [] => [[]]
  | c :: s' =>
      if is_sep c then [] :: split_seps s'
      else match split_seps s' with
           | f :: fs => (c :: f) :: fs
           | [] => [[c]]
           end
  end.

(** The entries of a comma/space-separated list: its non-empty fields, which
    carry no blank on either side. *)
Definition claimed_entries (s : wstring) : list wstring :=
  filter nonempty (split_seps s).

(** A list written entry by entry: each entry is a run of blanks followed by
    a text without blanks or commas, and commas stand between entries. *)
Fixpoint join_csv (es : list (wstring * wstring)) : wstring :=
  match es with
  | [] => []
  | (blanks, t) :: es' =>
      match es' with
      | [] => blanks ++ t
      | _ => blanks ++ t ++ ch_comma :: join_csv es'
      end
  end.

Definition entry_ok (e : wstring * wstring) : Prop :=
  Forall (fun c => is_blank c = true) (fst e) /\
  snd e <> [] /\
  Forall (fun c => is_sep c = false) (snd e).

(** ** Facts about the runtime routines *)

Lemma towlower_zero c : towlower c = 0 <-> c = 0.
Proof.
  unfold towlower.
  destruct ((65 <=? c) && (c <=? 90)) eqn:E; [|tauto].
  apply andb_true_iff in E. destruct E as [E1 E2].
  apply Z.leb_le in E1. lia.
Qed.

Lemma wcsnicmp_zero_r a b n :
  wstr b -> length b = n ->
  wcsnicmp a b n = 0 <-> map towlower (firstn n a) = map towlower b.
Proof.
  revert a b. induction n as [|n IH]; intros a b Hb Hlen.
  - destruct b; [|discriminate]. simpl. tauto.
  - destruct b as [|y b]; [discriminate|].
    inversion Hb as [|? ? Hy Hb']; subst.
    injection Hlen as Hlen.
    assert (Hy' : towlower y <> 0) by (rewrite towlower_zero; exact Hy).
    destruct a as [|x a]; cbn [wcsnicmp peek hd tl map firstn].
    + change (towlower 0) with 0.
      destruct (0 =? towlower y) eqn:E.
      * apply Z.eqb_eq in E. congruence.
      * split; [lia | discriminate].
    + destruct (towlower x =? towlower y) eqn:E.
      * apply Z.eqb_eq in E.
        destruct (towlower x =? 0) eqn:E0.
        { apply Z.eqb_eq in E0. congruence. }
        rewrite (IH a b Hb' Hlen). rewrite E.
        split; [congruence | intros H; injection H; auto].
      * apply Z.eqb_neq in E. split; [lia|].
        intros H; injection H; intros; contradiction.
Qed.

Lemma wcsnicmp_sym a b n : wcsnicmp a b n = 0 <-> wcsnicmp b a n = 0.
Proof.
  revert a b. induction n as [|n IH]; intros a b; cbn [wcsnicmp]; [tauto|].
  rewrite (Z.eqb_sym (towlower (peek b))).
  destruct (towlower (peek a) =? towlower (peek b)) eqn:E.
  - apply Z.eqb_eq in E. rewrite <- E.
    destruct (towlower (peek a) =? 0); [tauto | apply IH].
  - apply Z.eqb_neq in E. lia.
Qed.

Lemma wcsnicmp_zero_l a b n :
  wstr a -> length a = n ->
  wcsnicmp a b n = 0 <-> map towlower a = map towlower (firstn n b).
Proof.
  intros Ha Hn. rewrite wcsnicmp_sym, (wcsnicmp_zero_r b a n Ha Hn).
  split; congruence.
Qed.

Lemma wcsrchr_none s c : wcsrchr s c = None <-> ~ In c s.
Proof.
  induction s as [|x s IH]; simpl; [tauto|].
  destruct (wcsrchr s c) eqn:E.
  - split; [discriminate|]. intros H. exfalso.
    assert (Hn : ~ In c s) by tauto. apply IH in Hn. discriminate.
  - destruct (x =? c) eqn:Ex.
    + apply Z.eqb_eq in Ex. split; [discriminate | tauto].
    + apply Z.eqb_neq in Ex. split; [|reflexivity].
      intros _ [H|H]; [congruence | apply IH in H; auto].
Qed.

Lemma wcsrchr_some s c r :
  wcsrchr s c = Some r <->
  exists pre suf, s = pre ++ c :: suf /\ ~ In c suf /\ r = c :: suf.
Proof.
  revert r. induction s as [|x s IH]; intros r; simpl.
  - split; [discriminate|]. intros (pre & suf & H & _). destruct pre; discriminate.
  - destruct (wcsrchr s c) as [r0|] eqn:E.
    + destruct (proj1 (IH r0) eq_refl) as (pre & suf & Hs & Hn & Hr).
      split.
      * intros H; injection H as <-. exists (x :: pre), suf. subst s. auto.
      * intros (pre' & suf' & Hs' & Hn' & Hr'). f_equal. subst r r0.
        destruct pre' as [|y pre'].
        { simpl in Hs'. injection Hs' as -> ->. exfalso. apply Hn'.
          rewrite Hs. apply in_elt. }
        simpl in Hs'. injection Hs' as -> Hs'.
        assert (Hx : Some (c :: suf) = Some (c :: suf')).
        { apply IH. exists pre', suf'. auto. }
        congruence.
    + apply wcsrchr_none in E.
      destruct (x =? c) eqn:Ex.
      * apply Z.eqb_eq in Ex. subst x. split.
        { intros H; injection H as <-. exists [], s. auto. }
        intros (pre' & suf' & Hs' & Hn' & Hr'). destruct pre' as [|y pre'].
        { simpl in Hs'. injection Hs' as <-. subst r. reflexivity. }
        simpl in Hs'. injection Hs' as -> Hs'. exfalso. apply E. rewrite Hs'.
        apply in_elt.
      * apply Z.eqb_neq in Ex. split; [discriminate|].
        intros (pre' & suf' & Hs' & Hn' & Hr'). destruct pre' as [|y pre'].
        { simpl in Hs'. injection Hs' as -> _. congruence. }
        simpl in Hs'. injection Hs' as -> Hs'. exfalso. apply E. rewrite Hs'.
        apply in_elt.
Qed.

(** ** The entries visited by the loop of [ext_allowed] *)

(** The text of [s] up to its first comma. *)
Fixpoint field (s : wstring) : wstring :=
  match s with
  | [] => []
  | c :: s' => if c =? ch_comma then [] else c :: field s'
  end.

Lemma field_firstn s :
  firstn (length s - length (scan_entry_end s)) s = field s.
Proof.
  induction s as [|c s IH]; [reflexivity|].
  cbn [scan_entry_end field]. destruct (c =? ch_comma).
  - rewrite Nat.sub_diag. reflexivity.
  - pose proof (scan_entry_end_length s) as Hl.
    replace (length (c :: s) - length (scan_entry_end s))%nat
      with (S (length s - length (scan_entry_end s))) by (cbn [length]; lia).
    simpl. f_equal. exact IH.
Qed.

Lemma field_length s :
  length (field s) = (length s - length (scan_entry_end s))%nat.
Proof.
  rewrite <- field_firstn at 1. rewrite length_firstn.
  pose proof (scan_entry_end_length s). lia.
Qed.

Lemma scan_entry_end_head s :
  match scan_entry_end s with [] => True | c :: _ => c = ch_comma end.
Proof.
  induction s as [|c s IH]; simpl; [exact I|].
  destruct (c =? ch_comma) eqn:E; [apply Z.eqb_eq in E; exact E | exact IH].
Qed.

Lemma split_commas_field s :
  split_commas s =
  field s :: match scan_entry_end s with [] => [] | _ :: r => split_commas r end.
Proof.
  induction s as [|c s IH]; [reflexivity|].
  cbn [split_commas field scan_entry_end].
  destruct (c =? ch_comma); [reflexivity|].
  rewrite IH. reflexivity.
Qed.

Lemma is_sep_blank c : is_sep c = (c =? ch_comma) || is_blank c.
Proof. unfold is_sep, is_blank. rewrite orb_assoc. reflexivity. Qed.

Lemma csv_entries_sep c p : is_sep c = true -> csv_entries (c :: p) = csv_entries p.
Proof.
  intros Hc. unfold csv_entries. cbn [split_commas].
  destruct (c =? ch_comma) eqn:E; [reflexivity|].
  rewrite is_sep_blank, E in Hc. simpl in Hc.
  rewrite (split_commas_field p). cbn [map lstrip]. rewrite Hc. reflexivity.
Qed.

Lemma csv_entries_skip p : csv_entries (skip_seps p) = csv_entries p.
Proof.
  induction p as [|c p IH]; [reflexivity|].
  cbn [skip_seps]. destruct (is_sep c) eqn:E; [|reflexivity].
  rewrite IH. symmetry. apply csv_entries_sep. exact E.
Qed.

Lemma skip_seps_head p :
  match skip_seps p with [] => True | c :: _ => is_sep c = false end.
Proof.
  induction p as [|c p IH]; simpl; [exact I|].
  destruct (is_sep c) eqn:E; [exact IH | exact E].
Qed.

Lemma lstrip_field s :
  match s with [] => True | c :: _ => is_sep c = false end ->
  lstrip (field s) = field s.
Proof.
  destruct s as [|c s]; [reflexivity|]. intros Hc.
  rewrite is_sep_blank in Hc. apply orb_false_iff in Hc. destruct Hc as [Hc Hb].
  cbn [field]. rewrite Hc. cbn [lstrip]. rewrite Hb. reflexivity.
Qed.

Lemma csv_entries_nil : csv_entries [] = [].
Proof. reflexivity. Qed.

Lemma csv_entries_step s :
  match s with [] => True | c :: _ => is_sep c = false end ->
  csv_entries s =
  (if nonempty (field s) then [field s] else []) ++ csv_entries (scan_entry_end s).
Proof.
  intros Hs. unfold csv_entries at 1. rewrite split_commas_field.
  cbn [map filter]. rewrite (lstrip_field s Hs).
  assert (Ht : filter nonempty
                 (map lstrip match scan_entry_end s with
                             | [] => []
                             | _ :: r => split_commas r
                             end) = csv_entries (scan_entry_end s)).
  { pose proof (scan_entry_end_head s) as Hh.
    destruct (scan_entry_end s) as [|c r]; [reflexivity|].
    subst c. symmetry. apply (csv_entries_sep ch_comma r). reflexivity. }
  rewrite Ht. destruct (nonempty (field s)); reflexivity.
Qed.

Lemma csv_entries_nonempty s e : In e (csv_entries s) -> e <> [].
Proof.
  unfold csv_entries. rewrite filter_In. intros [_ H] ->. discriminate.
Qed.

(** One pass of the loop accepts exactly when the entry it reads is not empty
    and equals the extension up to case. *)
Lemma ext_entry_test ext start :
  wstr ext ->
  (let len := (length start - length (scan_entry_end start))%nat in
   (0 <? len)%nat && (wcslen ext =? len)%nat && (wcsnicmp ext start len =? 0)) = true
  <-> field start <> [] /\ eq_ci ext (field start).
Proof.
  intros Hext. cbv zeta. rewrite <- field_length. unfold eq_ci, wcslen.
  rewrite !andb_true_iff, Nat.ltb_lt, Nat.eqb_eq, Z.eqb_eq.
  split.
  - intros [[Hpos Hlen] Hcmp]. split.
    + intros E. rewrite E in Hpos. simpl in Hpos. lia.
    + apply (wcsnicmp_zero_l ext start _ Hext Hlen) in Hcmp.
      rewrite Hcmp. rewrite field_length, field_firstn. reflexivity.
  - intros [Hne Heq].
    assert (Hlen : length ext = length (field start)).
    { apply (f_equal (@length _)) in Heq. rewrite !length_map in Heq. exact Heq. }
    split; [split|].
    + destruct (field start); [congruence | simpl; lia].
    + exact Hlen.
    + apply (wcsnicmp_zero_l ext start _ Hext Hlen).
      rewrite Heq. rewrite field_length, field_firstn. reflexivity.
Qed.

Lemma ext_loop_spec ext p :
  wstr ext ->
  ext_loop ext p = true <-> exists e, In e (csv_entries p) /\ eq_ci ext e.
Proof.
  intros Hext. remember (length p) as n eqn:Hn. revert p Hn.
  induction n as [n IH] using lt_wf_ind. intros p Hn.
  destruct p as [|c p'].
  - simp ext_loop. rewrite csv_entries_nil. split; [discriminate|].
    intros (e & [] & _).
  - simp ext_loop.
    pose proof (ext_loop_progress c p') as Hprog.
    pose proof (IH _ ltac:(rewrite Hn; exact Hprog) _ eq_refl) as IHp.
    pose proof (ext_entry_test ext (skip_seps (c :: p')) Hext) as Ht.
    rewrite <- (csv_entries_skip (c :: p')).
    rewrite (csv_entries_step _ (skip_seps_head (c :: p'))).
    set (start := skip_seps (c :: p')) in *.
    destruct (let len := (length start - length (scan_entry_end start))%nat in
              (0 <? len)%nat && (wcslen ext =? len)%nat &&
              (wcsnicmp ext start len =? 0)) eqn:Hc.
    + destruct (proj1 Ht eq_refl) as [Hne Heq]. split; [|reflexivity].
      intros _. exists (field start). split; [|exact Heq].
      destruct (field start); [congruence | left; reflexivity].
    + rewrite IHp. split.
      * intros (e & He & Hq). exists e. split; [|exact Hq].
        apply in_or_app. right. exact He.
      * intros (e & He & Hq). apply in_app_or in He. destruct He as [He|He].
        -- exfalso. destruct (field start) as [|x f] eqn:Ef; [destruct He|].
           destruct He as [<-|[]].
           assert (Hf : false = true); [|discriminate].
           apply Ht. split; [discriminate | exact Hq].
        -- exists e. auto.
Qed.

Lemma skip_seps_all p : Forall (fun c => is_sep c = true) p -> skip_seps p = [].
Proof.
  induction 1 as [|c p Hc _ IH]; [reflexivity|].
  cbn [skip_seps]. rewrite Hc. exact IH.
Qed.

Lemma ext_loop_only_seps ext p :
  Forall (fun c => is_sep c = true) p -> ext_loop ext p = false.
Proof.
  intros Hp. destruct p as [|c p']; simp ext_loop; [reflexivity|].
  rewrite (skip_seps_all _ Hp). cbn. simp ext_loop. reflexivity.
Qed.

(** ** The substring test *)

Lemma wcontains_scan_spec hay ndl n :
  wcontains_scan hay ndl n = true <->
  exists pre p, hay = pre ++ p /\ p <> [] /\ wcsnicmp p ndl n = 0.
Proof.
  induction hay as [|c hay IH].
  - simpl. split; [discriminate|].
    intros (pre & p & H & Hp & _). destruct pre; destruct p; try discriminate.
    congruence.
  - cbn [wcontains_scan]. destruct (wcsnicmp (c :: hay) ndl n =? 0) eqn:E.
    + apply Z.eqb_eq in E. split; [|reflexivity]. intros _.
      exists [], (c :: hay). repeat split; [discriminate | exact E].
    + apply Z.eqb_neq in E. rewrite IH. split.
      * intros (pre & p & H & Hp & Hc). exists (c :: pre), p. subst hay. auto.
      * intros (pre & p & H & Hp & Hc). destruct pre as [|x pre].
        -- simpl in H. subst p. contradiction.
        -- injection H as <- H. exists pre, p. auto.
Qed.

Lemma wcontains_i_spec hay ndl :
  wstr ndl -> wcontains_i hay ndl = true <-> contains_ci hay ndl.
Proof.
  intros Hn. unfold contains_ci, eq_ci. destruct ndl as [|x ndl].
  - simpl. split; [|reflexivity]. intros _. exists [], [], hay. auto.
  - cbn [wcontains_i]. rewrite wcontains_scan_spec. unfold wcslen. split.
    + intros (pre & p & H & Hp & Hc).
      apply (wcsnicmp_zero_r p (x :: ndl) _ Hn eq_refl) in Hc.
      exists pre, (firstn (length (x :: ndl)) p), (skipn (length (x :: ndl)) p).
      rewrite firstn_skipn. auto.
    + intros (pre & mid & post & H & Hc).
      assert (Hl : length mid = length (x :: ndl)).
      { apply (f_equal (@length _)) in Hc. rewrite !length_map in Hc. exact Hc. }
      exists pre, (mid ++ post). split; [exact H|]. split.
      * destruct mid; [discriminate Hl | discriminate].
      * apply (wcsnicmp_zero_r (mid ++ post) (x :: ndl) _ Hn eq_refl).
        rewrite <- Hl, firstn_app, Nat.sub_diag, firstn_all. simpl.
        rewrite app_nil_r. exact Hc.
Qed.

(** ** The base name of a joined path *)

Lemma basename_loop_no_slash p lst :
  (forall c, In c p -> is_slash c = false) -> basename_loop p lst = lst.
Proof.
  revert lst. induction p as [|c p IH]; intros lst Hp; [reflexivity|].
  cbn [basename_loop]. rewrite (Hp c (or_introl eq_refl)).
  apply IH. intros c' Hc'. apply Hp. right. exact Hc'.
Qed.

Lemma basename_loop_after_slash a s b lst :
  is_slash s = true ->
  (forall c, In c b -> is_slash c = false) ->
  basename_loop (a ++ s :: b) lst = b.
Proof.
  intros Hs Hb. revert lst. induction a as [|x a IH]; intros lst.
  - cbn [app basename_loop]. rewrite Hs. apply basename_loop_no_slash. exact Hb.
  - cbn [app basename_loop]. apply IH.
Qed.

Lemma needs_slash_false dir :
  needs_slash dir = false ->
  dir = [] \/ exists d s, dir = d ++ [s] /\ is_slash s = true.
Proof.
  destruct dir as [|x dir] using rev_ind; [auto|].
  intros H. right. exists dir, x. split; [reflexivity|].
  unfold needs_slash in H. rewrite last_last in H.
  destruct (dir ++ [x]) eqn:E; [destruct dir; discriminate|].
  apply negb_false_iff in H. exact H.
Qed.

Lemma basename_join cap dir name full :
  (forall c, In c name -> is_slash c = false) ->
  join_path cap dir name = Some full ->
  basename_ptr full = name.
Proof.
  intros Hname. unfold join_path.
  destruct (_ <? _)%nat; [discriminate|]. intros H; injection H as <-.
  unfold basename_ptr. destruct (needs_slash dir) eqn:E.
  - apply basename_loop_after_slash; [reflexivity | exact Hname].
  - apply needs_slash_false in E. destruct E as [->|(d & s & -> & Hs)].
    + simpl. apply basename_loop_no_slash. exact Hname.
    + cbn [app]. rewrite <- app_assoc. cbn [app].
      apply basename_loop_after_slash; assumption.
Qed.

(** ** Properties of the matcher *)

Lemma ext_allowed_entries (filename lst : wstring) :
  wstr filename -> lst <> [] ->
  ext_allowed filename lst = true <->
  exists pre ext e,
    filename = pre ++ ch_dot :: ext /\ ~ In ch_dot ext /\
    In e (csv_entries lst) /\ eq_ci ext e.
Proof.
  intros Hf Hl. destruct lst as [|l0 lst]; [congruence|].
  cbn [ext_allowed].
  destruct (wcsrchr filename ch_dot) as [d|] eqn:E.
  - apply wcsrchr_some in E. destruct E as (pre & ext & Hfn & Hnd & ->).
    cbn [tl].
    assert (Hext : wstr ext).
    { unfold wstr in *. rewrite Hfn in Hf. apply Forall_app in Hf.
      destruct Hf as [_ Hf]. inversion Hf. assumption. }
    assert (Huniq : forall pre' ext', filename = pre' ++ ch_dot :: ext' ->
                                      ~ In ch_dot ext' -> ext' = ext).
    { intros pre' ext' H1 H2.
      assert (Ha : wcsrchr filename ch_dot = Some (ch_dot :: ext'))
        by (apply wcsrchr_some; exists pre', ext'; auto).
      assert (Hb : wcsrchr filename ch_dot = Some (ch_dot :: ext))
        by (apply wcsrchr_some; exists pre, ext; auto).
      congruence. }
    destruct ext as [|x ext].
    + split; [discriminate|]. intros (pre' & ext' & e & H1 & H2 & H3 & H4).
      rewrite (Huniq _ _ H1 H2) in H4. apply csv_entries_nonempty in H3.
      unfold eq_ci in H4. destruct e; [congruence | discriminate].
    + rewrite (ext_loop_spec _ _ Hext). split.
      * intros (e & He & Hq). exists pre, (x :: ext), e. auto.
      * intros (pre' & ext' & e & H1 & H2 & H3 & H4).
        rewrite (Huniq _ _ H1 H2) in H4. exists e. auto.
  - apply wcsrchr_none in E. split; [discriminate|].
    intros (pre' & ext' & e & H1 & _). exfalso. apply E. rewrite H1.
    apply in_elt.
Qed.

(** *** Lists written entry by entry *)

Lemma split_commas_head x rest :
  Forall (fun c => is_sep c = false) x ->
  split_commas (x ++ ch_comma :: rest) = x :: split_commas rest.
Proof.
  induction 1 as [|c x Hc _ IH]; [reflexivity|].
  cbn [app split_commas]. rewrite is_sep_blank in Hc.
  apply orb_false_iff in Hc. destruct Hc as [Hc _]. rewrite Hc, IH. reflexivity.
Qed.

Lemma split_commas_single x :
  Forall (fun c => is_sep c = false) x -> split_commas x = [x].
Proof.
  induction 1 as [|c x Hc _ IH]; [reflexivity|].
  cbn [split_commas]. rewrite is_sep_blank in Hc.
  apply orb_false_iff in Hc. destruct Hc as [Hc _]. rewrite Hc, IH. reflexivity.
Qed.

Lemma csv_entries_blanks b p :
  Forall (fun c => is_blank c = true) b -> csv_entries (b ++ p) = csv_entries p.
Proof.
  induction 1 as [|c b Hc _ IH]; [reflexivity|].
  cbn [app]. rewrite csv_entries_sep; [exact IH|].
  rewrite is_sep_blank, Hc. apply orb_true_r.
Qed.

Lemma lstrip_entry t :
  t <> [] -> Forall (fun c => is_sep c = false) t -> lstrip t = t.
Proof.
  intros Hne Ht. destruct t as [|c t]; [congruence|].
  inversion Ht as [|? ? Hc _]; subst. rewrite is_sep_blank in Hc.
  apply orb_false_iff in Hc. destruct Hc as [_ Hc]. cbn [lstrip]. rewrite Hc.
  reflexivity.
Qed.

Lemma csv_entries_join es :
  Forall entry_ok es -> csv_entries (join_csv es) = map snd es.
Proof.
  induction 1 as [|[b t] es (Hb & Hne & Ht) Hes IH]; [reflexivity|].
  cbn [fst snd] in *. cbn [join_csv map snd].
  destruct es as [|e es].
  - rewrite (csv_entries_blanks b t Hb). unfold csv_entries.
    rewrite (split_commas_single t Ht). cbn [map filter].
    rewrite (lstrip_entry t Hne Ht). destruct t; [congruence | reflexivity].
  - rewrite (csv_entries_blanks b _ Hb). unfold csv_entries at 1.
    rewrite (split_commas_head t _ Ht). cbn [map filter].
    rewrite (lstrip_entry t Hne Ht). fold (csv_entries (join_csv (e :: es))).
    rewrite IH. destruct t; [congruence | reflexivity].
Qed.

Lemma join_csv_nonempty es : es <> [] -> Forall entry_ok es -> join_csv es <> [].
Proof.
  intros Hne Hes. destruct es as [|[b t] es]; [congruence|].
  inversion Hes as [|? ? (_ & Ht & _) _]; subst. cbn [snd] in Ht.
  cbn [join_csv]. destruct t as [|c t]; [congruence|].
  destruct es; intros E; apply app_eq_nil in E; destruct E as [_ E]; discriminate.
Qed.

(** *** A blank behind an entry *)

Lemma split_commas_no_comma x :
  Forall (fun c => (c =? ch_comma) = false) x -> split_commas x = [x].
Proof.
  induction 1 as [|c x Hc _ IH]; [reflexivity|].
  cbn [split_commas]. rewrite Hc, IH. reflexivity.
Qed.

Lemma no_sep_no_comma x :
  Forall (fun c => is_sep c = false) x ->
  Forall (fun c => (c =? ch_comma) = false) x.
Proof.
  intros H. eapply Forall_impl; [|exact H]. intros c Hc. cbv beta in Hc.
  rewrite is_sep_blank in Hc. apply orb_false_iff in Hc. tauto.
Qed.

Lemma strip_trailing_blank t :
  t <> [] -> Forall (fun c => is_sep c = false) t ->
  lstrip (t ++ [ch_space]) = t ++ [ch_space] /\ strip (t ++ [ch_space]) = t.
Proof.
  intros Hne Ht.
  assert (H1 : lstrip (t ++ [ch_space]) = t ++ [ch_space]).
  { destruct t as [|c t]; [congruence|].
    inversion Ht as [|? ? Hc _]; subst. rewrite is_sep_blank in Hc.
    apply orb_false_iff in Hc. destruct Hc as [_ Hc]. cbn [app lstrip].
    rewrite Hc. reflexivity. }
  split; [exact H1|]. unfold strip. rewrite H1, rev_app_distr.
  cbn [rev app]. change (lstrip (ch_space :: rev t)) with (lstrip (rev t)).
  rewrite lstrip_entry.
  - apply rev_involutive.
  - intros E. apply (f_equal (@rev _)) in E. rewrite rev_involutive in E.
    contradiction.
  - apply Forall_rev. exact Ht.
Qed.

Lemma last_dot_unique pre ext pre' ext' :
  pre ++ ch_dot :: ext = pre' ++ ch_dot :: ext' ->
  ~ In ch_dot ext -> ~ In ch_dot ext' -> ext' = ext.
Proof.
  intros E H H'.
  assert (Ha : wcsrchr (pre ++ ch_dot :: ext) ch_dot = Some (ch_dot :: ext))
    by (apply wcsrchr_some; exists pre, ext; auto).
  assert (Hb : wcsrchr (pre ++ ch_dot :: ext) ch_dot = Some (ch_dot :: ext'))
    by (apply wcsrchr_some; exists pre', ext'; auto).
  congruence.
Qed.

(** C5. The specification's entries are the comma-separated fields trimmed
    of the blanks on both sides.  With those entries the claimed equivalence
    holds for every list none of whose fields ends in a blank; the empty list
    accepts every name, a name without a dot is rejected, [a.TXT] passes
    under [txt] and [a.text] does not.  It fails where a blank follows an
    entry: under the list made of an extension and one space, that extension
    is an entry and yet every file carrying it is rejected, while the same
    list with the space in front accepts the file. *)
Theorem ext_allowed_trailing_blank (filename pre ext : wstring) :
  wstr filename ->
  filename = pre ++ ch_dot :: ext ->
  ext <> [] -> Forall (fun c => is_sep c = false) ext -> ~ In ch_dot ext ->
  (In ext (trimmed_entries (ext ++ [ch_space])) /\
   eq_ci ext ext /\
   ext_allowed filename (ext ++ [ch_space]) = false /\
   ext_allowed filename (ch_space :: ext) = true) /\
  (forall lst,
     lst <> [] ->
     Forall (fun f => strip f = lstrip f) (split_commas lst) ->
     (ext_allowed filename lst = true <->
      exists e, In e (trimmed_entries lst) /\ eq_ci ext e)) /\
  (forall name lst, ~ In ch_dot name -> lst <> [] -> ext_allowed name lst = false) /\
  ext_allowed filename [] = true /\
  ext_allowed (W "a.TXT") (W "txt") = true /\
  ext_allowed (W "a.text") (W "txt") = false.
Proof.
  intros Hf Hfn Hne Hext Hnd.
  destruct (strip_trailing_blank ext Hne Hext) as [Hl Hs].
  assert (Hsplit : split_commas (ext ++ [ch_space]) = [ext ++ [ch_space]]).
  { apply split_commas_no_comma. apply Forall_app. split.
    - apply no_sep_no_comma. exact Hext.
    - constructor; [reflexivity | constructor]. }
  split; [|split; [|split; [|split; [reflexivity | split; reflexivity]]]].
  - split; [|split; [reflexivity|split]].
    + unfold trimmed_entries. rewrite Hsplit. cbn [map]. rewrite Hs.
      destruct ext; [congruence | left; reflexivity].
    + destruct (ext_allowed filename (ext ++ [ch_space])) eqn:E; [|reflexivity].
      exfalso. apply ext_allowed_entries in E.
      * destruct E as (pre' & ext' & e & H1 & H2 & H3 & H4).
        rewrite Hfn in H1. rewrite (last_dot_unique _ _ _ _ H1 Hnd H2) in H4.
        unfold csv_entries in H3. rewrite Hsplit in H3. cbn [map] in H3.
        rewrite Hl in H3. destruct (ext ++ [ch_space]) eqn:Ee.
        -- destruct H3.
        -- cbn [filter nonempty] in H3. destruct H3 as [<-|[]].
           rewrite <- Ee in H4. unfold eq_ci in H4.
           apply (f_equal (@length _)) in H4.
           rewrite !length_map, length_app in H4. cbn [length] in H4. lia.
      * exact Hf.
      * destruct ext; discriminate.
    + apply ext_allowed_entries; [exact Hf | discriminate |].
      exists pre, ext, ext. split; [exact Hfn|]. split; [exact Hnd|].
      split; [|reflexivity].
      rewrite csv_entries_sep by reflexivity.
      assert (Hone : csv_entries ext = [ext]).
      { apply (csv_entries_join [([], ext)]). constructor; [|constructor].
        repeat split; [constructor | exact Hne | exact Hext]. }
      rewrite Hone. left. reflexivity.
  - intros lst Hl0 Hfields.
    assert (Hsame : trimmed_entries lst = csv_entries lst).
    { unfold trimmed_entries, csv_entries. f_equal.
      apply map_ext_in. intros f Hin.
      rewrite Forall_forall in Hfields. apply Hfields. exact Hin. }
    rewrite Hsame, (ext_allowed_entries filename lst Hf Hl0). split.
    + intros (pre' & ext' & e & H1 & H2 & H3 & H4). rewrite Hfn in H1.
      rewrite (last_dot_unique _ _ _ _ H1 Hnd H2) in H4. exists e. auto.
    + intros (e & H3 & H4). exists pre, ext, e. auto.
  - intros name lst Hn Hl0. destruct lst as [|l0 lst]; [congruence|].
    cbn [ext_allowed]. apply wcsrchr_none in Hn. rewrite Hn. reflexivity.
Qed.

Lemma ext_allowed_trailing_blank_witness :
  In (W "txt") (trimmed_entries (W "txt ")) /\
  ext_allowed (W "a.txt") (W "txt ") = false /\
  ext_allowed (W "a.txt") (W " txt") = true.
Proof.
  assert (Hf : wstr (W "a.txt")) by (repeat constructor; discriminate).
  assert (Hs : Forall (fun c => is_sep c = false) (W "txt"))
    by (repeat constructor).
  assert (Hd : ~ In ch_dot (W "txt")).
  { simpl. intros [H|[H|[H|[]]]]; discriminate. }
  destruct (ext_allowed_trailing_blank (W "a.txt") (W "a") (W "txt")
              Hf eq_refl ltac:(discriminate) Hs Hd) as ((H1 & _ & H2 & H3) & _).
  split; [exact H1|]. split; [exact H2 | exact H3].
Defined.

(** C6, as the program has it. The list is comma-separated, and spaces and
    tabs in front of an entry are skipped before the case-insensitive
    comparison: a list whose entries (texts without blanks or commas) are
    each preceded by any run of spaces and tabs accepts an extension exactly
    when some entry equals it up to case. *)
Theorem ext_allowed_leading_blanks
    (filename : wstring) (es : list (wstring * wstring)) :
  wstr filename -> es <> [] -> Forall entry_ok es ->
  ext_allowed filename (join_csv es) = true <->
  exists pre ext blanks t,
    filename = pre ++ ch_dot :: ext /\ ~ In ch_dot ext /\
    In (blanks, t) es /\ eq_ci ext t.
Proof.
  intros Hf Hne Hes.
  rewrite (ext_allowed_entries filename _ Hf (join_csv_nonempty es Hne Hes)).
  rewrite (csv_entries_join es Hes). split.
  - intros (pre & ext & e & H1 & H2 & H3 & H4).
    apply in_map_iff in H3. destruct H3 as ([b t] & <- & Hin).
    exists pre, ext, b, t. auto.
  - intros (pre & ext & b & t & H1 & H2 & H3 & H4).
    exists pre, ext, t. repeat split; auto.
    apply in_map_iff. exists (b, t). auto.
Qed.

Lemma ext_allowed_leading_blanks_witness :
  join_csv [([], W "c"); (W " ", W "h"); ([ch_tab; ch_space], W "cpp")]
    = W "c, h," ++ [ch_tab] ++ W " cpp" /\
  ext_allowed (W "main.H")
    (join_csv [([], W "c"); (W " ", W "h"); ([ch_tab; ch_space], W "cpp")]) = true.
Proof.
  split; [reflexivity|].
  apply (ext_allowed_leading_blanks (W "main.H")
           [([], W "c"); (W " ", W "h"); ([ch_tab; ch_space], W "cpp")]).
  - repeat constructor; discriminate.
  - discriminate.
  - repeat constructor; discriminate.
  - exists (W "main"), (W "H"), (W " "), (W "h").
    split; [reflexivity|]. split; [|split].
    + simpl. intros [H|[]]. discriminate.
    + right. left. reflexivity.
    + reflexivity.
Defined.

(** C6, as stated, fails: a space does not separate two entries.  In the
    list [c h] the text [h] is an entry of the comma/space-separated reading
    and equals the extension of [a.h], yet the file is rejected. *)
Lemma space_separated_entry_rejected :
  In (W "h") (claimed_entries (W "c h")) /\
  eq_ci (W "h") (W "h") /\
  (exists pre, W "a.h" = pre ++ ch_dot :: W "h" /\ ~ In ch_dot (W "h")) /\
  ext_allowed (W "a.h") (W "c h") = false.
Proof.
  split; [vm_compute; tauto|]. split; [reflexivity|]. split; [|reflexivity].
  exists (W "a"). split; [reflexivity|]. simpl. intros [H|[]]. discriminate.
Qed.

(** C7. The substring filter is a case-insensitive containment test of the
    needle against the entry's base name, or against the full path in
    full-path mode; an empty needle passes for every name. *)
Theorem substring_filter_spec (qy : Query) (cap : nat) (dir name full : wstring) :
  wstr (needle qy) ->
  (forall c, In c name -> is_slash c = false) ->
  join_path cap dir name = Some full ->
  (name_matches qy full = true <->
   contains_ci (if match_full_path qy =? 0 then name else full) (needle qy)) /\
  (needle qy = [] -> name_matches qy full = true) /\
  (forall hay, wcontains_i hay [] = true).
Proof.
  intros Hn Hname Hj. split; [|split].
  - unfold name_matches, match_target.
    rewrite (wcontains_i_spec _ _ Hn).
    rewrite (basename_join _ _ _ _ Hname Hj). tauto.
  - intros E. unfold name_matches. rewrite E. reflexivity.
  - reflexivity.
Qed.

Lemma substring_filter_spec_witness :
  name_matches (mkQuery (W "ReAd") (W "") 0) (W "C:\src\README.md") = true.
Proof.
  destruct (substring_filter_spec (mkQuery (W "ReAd") (W "") 0) 2080
              (W "C:\src") (W "README.md") (W "C:\src\README.md"))
    as (H & _ & _).
  - repeat constructor; discriminate.
  - intros c Hc. vm_compute in Hc.
    repeat (destruct Hc as [<-|Hc]; [reflexivity|]). destruct Hc.
  - reflexivity.
  - apply H. exists [], (W "READ"), (W "ME.md"). split; reflexivity.
Defined.

(** C10. A non-empty extension list made only of commas, spaces and tabs
    rejects every file name, whereas the empty list accepts every one. *)
Theorem ext_allowed_only_separators (filename lst : wstring) :
  lst <> [] ->
  Forall (fun c => is_sep c = true) lst ->
  ext_allowed filename lst = false /\ ext_allowed filename [] = true.
Proof.
  intros Hne Hsep. split; [|reflexivity].
  destruct lst as [|c lst]; [congruence|]. cbn [ext_allowed].
  destruct (wcsrchr filename ch_dot) as [d|]; [|reflexivity].
  destruct (tl d); [reflexivity|]. apply ext_loop_only_seps. exact Hsep.
Qed.

Lemma ext_allowed_only_separators_witness :
  ext_allowed (W "a.txt") (W ", ,") = false /\ ext_allowed (W "a.txt") [] = true.
Proof.
  apply (ext_allowed_only_separators (W "a.txt") (W ", ,")).
  - discriminate.
  - repeat constructor.
Defined.

(** * The traversal engine *)

(** ** Platform constants and data (Windows SDK values) *)

Definition MAX_PATH : nat := 260.

(** [ARRAYSIZE(glob)] and [ARRAYSIZE(full)] in [worker_thread]. *)
Definition PATH_CAP : nat := (MAX_PATH * 8)%nat.

Definition FILE_ATTRIBUTE_DIRECTORY : Z := 16.
Definition FILE_ATTRIBUTE_REPARSE_POINT : Z := 1024.

Definition INT_MAX : Z := 2147483647.
Definition INT_MIN : Z := -2147483648.

Record WIN32_FIND_DATAW := mkFind {
  dwFileAttributes : Z;
  cFileName : wstring
}.

Definition has_attr (fd : WIN32_FIND_DATAW) (a : Z) : bool :=
  negb (Z.land (dwFileAttributes fd) a =? 0).

(** Arithmetic of [LONG] (32 bits) and [LONG64], two's complement. *)
Definition wrap_long (z : Z) : Z := (z + 2147483648) mod 4294967296 - 2147483648.
Definition wrap_long64 (z : Z) : Z :=
  (z + 9223372036854775808) mod 18446744073709551616 - 9223372036854775808.

Definition InterlockedIncrement (z : Z) : Z := wrap_long (z + 1).
Definition InterlockedDecrement (z : Z) : Z := wrap_long (z - 1).
Definition InterlockedIncrement64 (z : Z) : Z := wrap_long64 (z + 1).

(** ** Work queue

    The linked list between [head] and [tail] is the list [items], oldest
    first.  Every operation below runs with the mutex [mu] held. *)

Record WorkQ := mkWorkQ {
  items : list wstring;
  active_workers : Z;
  stop : Z
}.

Definition wq_init : WorkQ := mkWorkQ [] 0 0.

(** [wq_push_owned] when [malloc] succeeds; it ends with
    [WakeConditionVariable]. *)
Definition wq_push_owned (q : WorkQ) (dir_owned : wstring) : WorkQ :=
  mkWorkQ (items q ++ [dir_owned]) (active_workers q) (stop q).

(** What one pass through the [for (;;)] of [wq_pop] does. *)
Inductive pop_result :=
| PopStop               (* stop flag seen: return NULL *)
| PopDir (dir : wstring) (* head removed: return it *)
| PopFinish             (* stop flag set, WakeAllConditionVariable, return NULL *)
| PopSleep.             (* SleepConditionVariableCS, then the next pass *)

Definition wq_pop_pass (q : WorkQ) : pop_result * WorkQ :=
  if negb (stop q =? 0) then (PopStop, q)
  else
    match items q with
    | dir :: rest =>
        (PopDir dir, mkWorkQ rest (InterlockedIncrement (active_workers q)) (stop q))
    | [] =>
        if active_workers q =? 0
        then (PopFinish, mkWorkQ [] (active_workers q) 1)
        else (PopSleep, q)
    end.

(** [wq_done_one]; it ends with [WakeAllConditionVariable]. *)
Definition wq_done_one (q : WorkQ) : WorkQ :=
  mkWorkQ (items q) (InterlockedDecrement (active_workers q)) (stop q).

(** ** Workers *)

(** Where a worker thread stands. *)
Inductive worker :=
| AtPop                       (* in [wq_pop], before a pass of its loop *)
| Asleep                      (* in [SleepConditionVariableCS] *)
| Holding (dir : wstring)     (* [wq_pop] returned [dir] *)
| Scanning (dir : wstring) (fds : list WIN32_FIND_DATAW)
                              (* entries still to classify; with none left the
                                 worker is about to call [wq_done_one] *)
| Returned.                   (* [worker_thread] returned *)

Definition wake_up (w : worker) : worker :=
  match w with Asleep => AtPop | _ => w end.

Definition wake_all (l : list worker) : list worker := map wake_up l.

(** [WakeConditionVariable]: one sleeping thread, if there is one. *)
Inductive wake_one : list worker -> list worker -> Prop :=
| wake_one_nobody l : ~ In Asleep l -> wake_one l l
| wake_one_thread l1 l2 : wake_one (l1 ++ Asleep :: l2) (l1 ++ AtPop :: l2).

Record Sys := mkSys {
  wq : WorkQ;
  pool : list worker;
  out : list wstring;          (* lines written to stdout *)
  found : Z;
  dirs_scanned : Z;
  files_scanned : Z
}.

(** What the body of the [do ... while] loop does with one entry. *)
Inductive action :=
| Skip
| Push (full : wstring)
| File (full : wstring) (matched : bool).

Inductive kind := Normal | AllocFail | Spurious.

(** A step of worker [i]. *)
Inductive event := Ev (i : nat) (k : kind).

Definition ev_kind (e : event) : kind := match e with Ev _ k => k end.

Section Traversal.

(** The directory enumerator: the entries [FindFirstFileW] and then
    [FindNextFileW] deliver for a pattern; no entry stands for
    [INVALID_HANDLE_VALUE]. *)
Variable fs : wstring -> list WIN32_FIND_DATAW.
Variable qy : Query.

Definition listing (dir : wstring) : list WIN32_FIND_DATAW :=
  match make_glob PATH_CAP dir with
  | None => []
  | Some glob => fs glob
  end.

Definition classify (dir : wstring) (fd : WIN32_FIND_DATAW) : action :=
  if is_dot_or_dotdot (cFileName fd) then Skip
  else
    match join_path PATH_CAP dir (cFileName fd) with
    | None => Skip
    | Some full =>
        if has_attr fd FILE_ATTRIBUTE_DIRECTORY then
          if has_attr fd FILE_ATTRIBUTE_REPARSE_POINT then Skip
          else Push full
        else
          File full (ext_allowed (cFileName fd) (extcsv qy) && name_matches qy full)
    end.

Definition after_pop (r : pop_result) : worker :=
  match r with
  | PopStop | PopFinish => Returned
  | PopDir dir => Holding dir
  | PopSleep => Asleep
  end.

Definition pop_wakes (r : pop_result) (l : list worker) : list worker :=
  match r with PopFinish => wake_all l | _ => l end.

Inductive step : Sys -> event -> Sys -> Prop :=
| step_pop s l1 l2 r q' :
    pool s = l1 ++ AtPop :: l2 ->
    wq_pop_pass (wq s) = (r, q') ->
    step s (Ev (length l1) Normal)
      (mkSys q' (pop_wakes r (l1 ++ after_pop r :: l2))
             (out s) (found s) (dirs_scanned s) (files_scanned s))
| step_open s l1 l2 dir :
    pool s = l1 ++ Holding dir :: l2 ->
    step s (Ev (length l1) Normal)
      (mkSys (wq s) (l1 ++ Scanning dir (listing dir) :: l2)
             (out s) (found s) (InterlockedIncrement64 (dirs_scanned s))
             (files_scanned s))
| step_skip s l1 l2 dir fd rest :
    pool s = l1 ++ Scanning dir (fd :: rest) :: l2 ->
    classify dir fd = Skip ->
    step s (Ev (length l1) Normal)
      (mkSys (wq s) (l1 ++ Scanning dir rest :: l2)
             (out s) (found s) (dirs_scanned s) (files_scanned s))
| step_push s l1 l2 dir fd rest full pool' :
    pool s = l1 ++ Scanning dir (fd :: rest) :: l2 ->
    classify dir fd = Push full ->
    wake_one (l1 ++ Scanning dir rest :: l2) pool' ->
    step s (Ev (length l1) Normal)
      (mkSys (wq_push_owned (wq s) full) pool'
             (out s) (found s) (dirs_scanned s) (files_scanned s))
| step_push_nomem s l1 l2 dir fd rest full :
    (* [wcsdup_heap] or the [malloc] of the node failed: the item is dropped *)
    pool s = l1 ++ Scanning dir (fd :: rest) :: l2 ->
    classify dir fd = Push full ->
    step s (Ev (length l1) AllocFail)
      (mkSys (wq s) (l1 ++ Scanning dir rest :: l2)
             (out s) (found s) (dirs_scanned s) (files_scanned s))
| step_file s l1 l2 dir fd rest full matched :
    (* for a match the thread raises [found] and then writes the line under
       [out_mu]; the two are taken together, so the states of this relation
       are those in which no thread stands between them *)
    pool s = l1 ++ Scanning dir (fd :: rest) :: l2 ->
    classify dir fd = File full matched ->
    step s (Ev (length l1) Normal)
      (mkSys (wq s) (l1 ++ Scanning dir rest :: l2)
             (if matched then out s ++ [full] else out s)
             (if matched then InterlockedIncrement64 (found s) else found s)
             (dirs_scanned s) (InterlockedIncrement64 (files_scanned s)))
| step_done s l1 l2 dir :
    pool s = l1 ++ Scanning dir [] :: l2 ->
    step s (Ev (length l1) Normal)
      (mkSys (wq_done_one (wq s)) (wake_all (l1 ++ AtPop :: l2))
             (out s) (found s) (dirs_scanned s) (files_scanned s))
| step_spurious s l1 l2 :
    (* a condition variable may wake a sleeper without a signal *)
    pool s = l1 ++ Asleep :: l2 ->
    step s (Ev (length l1) Spurious)
      (mkSys (wq s) (l1 ++ AtPop :: l2)
             (out s) (found s) (dirs_scanned s) (files_scanned s)).

Inductive run : Sys -> list event -> Sys -> Prop :=
| run_nil s : run s [] s
| run_cons s ev s' tr s'' : step s ev s' -> run s' tr s'' -> run s (ev :: tr) s''.

(** [wmain] after [wq_push_owned(&q, root_copy)] has queued the root, with
    [k] threads created. *)
Definition init (root : wstring) (k : nat) : Sys :=
  mkSys (wq_push_owned wq_init root) (repeat AtPop k) [] 0 0 0.

(** Every thread has returned: [WaitForMultipleObjects] lets [wmain] go on. *)
Definition final (s : Sys) : Prop := Forall (fun w => w = Returned) (pool s).

Definition no_alloc_failure (tr : list event) : Prop :=
  Forall (fun e => ev_kind e <> AllocFail) tr.

Definition no_spurious (tr : list event) : Prop :=
  Forall (fun e => ev_kind e <> Spurious) tr.

(** ** The sequential reference walk *)

(** The tree below [dir] closes within [n] levels of real (not reparse)
    sub-directories. *)
Fixpoint within (n : nat) (dir : wstring) : bool :=
  match n with
  | O => false
  | S n' =>
      forallb (fun fd => match classify dir fd with
                         | Push full => within n' full
                         | _ => true
                         end) (listing dir)
  end.

(** The lines a recursive descent from [dir] reports. *)
Fixpoint walk (n : nat) (dir : wstring) : list wstring :=
  match n with
  | O => []
  | S n' =>
      flat_map (fun fd => match classify dir fd with
                          | Push full => walk n' full
                          | File full true => [full]
                          | _ => []
                          end) (listing dir)
  end.

(** The number of steps the descent from [dir] takes: pop, open, one per
    entry, done. *)
Fixpoint cost (n : nat) (dir : wstring) : nat :=
  match n with
  | O => 3
  | S n' =>
      3 + list_sum (map (fun fd => match classify dir fd with
                                   | Push full => S (cost n' full)
                                   | _ => 1%nat
                                   end) (listing dir))
  end.

End Traversal.

(** ** Counting over the pool *)

Definition total {A} (f : A -> nat) (l : list A) : nat := list_sum (map f l).

Lemma total_app {A} (f : A -> nat) l1 l2 :
  total f (l1 ++ l2) = (total f l1 + total f l2)%nat.
Proof. unfold total. rewrite map_app, list_sum_app. reflexivity. Qed.

Lemma total_cons {A} (f : A -> nat) x l : total f (x :: l) = (f x + total f l)%nat.
Proof. reflexivity. Qed.

Lemma total_nil {A} (f : A -> nat) : total f [] = 0%nat.
Proof. reflexivity. Qed.

Lemma total_le_length {A} (f : A -> nat) l :
  (forall x, f x <= 1)%nat -> (total f l <= length l)%nat.
Proof.
  intros Hf. induction l as [|x l IH]; [apply Nat.le_refl|].
  rewrite total_cons. cbn [length]. specialize (Hf x). lia.
Qed.

Lemma total_wake_all f l :
  (forall w, f (wake_up w) = f w) -> total f (wake_all l) = total f l.
Proof.
  intros Hf. unfold total, wake_all. rewrite map_map. f_equal.
  apply map_ext. exact Hf.
Qed.

Lemma total_wake_one f l l' :
  f Asleep = f AtPop -> wake_one l l' -> total f l' = total f l.
Proof.
  intros Hf H. destruct H; [reflexivity|].
  rewrite !total_app, !total_cons, Hf. reflexivity.
Qed.

Lemma length_wake_all l : length (wake_all l) = length l.
Proof. apply length_map. Qed.

Lemma length_wake_one l l' : wake_one l l' -> length l' = length l.
Proof. destruct 1; [reflexivity|]. rewrite !length_app. reflexivity. Qed.

(** A worker that owns a popped directory. *)
Definition busy (w : worker) : nat :=
  match w with Holding _ | Scanning _ _ => 1 | _ => 0 end%nat.

Definition sleepy (w : worker) : nat :=
  match w with Asleep => 1 | _ => 0 end%nat.

Definition gone (w : worker) : nat :=
  match w with Returned => 1 | _ => 0 end%nat.

Lemma gone_wake_up w : gone (wake_up w) = gone w.
Proof. destruct w; reflexivity. Qed.

Lemma busy_le w : (busy w <= 1)%nat.
Proof. destruct w; simpl; lia. Qed.

Lemma sleepy_le w : (sleepy w <= 1)%nat.
Proof. destruct w; simpl; lia. Qed.

Lemma busy_wake_up w : busy (wake_up w) = busy w.
Proof. destruct w; reflexivity. Qed.

Lemma sleepy_wake_all l : total sleepy (wake_all l) = 0%nat.
Proof.
  induction l as [|w l IH]; [reflexivity|].
  cbn [wake_all map]. rewrite total_cons. fold (wake_all l). rewrite IH.
  destruct w; reflexivity.
Qed.

Lemma sleepy_In l : In Asleep l <-> (0 < total sleepy l)%nat.
Proof.
  induction l as [|w l IH]; [simpl; split; [tauto | unfold total; simpl; lia]|].
  rewrite total_cons. cbn [In]. rewrite IH. destruct w; simpl; split;
    try (intros [H|H]; [discriminate H | lia]); try lia; try (intros; right; lia);
    auto with arith.
Qed.

Lemma sleepy_wake_one l l' :
  wake_one l l' -> (total sleepy l' <= total sleepy l)%nat.
Proof.
  destruct 1; [lia|]. rewrite !total_app, !total_cons. simpl. lia.
Qed.

Lemma wake_one_exists l : exists l', wake_one l l'.
Proof.
  destruct (Nat.eq_dec (total sleepy l) 0) as [Hz|Hnz].
  - exists l. apply wake_one_nobody. rewrite sleepy_In. lia.
  - assert (Hin : In Asleep l) by (apply sleepy_In; lia).
    apply in_split in Hin. destruct Hin as (l1 & l2 & ->).
    eexists. apply wake_one_thread.
Qed.

Lemma wrap_long_small z : INT_MIN <= z <= INT_MAX -> wrap_long z = z.
Proof.
  unfold wrap_long, INT_MIN, INT_MAX. intros H.
  rewrite Z.mod_small; lia.
Qed.

(** ** Invariants of the termination protocol *)

Section Protocol.

Variable fs : wstring -> list WIN32_FIND_DATAW.
Variable qy : Query.

(** [k] is the number of worker threads; it is an [int] in [wmain]. *)
Variable k : nat.
Hypothesis k_int : Z.of_nat k <= INT_MAX.

Record inv (s : Sys) : Prop := mkInv {
  inv_len : length (pool s) = k;
  inv_active : active_workers (wq s) = Z.of_nat (total busy (pool s));
  inv_stop01 : stop (wq s) = 0 \/ stop (wq s) = 1;
  inv_stopped :
    stop (wq s) <> 0 ->
    items (wq s) = [] /\ total busy (pool s) = 0%nat /\ total sleepy (pool s) = 0%nat;
  inv_sleep : (0 < total sleepy (pool s) -> 0 < total busy (pool s))%nat;
  inv_gone : (0 < total gone (pool s))%nat -> stop (wq s) <> 0
}.

Lemma inv_init root : inv (init root k).
Proof.
  assert (Hb : total busy (repeat AtPop k) = 0%nat).
  { induction k as [|n IH] in |- *; [reflexivity|]. simpl. rewrite total_cons. simpl.
    exact IH. }
  assert (Hs : total sleepy (repeat AtPop k) = 0%nat).
  { induction k as [|n IH] in |- *; [reflexivity|]. simpl. rewrite total_cons. simpl.
    exact IH. }
  assert (Hg : total gone (repeat AtPop k) = 0%nat).
  { induction k as [|n IH] in |- *; [reflexivity|]. simpl. rewrite total_cons. simpl.
    exact IH. }
  constructor; simpl.
  - apply repeat_length.
  - rewrite Hb. reflexivity.
  - left. reflexivity.
  - intros H. congruence.
  - rewrite Hs. lia.
  - rewrite Hg. lia.
Qed.

Lemma busy_bound l : length l = k -> Z.of_nat (total busy l) <= INT_MAX.
Proof.
  intros Hl. pose proof (total_le_length busy l busy_le). lia.
Qed.

Ltac pool_norm :=
  repeat first
    [ rewrite total_app | rewrite total_cons | rewrite total_nil
    | rewrite (total_wake_all busy) by apply busy_wake_up
    | rewrite (total_wake_all gone) by apply gone_wake_up
    | rewrite sleepy_wake_all | rewrite length_wake_all | rewrite length_app ];
  cbn [busy sleepy gone length after_pop].

Ltac inv_finish :=
  auto; try lia; try congruence;
  try (intros; repeat split; auto; lia);
  try (match goal with
       | Hs : stop _ <> 0 -> _ |- stop _ <> 0 -> _ =>
           let Hx := fresh in
           intros Hx; destruct (Hs Hx) as (? & ? & ?); repeat split; auto; lia
       end).

Lemma step_inv s ev s' : inv s -> step fs qy s ev s' -> inv s'.
Proof.
  intros [Hlen Hact Hst Hstopped Hsleep Hgone] Hstep.
  pose proof (busy_bound _ Hlen) as Hbound.
  destruct s as [q pl o f ds fsc]. cbn [wq pool] in *.
  inversion Hstep; subst; cbn [wq pool out found dirs_scanned files_scanned] in *;
    match goal with Hp : pl = _ |- _ => rewrite Hp in * end; clear Hstep.
  - (* wq_pop *)
    match goal with Hq : wq_pop_pass _ = _ |- _ => unfold wq_pop_pass in Hq;
      rename Hq into Hpass end.
    destruct (stop q =? 0) eqn:Estop; cbn [negb] in Hpass;
      [apply Z.eqb_eq in Estop | apply Z.eqb_neq in Estop];
      [destruct (items q) as [|d rest] eqn:Eitems;
       [destruct (active_workers q =? 0) eqn:Eact;
        [apply Z.eqb_eq in Eact | apply Z.eqb_neq in Eact]|]|];
      injection Hpass as <- <-;
      revert Hlen Hact Hsleep Hstopped Hgone Hbound; pool_norm; intros;
      pose proof (total_le_length busy l1 busy_le);
      pose proof (total_le_length busy l2 busy_le);
      constructor; cbn [wq pool pop_wakes items stop active_workers]; pool_norm;
      unfold InterlockedIncrement; rewrite ?Hact;
      try (rewrite wrap_long_small by (unfold INT_MIN, INT_MAX in *; lia));
      inv_finish.
  - (* open *)
    revert Hlen Hact Hsleep Hstopped Hgone. pool_norm. intros.
    constructor; cbn [wq pool]; pool_norm; inv_finish.
  - (* skip *)
    revert Hlen Hact Hsleep Hstopped Hgone. pool_norm. intros.
    constructor; cbn [wq pool]; pool_norm; inv_finish.
  - (* push *)
    match goal with Hw : wake_one _ _ |- _ =>
      pose proof (total_wake_one busy _ _ eq_refl Hw) as Hwb;
      pose proof (total_wake_one gone _ _ eq_refl Hw) as Hwg;
      pose proof (sleepy_wake_one _ _ Hw) as Hws;
      pose proof (length_wake_one _ _ Hw) as Hwl end.
    revert Hlen Hact Hsleep Hstopped Hgone Hwb Hwg Hws Hwl. pool_norm. intros.
    constructor; cbn [wq pool wq_push_owned items stop active_workers];
      try rewrite Hwb; try rewrite Hwg; inv_finish.
  - (* push, allocation failure *)
    revert Hlen Hact Hsleep Hstopped Hgone. pool_norm. intros.
    constructor; cbn [wq pool]; pool_norm; inv_finish.
  - (* file *)
    revert Hlen Hact Hsleep Hstopped Hgone. pool_norm. intros.
    constructor; cbn [wq pool]; pool_norm; inv_finish.
  - (* wq_done_one *)
    revert Hlen Hact Hsleep Hstopped Hgone Hbound. pool_norm. intros.
    constructor; cbn [wq pool wq_done_one items stop active_workers]; pool_norm;
      unfold InterlockedDecrement; rewrite ?Hact;
      try (rewrite wrap_long_small by (unfold INT_MIN, INT_MAX in *; lia));
      inv_finish.
  - (* spurious wake-up *)
    revert Hlen Hact Hsleep Hstopped Hgone. pool_norm. intros.
    constructor; cbn [wq pool]; pool_norm; inv_finish.
Qed.

Lemma run_inv s tr s' : inv s -> run fs qy s tr s' -> inv s'.
Proof.
  intros Hi Hr. induction Hr as [|s ev s1 tr s2 Hstep _ IH]; [exact Hi|].
  apply IH. eapply step_inv; eassumption.
Qed.

(** *** No deadlock *)

Lemma pool_cases (l : list worker) :
  Forall (fun w => w = Returned) l \/
  (exists l1 w l2, l = l1 ++ w :: l2 /\ w <> Returned /\ w <> Asleep) \/
  ((0 < total sleepy l)%nat /\ total busy l = 0%nat).
Proof.
  induction l as [|w l IH].
  - left. constructor.
  - assert (Hw : w = Returned \/ w = Asleep \/ (w <> Returned /\ w <> Asleep)).
    { destruct w; auto; right; right; split; discriminate. }
    destruct Hw as [->|[->|[Hr Ha]]].
    + destruct IH as [IH|[(l1 & w & l2 & -> & Hw1 & Hw2)|[IH1 IH2]]].
      * left. constructor; auto.
      * right. left. exists (Returned :: l1), w, l2. auto.
      * right. right. rewrite !total_cons. cbn [sleepy busy]. split; lia.
    + destruct IH as [IH|[(l1 & w & l2 & -> & Hw1 & Hw2)|[IH1 IH2]]].
      * right. right. rewrite !total_cons. cbn [sleepy busy]. split; [lia|].
        clear -IH. induction IH as [|x l Hx _ IHl]; [reflexivity|].
        subst x. rewrite total_cons. exact IHl.
      * right. left. exists (Asleep :: l1), w, l2. auto.
      * right. right. rewrite !total_cons. cbn [sleepy busy]. split; lia.
    + right. left. exists [], w, l. auto.
Qed.

Lemma runnable_steps s l1 w l2 :
  pool s = l1 ++ w :: l2 -> w <> Returned -> w <> Asleep ->
  exists s', step fs qy s (Ev (length l1) Normal) s'.
Proof.
  intros Hp Hr Ha. destruct w as [| |dir|dir [|fd rest]|]; try congruence.
  - destruct (wq_pop_pass (wq s)) as [r q'] eqn:E.
    eexists. eapply step_pop; eassumption.
  - eexists. eapply step_open; eassumption.
  - eexists. eapply step_done; eassumption.
  - destruct (classify qy dir fd) as [|full|full m] eqn:E.
    + eexists. eapply step_skip; eassumption.
    + destruct (wake_one_exists (l1 ++ Scanning dir rest :: l2)) as [pool' Hw].
      eexists. eapply step_push; eassumption.
    + eexists. eapply step_file; eassumption.
Qed.

(** In a state the pool can reach, either every thread has returned or some
    thread can take a step of its own. *)
Lemma progress s :
  inv s -> final s \/ exists i s', step fs qy s (Ev i Normal) s'.
Proof.
  intros Hi. destruct (pool_cases (pool s)) as [H|[(l1 & w & l2 & Hp & Hr & Ha)|[Hs Hb]]].
  - left. exact H.
  - right. exists (length l1). eapply runnable_steps; eassumption.
  - exfalso. pose proof (inv_sleep s Hi Hs). lia.
Qed.

End Protocol.

(** ** The reference walk does not depend on spare depth *)

Section Descent.

Variable fs : wstring -> list WIN32_FIND_DATAW.
Variable qy : Query.

Definition entry_cost (n : nat) (dir : wstring) (fd : WIN32_FIND_DATAW) : nat :=
  match classify qy dir fd with
  | Push full => S (cost fs qy n full)
  | _ => 1%nat
  end.

Definition entry_out (n : nat) (dir : wstring) (fd : WIN32_FIND_DATAW) : list wstring :=
  match classify qy dir fd with
  | Push full => walk fs qy n full
  | File full true => [full]
  | _ => []
  end.

Definition child_within (n : nat) (dir : wstring) (fd : WIN32_FIND_DATAW) : bool :=
  match classify qy dir fd with
  | Push full => within fs qy n full
  | _ => true
  end.

Lemma within_S n dir :
  within fs qy (S n) dir = forallb (child_within n dir) (listing fs dir).
Proof. reflexivity. Qed.

Lemma cost_S n dir :
  cost fs qy (S n) dir = (3 + total (entry_cost n dir) (listing fs dir))%nat.
Proof. reflexivity. Qed.

Lemma walk_S n dir :
  walk fs qy (S n) dir = flat_map (entry_out n dir) (listing fs dir).
Proof. reflexivity. Qed.

Lemma within_mono n dir :
  within fs qy n dir = true -> within fs qy (S n) dir = true.
Proof.
  revert dir. induction n as [|n IH]; intros dir H; [discriminate|].
  rewrite within_S in *. rewrite forallb_forall in *.
  intros fd Hfd. specialize (H fd Hfd). unfold child_within in *.
  destruct (classify qy dir fd); auto.
Qed.

Lemma cost_stable n dir :
  within fs qy n dir = true -> cost fs qy (S n) dir = cost fs qy n dir.
Proof.
  revert dir. induction n as [|n IH]; intros dir H; [discriminate|].
  rewrite (cost_S (S n)), (cost_S n). f_equal. unfold total. f_equal.
  apply map_ext_in. intros fd Hfd.
  rewrite within_S, forallb_forall in H. specialize (H fd Hfd).
  unfold child_within in H. unfold entry_cost.
  destruct (classify qy dir fd); auto.
Qed.

Lemma walk_stable n dir :
  within fs qy n dir = true -> walk fs qy (S n) dir = walk fs qy n dir.
Proof.
  revert dir. induction n as [|n IH]; intros dir H; [discriminate|].
  rewrite (walk_S (S n)), (walk_S n). rewrite !flat_map_concat_map. f_equal.
  apply map_ext_in. intros fd Hfd.
  rewrite within_S, forallb_forall in H. specialize (H fd Hfd).
  unfold child_within in H. unfold entry_out.
  destruct (classify qy dir fd); auto.
Qed.

Lemma within_child n dir fd full :
  within fs qy n dir = true -> In fd (listing fs dir) ->
  classify qy dir fd = Push full -> within fs qy n full = true.
Proof.
  intros H Hfd Hc. destruct n as [|n]; [discriminate|].
  rewrite within_S, forallb_forall in H. specialize (H fd Hfd).
  unfold child_within in H. rewrite Hc in H. apply within_mono. exact H.
Qed.

Lemma cost_unfold n dir :
  within fs qy n dir = true ->
  cost fs qy n dir = (3 + total (entry_cost n dir) (listing fs dir))%nat.
Proof.
  intros H. destruct n as [|n]; [discriminate|].
  rewrite cost_S. f_equal. unfold total. f_equal. apply map_ext_in.
  intros fd Hfd. rewrite within_S, forallb_forall in H. specialize (H fd Hfd).
  unfold child_within in H. unfold entry_cost.
  destruct (classify qy dir fd); auto. f_equal. symmetry. apply cost_stable. exact H.
Qed.

Lemma walk_unfold n dir :
  within fs qy n dir = true ->
  walk fs qy n dir = flat_map (entry_out n dir) (listing fs dir).
Proof.
  intros H. destruct n as [|n]; [discriminate|].
  rewrite walk_S, !flat_map_concat_map. f_equal. apply map_ext_in.
  intros fd Hfd. rewrite within_S, forallb_forall in H. specialize (H fd Hfd).
  unfold child_within in H. unfold entry_out.
  destruct (classify qy dir fd); auto. symmetry. apply walk_stable. exact H.
Qed.

Lemma cost_pos n dir : (3 <= cost fs qy n dir)%nat.
Proof. destruct n; simpl; lia. Qed.

End Descent.

(** ** The four outcomes of a pass through [wq_pop] *)

Lemma wq_pop_pass_cases q r q' :
  wq_pop_pass q = (r, q') ->
  (stop q <> 0 /\ r = PopStop /\ q' = q) \/
  (stop q = 0 /\ exists dir rest, items q = dir :: rest /\ r = PopDir dir /\
     q' = mkWorkQ rest (InterlockedIncrement (active_workers q)) (stop q)) \/
  (stop q = 0 /\ items q = [] /\ active_workers q = 0 /\ r = PopFinish /\
     q' = mkWorkQ [] (active_workers q) 1) \/
  (stop q = 0 /\ items q = [] /\ active_workers q <> 0 /\ r = PopSleep /\ q' = q).
Proof.
  unfold wq_pop_pass. destruct (stop q =? 0) eqn:Es; cbn [negb].
  - apply Z.eqb_eq in Es. destruct (items q) as [|dir rest] eqn:Ei.
    + destruct (active_workers q =? 0) eqn:Ea.
      * apply Z.eqb_eq in Ea. intros H; injection H as <- <-. right. right. left. auto.
      * apply Z.eqb_neq in Ea. intros H; injection H as <- <-. right. right. right. auto.
    + intros H; injection H as <- <-. right. left. split; [exact Es|].
      exists dir, rest. auto.
  - apply Z.eqb_neq in Es. intros H; injection H as <- <-. left. auto.
Qed.

Lemma Forall_mid {A} (P : A -> Prop) l1 x l2 :
  Forall P (l1 ++ x :: l2) <-> Forall P l1 /\ P x /\ Forall P l2.
Proof. rewrite Forall_app, Forall_cons_iff. tauto. Qed.

Lemma Forall_wake_all (P : worker -> Prop) l :
  P AtPop -> Forall P l -> Forall P (wake_all l).
Proof.
  intros Hp H. unfold wake_all. apply Forall_map.
  eapply Forall_impl; [|exact H]. intros w Hw. destruct w; auto.
Qed.

Lemma Forall_wake_one (P : worker -> Prop) l l' :
  P AtPop -> wake_one l l' -> Forall P l -> Forall P l'.
Proof.
  intros Hp Hw H. destruct Hw; [exact H|].
  apply Forall_mid in H. apply Forall_mid. tauto.
Qed.

(** ** Termination: a measure that every step lowers *)

Section Schedule.

Variable fs : wstring -> list WIN32_FIND_DATAW.
Variable qy : Query.
Variable k : nat.
Hypothesis k_int : Z.of_nat k <= INT_MAX.
Variable n : nat.

Definition worker_ok (w : worker) : Prop :=
  match w with
  | Holding dir => within fs qy n dir = true
  | Scanning dir fds => Forall (fun fd => child_within fs qy n dir fd = true) fds
  | _ => True
  end.

(** Every directory the system knows of lies in a subtree that closes within
    [n] levels. *)
Record tinv (s : Sys) : Prop := mkTinv {
  tinv_items : Forall (fun dir => within fs qy n dir = true) (items (wq s));
  tinv_pool : Forall worker_ok (pool s)
}.

Lemma worker_ok_repeat m : Forall worker_ok (repeat AtPop m).
Proof. induction m; simpl; constructor; simpl; auto. Qed.

Lemma tinv_init root : within fs qy n root = true -> tinv (init root k).
Proof.
  intros H. constructor; simpl.
  - constructor; [exact H | constructor].
  - apply worker_ok_repeat.
Qed.

Lemma listing_ok dir :
  within fs qy n dir = true ->
  Forall (fun fd => child_within fs qy n dir fd = true) (listing fs dir).
Proof.
  intros H. apply Forall_forall. intros fd Hfd. unfold child_within.
  destruct (classify qy dir fd) eqn:E; auto.
  eapply within_child; eassumption.
Qed.

Lemma step_tinv s ev s' : tinv s -> step fs qy s ev s' -> tinv s'.
Proof.
  intros [Hit Hpl] Hstep. destruct s as [q pl o f ds fsc]. cbn [wq pool] in *.
  inversion Hstep; subst; cbn [wq pool out found dirs_scanned files_scanned] in *;
    match goal with Hp : pl = _ |- _ => rewrite Hp in * end; clear Hstep;
    apply Forall_mid in Hpl; destruct Hpl as (Hl1 & Hw & Hl2); cbn [worker_ok] in Hw.
  - match goal with Hq : wq_pop_pass _ = _ |- _ =>
      destruct (wq_pop_pass_cases _ _ _ Hq)
        as [(_ & -> & ->)|[(_ & d & rest & Hi & -> & ->)|
            [(_ & Hi & _ & -> & ->)|(_ & Hi & _ & -> & ->)]]] end;
      pose proof Hit as Hit0;
      constructor; cbn [wq pool items pop_wakes after_pop];
      try rewrite Hi in Hit; try (inversion Hit; subst); auto;
      try apply Forall_wake_all; try apply Forall_mid; cbn [worker_ok]; auto.
  - constructor; cbn [wq pool]; auto. apply Forall_mid. cbn [worker_ok].
    auto using listing_ok.
  - inversion Hw; subst. constructor; cbn [wq pool]; auto. apply Forall_mid. auto.
  - inversion Hw as [|? ? Hfd Hrest]; subst.
    unfold child_within in Hfd.
    match goal with Hc : classify _ _ _ = Push _ |- _ => rewrite Hc in Hfd end.
    constructor; cbn [wq pool wq_push_owned items].
    + apply Forall_app. split; [exact Hit|]. constructor; [exact Hfd | constructor].
    + eapply Forall_wake_one; [| eassumption |]; [exact I|]. apply Forall_mid. auto.
  - inversion Hw; subst. constructor; cbn [wq pool]; auto. apply Forall_mid. auto.
  - inversion Hw; subst. constructor; cbn [wq pool]; auto. apply Forall_mid. auto.
  - constructor; cbn [wq pool wq_done_one items]; auto.
    apply Forall_wake_all; [exact I|]. apply Forall_mid. cbn [worker_ok]. auto.
  - constructor; cbn [wq pool]; auto. apply Forall_mid. cbn [worker_ok]. auto.
Qed.

Lemma run_tinv s tr s' : tinv s -> run fs qy s tr s' -> tinv s'.
Proof.
  intros Hi Hr. induction Hr as [|s ev s1 tr s2 Hstep _ IH]; [exact Hi|].
  apply IH. eapply step_tinv; eassumption.
Qed.

Definition worker_cost (w : worker) : nat :=
  match w with
  | Holding dir => (cost fs qy n dir - 1)%nat
  | Scanning dir fds => S (total (entry_cost fs qy n dir) fds)
  | _ => 0%nat
  end.

(** Steps still owed to the directories queued or being scanned. *)
Definition work (s : Sys) : nat :=
  (total (cost fs qy n) (items (wq s)) + total worker_cost (pool s))%nat.

Definition sched (w : worker) : nat :=
  match w with AtPop => 2 | Asleep => 1 | _ => 0 end%nat.

Definition measure (s : Sys) : nat :=
  ((k + 2) * work s + total sched (pool s))%nat.

Lemma sched_wake_all l :
  total sched (wake_all l) = (total sched l + total sleepy l)%nat.
Proof.
  induction l as [|w l IH]; [reflexivity|].
  cbn [wake_all map]. fold (wake_all l). rewrite !total_cons, IH.
  destruct w; simpl; lia.
Qed.

Lemma worker_cost_wake_up w : worker_cost (wake_up w) = worker_cost w.
Proof. destruct w; reflexivity. Qed.

Lemma sched_wake_one l l' :
  wake_one l l' -> (total sched l' <= total sched l + 1)%nat.
Proof. destruct 1; [lia|]. rewrite !total_app, !total_cons. simpl. lia. Qed.

Lemma measure_drop (w w' p p' : nat) :
  (w' + 1 <= w)%nat -> (p' <= p + k + 1)%nat ->
  ((k + 2) * w' + p' < (k + 2) * w + p)%nat.
Proof. intros H1 H2. nia. Qed.

Lemma measure_same (w w' p p' : nat) :
  (w' <= w)%nat -> (p' < p)%nat ->
  ((k + 2) * w' + p' < (k + 2) * w + p)%nat.
Proof. intros H1 H2. nia. Qed.

Ltac cost_norm :=
  repeat first
    [ rewrite total_app | rewrite total_cons | rewrite total_nil
    | rewrite (total_wake_all busy) by apply busy_wake_up
    | rewrite (total_wake_all worker_cost) by apply worker_cost_wake_up
    | rewrite sched_wake_all
    | rewrite sleepy_wake_all | rewrite length_wake_all | rewrite length_app ];
  cbn [busy sleepy sched worker_cost length after_pop].

Lemma entry_cost_of dir fd a :
  classify qy dir fd = a ->
  entry_cost fs qy n dir fd =
  match a with Push full => S (cost fs qy n full) | _ => 1%nat end.
Proof. intros <-. reflexivity. Qed.

Ltac entry_step :=
  cost_norm;
  match goal with
  | Hc : classify _ _ _ = _ |- _ => rewrite (entry_cost_of _ _ _ Hc)
  end.

Lemma step_measure s ev s' :
  inv k s -> tinv s -> step fs qy s ev s' -> ev_kind ev <> Spurious ->
  (measure s' < measure s)%nat.
Proof.
  intros [Hlen Hact _ _ Hsleep _] [Hit Hpl] Hstep Hk.
  destruct s as [q pl o f ds fsc]. unfold measure, work. cbn [wq pool] in *.
  revert Hlen Hact Hsleep.
  inversion Hstep; subst; cbn [wq pool out found dirs_scanned files_scanned ev_kind] in *;
    try congruence;
    match goal with Hp : pl = _ |- _ => rewrite Hp in * end; clear Hstep;
    apply Forall_mid in Hpl; destruct Hpl as (Hl1 & Hw & Hl2); cbn [worker_ok] in Hw;
    pose proof (total_le_length sleepy l1 sleepy_le) as Hs1;
    pose proof (total_le_length sleepy l2 sleepy_le) as Hs2;
    cost_norm; intros Hlen Hact Hsleep.
  - match goal with Hq : wq_pop_pass _ = _ |- _ =>
      destruct (wq_pop_pass_cases _ _ _ Hq)
        as [(_ & -> & ->)|[(_ & d & rest & Hi & -> & ->)|
            [(_ & Hi & Ha & -> & ->)|(_ & Hi & _ & -> & ->)]]] end;
      cbn [wq pool items pop_wakes after_pop]; rewrite ?Hi; cost_norm.
    + apply measure_same; lia.
    + pose proof (cost_pos fs qy n d). apply measure_drop; lia.
    + apply measure_same; lia.
    + apply measure_same; lia.
  - rewrite (cost_unfold fs qy n dir Hw). apply measure_drop; lia.
  - entry_step. apply measure_drop; lia.
  - match goal with Hw1 : wake_one _ _ |- _ =>
      pose proof (sched_wake_one _ _ Hw1) as Hso;
      pose proof (total_wake_one worker_cost _ _ eq_refl Hw1) as Hco end.
    cbn [wq_push_owned items]. rewrite Hco. revert Hso. cost_norm. intros Hso.
    entry_step. apply measure_drop; lia.
  - entry_step. apply measure_drop; lia.
  - entry_step. apply measure_drop; lia.
  - cbn [wq_done_one items]. cost_norm. apply measure_drop; lia.
Qed.

(** A run without spurious wake-ups from [s] has at most [measure s] steps. *)
Lemma run_bounded s tr s' :
  inv k s -> tinv s -> run fs qy s tr s' -> no_spurious tr ->
  (length tr + measure s' <= measure s)%nat.
Proof.
  intros Hi Ht Hr. revert Hi Ht.
  induction Hr as [|s ev s1 tr s2 Hstep _ IH]; intros Hi Ht Hns; [simpl; lia|].
  inversion Hns as [|? ? Hev Hns']; subst.
  pose proof (step_measure _ _ _ Hi Ht Hstep Hev) as Hlt.
  pose proof (step_inv fs qy k k_int _ _ _ Hi Hstep) as Hi1.
  pose proof (step_tinv _ _ _ Ht Hstep) as Ht1.
  specialize (IH Hi1 Ht1 Hns'). cbn [length]. lia.
Qed.

(** ** Conservation of the lines still to be reported *)

Definition wstring_eq_dec : forall a b : wstring, {a = b} + {a <> b} :=
  list_eq_dec Z.eq_dec.

(** How often the line [p] occurs in a list of lines. *)
Definition occ (p : wstring) (l : list wstring) : nat := count_occ wstring_eq_dec l p.

Lemma occ_app p l1 l2 : occ p (l1 ++ l2) = (occ p l1 + occ p l2)%nat.
Proof. apply count_occ_app. Qed.

Lemma occ_flat_map {A} p (f : A -> list wstring) l :
  occ p (flat_map f l) = total (fun x => occ p (f x)) l.
Proof.
  induction l as [|x l IH]; [reflexivity|].
  cbn [flat_map]. rewrite occ_app, total_cons, IH. reflexivity.
Qed.

Definition worker_pending (p : wstring) (w : worker) : nat :=
  match w with
  | Holding dir => occ p (walk fs qy n dir)
  | Scanning dir fds => total (fun fd => occ p (entry_out fs qy n dir fd)) fds
  | _ => 0%nat
  end.

(** Occurrences of [p] that the queued and the held directories still owe. *)
Definition pending (p : wstring) (s : Sys) : nat :=
  (total (fun dir => occ p (walk fs qy n dir)) (items (wq s)) +
   total (worker_pending p) (pool s))%nat.

Lemma worker_pending_wake_up p w : worker_pending p (wake_up w) = worker_pending p w.
Proof. destruct w; reflexivity. Qed.

Lemma entry_out_of dir fd a :
  classify qy dir fd = a ->
  entry_out fs qy n dir fd =
  match a with
  | Push full => walk fs qy n full
  | File full true => [full]
  | _ => []
  end.
Proof. intros <-. reflexivity. Qed.

Ltac pend_norm p :=
  repeat first
    [ rewrite total_app | rewrite total_cons | rewrite total_nil
    | rewrite (total_wake_all (worker_pending p)) by apply worker_pending_wake_up
    | rewrite occ_app ];
  cbn [worker_pending after_pop].

Lemma step_output p s ev s' :
  tinv s -> step fs qy s ev s' -> ev_kind ev <> AllocFail ->
  (occ p (out s') + pending p s' = occ p (out s) + pending p s)%nat.
Proof.
  intros [Hit Hpl] Hstep Hk.
  destruct s as [q pl o f ds fsc]. unfold pending. cbn [wq pool out] in *.
  inversion Hstep; subst; cbn [wq pool out found dirs_scanned files_scanned ev_kind] in *;
    try congruence;
    match goal with Hp : pl = _ |- _ => rewrite Hp in * end; clear Hstep;
    apply Forall_mid in Hpl; destruct Hpl as (Hl1 & Hw & Hl2); cbn [worker_ok] in Hw;
    pend_norm p.
  - match goal with Hq : wq_pop_pass _ = _ |- _ =>
      destruct (wq_pop_pass_cases _ _ _ Hq)
        as [(_ & -> & ->)|[(_ & d & rest & Hi & -> & ->)|
            [(_ & Hi & Ha & -> & ->)|(_ & Hi & _ & -> & ->)]]] end;
      cbn [wq pool items pop_wakes after_pop]; rewrite ?Hi; repeat pend_norm p; lia.
  - rewrite (walk_unfold fs qy n dir Hw), occ_flat_map. lia.
  - repeat pend_norm p.
    match goal with Hc : classify _ _ _ = _ |- _ => rewrite (entry_out_of _ _ _ Hc) end.
    cbn [occ count_occ]. lia.
  - match goal with Hw1 : wake_one _ _ |- _ =>
      pose proof (total_wake_one (worker_pending p) _ _ eq_refl Hw1) as Hco end.
    cbn [wq_push_owned items]. rewrite Hco. repeat pend_norm p.
    match goal with Hc : classify _ _ _ = _ |- _ => rewrite (entry_out_of _ _ _ Hc) end.
    lia.
  - repeat pend_norm p.
    match goal with Hc : classify _ _ _ = _ |- _ => rewrite (entry_out_of _ _ _ Hc) end.
    destruct matched; repeat pend_norm p; cbn [occ count_occ]; lia.
  - cbn [wq_done_one items]. repeat pend_norm p. lia.
  - repeat pend_norm p. lia.
Qed.

Lemma run_output p s tr s' :
  tinv s -> run fs qy s tr s' -> no_alloc_failure tr ->
  (occ p (out s') + pending p s' = occ p (out s) + pending p s)%nat.
Proof.
  intros Ht Hr. revert Ht.
  induction Hr as [|s ev s1 tr s2 Hstep _ IH]; intros Ht Hna; [reflexivity|].
  inversion Hna as [|? ? Hev Hna']; subst.
  rewrite (IH (step_tinv _ _ _ Ht Hstep) Hna').
  eapply step_output; eassumption.
Qed.

(** ** Complete runs *)

Lemma final_gone l : Forall (fun w => w = Returned) l -> total gone l = length l.
Proof.
  induction 1 as [|w l Hw _ IH]; [reflexivity|].
  subst w. rewrite total_cons, IH. reflexivity.
Qed.

Lemma final_pending p l :
  Forall (fun w => w = Returned) l -> total (worker_pending p) l = 0%nat.
Proof.
  induction 1 as [|w l Hw _ IH]; [reflexivity|].
  subst w. rewrite total_cons, IH. reflexivity.
Qed.

Lemma total_repeat_AtPop (f : worker -> nat) m :
  f AtPop = 0%nat -> total f (repeat AtPop m) = 0%nat.
Proof.
  intros Hf. induction m as [|m IH]; [reflexivity|].
  cbn [repeat]. rewrite total_cons, Hf, IH. reflexivity.
Qed.

(** When every thread has returned, the lines on stdout are those of the
    reference walk, each as often. *)
Lemma complete_output root tr s :
  (1 <= k)%nat -> within fs qy n root = true ->
  run fs qy (init root k) tr s -> no_alloc_failure tr -> final s ->
  Permutation (out s) (walk fs qy n root).
Proof.
  intros Hk Hroot Hr Hna Hfin.
  pose proof (run_inv fs qy k k_int _ _ _ (inv_init k root) Hr) as Hi.
  apply (Permutation_count_occ wstring_eq_dec). intros p.
  pose proof (run_output p _ _ _ (tinv_init root Hroot) Hr Hna) as Ho.
  fold (occ p (out s)). fold (occ p (walk fs qy n root)).
  assert (Hstop : stop (wq s) <> 0).
  { apply (inv_gone k s Hi). rewrite (final_gone _ Hfin), (inv_len k s Hi). lia. }
  destruct (inv_stopped k s Hi Hstop) as (Hitems & _ & _).
  unfold pending in Ho. rewrite Hitems, (final_pending p _ Hfin) in Ho.
  cbn [init wq pool out wq_push_owned wq_init items app] in Ho.
  rewrite (total_repeat_AtPop (worker_pending p) k eq_refl) in Ho.
  rewrite !total_cons, !total_nil in Ho. cbn [occ count_occ] in Ho.
  change (count_occ wstring_eq_dec (walk fs qy n root) p)
    with (occ p (walk fs qy n root)) in Ho.
  lia.
Qed.

(** From every state the pool can reach, some schedule lets every thread
    return. *)
Lemma exists_complete_run s :
  inv k s -> tinv s ->
  exists tr s', run fs qy s tr s' /\ final s' /\
                no_alloc_failure tr /\ no_spurious tr.
Proof.
  remember (measure s) as m eqn:Hm. revert s Hm.
  induction m as [m IH] using lt_wf_ind. intros s Hm Hi Ht.
  destruct (progress fs qy k s Hi) as [Hfin|(i & s1 & Hstep)].
  - exists [], s. repeat split; [constructor | exact Hfin | constructor | constructor].
  - assert (Hlt : (measure s1 < m)%nat).
    { rewrite Hm. eapply step_measure; try eassumption. discriminate. }
    destruct (IH _ Hlt s1 eq_refl (step_inv fs qy k k_int _ _ _ Hi Hstep)
                (step_tinv _ _ _ Ht Hstep)) as (tr & s2 & Hr & Hf & Hna & Hns).
    exists (Ev i Normal :: tr), s2. repeat split.
    + econstructor; eassumption.
    + exact Hf.
    + constructor; [discriminate | exact Hna].
    + constructor; [discriminate | exact Hns].
Qed.

End Schedule.

(** ** What a step of a given thread can be *)

Lemma mid_unique {A} (l1 l1' l2 l2' : list A) x y :
  l1 ++ x :: l2 = l1' ++ y :: l2' -> length l1 = length l1' ->
  l1 = l1' /\ x = y /\ l2 = l2'.
Proof.
  revert l1'. induction l1 as [|a l1 IH]; intros [|a' l1'] H Hl; try discriminate.
  - injection H as -> ->. auto.
  - injection H as -> H. injection Hl as Hl.
    destruct (IH _ H Hl) as (-> & -> & ->). auto.
Qed.

Section Threads.

Variable fs : wstring -> list WIN32_FIND_DATAW.
Variable qy : Query.

Ltac same_thread :=
  match goal with
  | H1 : pool ?s = ?a ++ ?x :: ?b, H2 : pool ?s = ?c ++ ?y :: ?d,
    Hl : length ?c = length ?a |- _ =>
      rewrite H1 in H2; symmetry in Hl;
      destruct (mid_unique _ _ _ _ _ _ H2 Hl) as (? & ? & ?);
      subst; try discriminate
  end.

(** A thread at the top of [wq_pop] does what the pass says. *)
Lemma step_at_pop s l1 l2 kd s' :
  pool s = l1 ++ AtPop :: l2 ->
  step fs qy s (Ev (length l1) kd) s' ->
  kd = Normal /\
  exists r q', wq_pop_pass (wq s) = (r, q') /\ wq s' = q' /\
               pool s' = pop_wakes r (l1 ++ after_pop r :: l2) /\
               out s' = out s.
Proof.
  intros Hp Hstep. inversion Hstep; subst; same_thread.
  split; [reflexivity|]. eexists _, _. split; [eassumption|]. auto.
Qed.

(** A sleeping thread does nothing by itself: it can only be woken, and then
    stands at the top of the loop of [wq_pop] again. *)
Lemma step_asleep s l1 l2 kd s' :
  pool s = l1 ++ Asleep :: l2 ->
  step fs qy s (Ev (length l1) kd) s' ->
  kd = Spurious /\ wq s' = wq s /\ pool s' = l1 ++ AtPop :: l2.
Proof.
  intros Hp Hstep. inversion Hstep; subst; same_thread. auto.
Qed.

(** The step on an entry that [classify] skips changes nothing but the
    scanning position. *)
Lemma step_skipped s l1 l2 dir fd rest kd s' :
  pool s = l1 ++ Scanning dir (fd :: rest) :: l2 ->
  classify qy dir fd = Skip ->
  step fs qy s (Ev (length l1) kd) s' ->
  wq s' = wq s /\ pool s' = l1 ++ Scanning dir rest :: l2 /\ out s' = out s.
Proof.
  intros Hp Hc Hstep. inversion Hstep; subst; same_thread;
    match goal with H : Scanning _ _ = Scanning _ _ |- _ => injection H as <- <- <- end;
    try congruence; auto.
Qed.

End Threads.

(** ** The stop flag *)

Section StopFlag.

Variable fs : wstring -> list WIN32_FIND_DATAW.
Variable qy : Query.
Variable k : nat.

Lemma idle_pool l :
  total busy l = 0%nat -> total sleepy l = 0%nat ->
  Forall (fun w => w = AtPop \/ w = Returned) l.
Proof.
  induction l as [|w l IH]; [constructor|].
  rewrite !total_cons. intros Hb Hs.
  constructor; [destruct w; simpl in *; auto; lia | apply IH; lia].
Qed.

(** The flag goes up only in a state with an empty queue and no thread that
    owns a directory. *)
Lemma stop_raised s ev s' :
  inv k s -> step fs qy s ev s' ->
  stop (wq s) = 0 -> stop (wq s') <> 0 ->
  items (wq s) = [] /\ active_workers (wq s) = 0 /\ total busy (pool s) = 0%nat.
Proof.
  intros Hi Hstep H0 H1.
  inversion Hstep; subst; cbn [wq wq_push_owned wq_done_one stop] in H1;
    try congruence.
  match goal with Hq : wq_pop_pass _ = _ |- _ =>
    destruct (wq_pop_pass_cases _ _ _ Hq)
      as [(? & -> & ->)|[(_ & d & rest & Hit & -> & ->)|
          [(_ & Hit & Ha & -> & ->)|(_ & Hit & _ & -> & ->)]]] end;
    cbn [stop] in H1; try congruence.
  repeat split; auto. pose proof (inv_active k s Hi). lia.
Qed.

(** Once the flag is up the queue never changes again. *)
Lemma stop_kept s ev s' :
  inv k s -> step fs qy s ev s' -> stop (wq s) <> 0 -> wq s' = wq s.
Proof.
  intros Hi Hstep H1. destruct (inv_stopped k s Hi H1) as (_ & Hb & Hs).
  inversion Hstep; subst; cbn [wq];
    match goal with Hp : pool _ = _ |- _ => rewrite Hp in Hb, Hs end;
    rewrite ?total_app, ?total_cons in Hb, Hs; cbn [busy sleepy] in Hb, Hs;
    try lia; try reflexivity.
  match goal with Hq : wq_pop_pass _ = _ |- _ =>
    destruct (wq_pop_pass_cases _ _ _ Hq)
      as [(? & -> & ->)|[(? & d & rest & Hit & -> & ->)|
          [(? & Hit & Ha & -> & ->)|(? & Hit & _ & -> & ->)]]] end;
    congruence.
Qed.

End StopFlag.

(** * The driver [wmain] *)

(** [_wtoi]: blanks, an optional sign, then decimal digits; 0 when no digit
    follows; the value is kept within [int]. *)
Definition is_wspace (c : wchar) : bool := ((9 <=? c) && (c <=? 13)) || (c =? 32).
Definition is_digit (c : wchar) : bool := (48 <=? c) && (c <=? 57).

Fixpoint skip_wspace (s : wstring) : wstring :=
  match s with
  | [] => []
  | c :: s' => if is_wspace c then skip_wspace s' else s
  end.

Fixpoint wtoi_digits (s : wstring) (acc : Z) : Z :=
  match s with
  | [] => acc
  | c :: s' => if is_digit c then wtoi_digits s' (acc * 10 + (c - 48)) else acc
  end.

Definition clamp_int (z : Z) : Z := Z.max INT_MIN (Z.min INT_MAX z).

Definition wtoi (s : wstring) : Z :=
  match skip_wspace s with
  | [] => 0
  | c :: r =>
      if c =? 45 then clamp_int (- wtoi_digits r 0)
      else if c =? 43 then clamp_int (wtoi_digits r 0)
      else clamp_int (wtoi_digits (c :: r) 0)
  end.

Definition is_sign (c : wchar) : bool := (c =? 45) || (c =? 43).

(** A text that is a decimal number: an optional sign and then digits
    only, at least one. *)
Definition is_number (v : wstring) : bool :=
  match v with
  | [] => false
  | c :: r => if is_sign c then nonempty r && forallb is_digit r
              else forallb is_digit v
  end.

(** A text that does not begin with a number: after the white space and
    an optional sign no digit follows. *)
Definition no_leading_number (v : wstring) : bool :=
  match skip_wspace v with
  | [] => true
  | c :: r =>
      if is_sign c then match r with [] => true | d :: _ => negb (is_digit d) end
      else negb (is_digit c)
  end.

Record Options := mkOptions {
  opt_extcsv : wstring;
  opt_full : Z;
  opt_threads : Z
}.

(** The option loop of [wmain]; [inr a] is the branch that reports
    [Unknown option: a].  [-e] and [-t] are recognised only when another
    argument follows. *)
Fixpoint parse_options (args : list wstring) (o : Options) : Options + wstring :=
  match args with
  | [] => inl o
  | a :: rest =>
      match rest with
      | v :: rest' =>
          if wcscmp_eq a (W "-e")
          then parse_options rest' (mkOptions v (opt_full o) (opt_threads o))
          else if wcscmp_eq a (W "-f")
          then parse_options rest (mkOptions (opt_extcsv o) 1 (opt_threads o))
          else if wcscmp_eq a (W "-t")
          then parse_options rest' (mkOptions (opt_extcsv o) (opt_full o) (wtoi v))
          else inr a
      | [] =>
          if wcscmp_eq a (W "-f")
          then parse_options rest (mkOptions (opt_extcsv o) 1 (opt_threads o))
          else inr a
      end
  end.

(** What the host decides: the processor count of [GetSystemInfo]; whether
    each of the three allocations before the launch succeeds, in program
    order the copy of the root path ([wcsdup_heap]), the queue node for it
    (the [malloc] of [wq_push_owned]) and the array of thread handles; and
    how many [CreateThread] calls succeed before the first failure. *)
Record Host := mkHost {
  dwNumberOfProcessors : Z;
  root_copy_ok : bool;
  root_node_ok : bool;
  handles_ok : bool;
  spawn_limit : nat
}.

(** The block [if (threads <= 0) ...]. *)
Definition pick_threads (threads : Z) (h : Host) : Z :=
  if threads <=? 0 then
    let t := wrap_long (dwNumberOfProcessors h) in
    if t <? 1 then 1 else t
  else threads.

Inductive message :=
| UsageText
| UnknownOption (arg : wstring)
| OutOfMemory.

Inductive startup :=
| Exit (code : Z) (err : list message)
| Launch (qy : Query) (root : wstring) (threads : Z) (created : nat).

Definition no_options : Options := mkOptions [] 0 0.

Definition wmain_startup (argv : list wstring) (h : Host) : startup :=
  match argv with
  | _ :: root :: ndl :: opts =>
      match parse_options opts no_options with
      | inr a => Exit 2 [UnknownOption a; UsageText]
      | inl o =>
          let threads := pick_threads (opt_threads o) h in
          if negb (root_copy_ok h) then Exit 1 [OutOfMemory]
          else if negb (handles_ok h) then Exit 1 [OutOfMemory]
          else Launch (mkQuery ndl (opt_extcsv o) (opt_full o)) root threads
                      (Nat.min (Z.to_nat threads) (spawn_limit h))
      end
  | _ => Exit 2 [UsageText]
  end.

(** The state in which the [created] threads start.  [wq_push_owned]
    returns nothing: when its node cannot be allocated it frees the copy of
    the root and drops it, [wmain] goes on, and the threads start on an empty
    queue. *)
Definition launch_state (h : Host) (root : wstring) (created : nat) : Sys :=
  mkSys (if root_node_ok h then wq_push_owned wq_init root else wq_init)
        (repeat AtPop created) [] 0 0 0.

(** [wmain] returns [code] with [lines] on stdout: either from one of the
    early [return]s, or with 0 once every created thread has returned. *)
Inductive wmain_returns (fs : wstring -> list WIN32_FIND_DATAW)
    (argv : list wstring) (h : Host) : Z -> list wstring -> Prop :=
| returns_early code err :
    wmain_startup argv h = Exit code err ->
    wmain_returns fs argv h code []
| returns_joined qy root threads created tr s :
    wmain_startup argv h = Launch qy root threads created ->
    run fs qy (launch_state h root created) tr s ->
    final s ->
    wmain_returns fs argv h 0 (out s).


Lemma wtoi_digits_none s acc :
  (forall c, In c s -> is_digit c = false) -> wtoi_digits s acc = acc.
Proof.
  destruct s as [|c s]; [reflexivity|]. intros H. cbn [wtoi_digits].
  rewrite (H c (or_introl eq_refl)). reflexivity.
Qed.

Lemma skip_wspace_incl s c : In c (skip_wspace s) -> In c s.
Proof.
  induction s as [|x s IH]; [auto|]. cbn [skip_wspace].
  destruct (is_wspace x); [intros H; right; auto | auto].
Qed.

Lemma wtoi_no_digit v : (forall c, In c v -> is_digit c = false) -> wtoi v = 0.
Proof.
  intros H. unfold wtoi.
  assert (H' : forall c, In c (skip_wspace v) -> is_digit c = false)
    by (intros c Hc; apply H, skip_wspace_incl, Hc).
  destruct (skip_wspace v) as [|c r]; [reflexivity|].
  assert (Hr : wtoi_digits r 0 = 0)
    by (apply wtoi_digits_none; intros x Hx; apply H'; right; exact Hx).
  assert (Hcr : wtoi_digits (c :: r) 0 = 0)
    by (apply wtoi_digits_none; exact H').
  rewrite Hr, Hcr. destruct (c =? 45); [reflexivity|].
  destruct (c =? 43); reflexivity.
Qed.

Lemma clamp_int_range z : INT_MIN <= clamp_int z <= INT_MAX.
Proof. unfold clamp_int, INT_MIN, INT_MAX. lia. Qed.

Lemma wtoi_range v : INT_MIN <= wtoi v <= INT_MAX.
Proof.
  unfold wtoi. destruct (skip_wspace v) as [|c r].
  - unfold INT_MIN, INT_MAX. lia.
  - destruct (c =? 45); [apply clamp_int_range|].
    destruct (c =? 43); apply clamp_int_range.
Qed.

Lemma wrap_long_range z : INT_MIN <= wrap_long z <= INT_MAX.
Proof.
  unfold wrap_long, INT_MIN, INT_MAX.
  pose proof (Z.mod_pos_bound (z + 2147483648) 4294967296 ltac:(lia)). lia.
Qed.

Lemma pick_threads_range t h :
  t <= INT_MAX -> 1 <= pick_threads t h <= INT_MAX.
Proof.
  intros Ht. unfold pick_threads. destruct (t <=? 0) eqn:E.
  - pose proof (wrap_long_range (dwNumberOfProcessors h)) as Hr.
    destruct (wrap_long (dwNumberOfProcessors h) <? 1) eqn:E1.
    + unfold INT_MAX. lia.
    + apply Z.ltb_ge in E1. lia.
  - apply Z.leb_gt in E. lia.
Qed.

Lemma parse_options_two a v rest o :
  parse_options (a :: v :: rest) o =
  if wcscmp_eq a (W "-e")
  then parse_options rest (mkOptions v (opt_full o) (opt_threads o))
  else if wcscmp_eq a (W "-f")
  then parse_options (v :: rest) (mkOptions (opt_extcsv o) 1 (opt_threads o))
  else if wcscmp_eq a (W "-t")
  then parse_options rest (mkOptions (opt_extcsv o) (opt_full o) (wtoi v))
  else inr a.
Proof. reflexivity. Qed.

Lemma parse_options_one a o :
  parse_options [a] o =
  if wcscmp_eq a (W "-f") then inl (mkOptions (opt_extcsv o) 1 (opt_threads o))
  else inr a.
Proof. reflexivity. Qed.

Lemma parse_options_threads args o o' :
  opt_threads o <= INT_MAX -> parse_options args o = inl o' ->
  opt_threads o' <= INT_MAX.
Proof.
  remember (length args) as m eqn:Hm. revert args o Hm.
  induction m as [m IH] using lt_wf_ind. intros args o Hm Ho.
  destruct args as [|a [|v rest']].
  - intros H; injection H as <-. exact Ho.
  - rewrite parse_options_one. destruct (wcscmp_eq a (W "-f")); [|discriminate].
    intros H; injection H as <-. exact Ho.
  - rewrite parse_options_two. destruct (wcscmp_eq a (W "-e")).
    { apply (IH (length rest')); [subst m; simpl; lia | reflexivity | exact Ho]. }
    destruct (wcscmp_eq a (W "-f")).
    { apply (IH (length (v :: rest'))); [subst m; simpl; lia | reflexivity | exact Ho]. }
    destruct (wcscmp_eq a (W "-t")); [|discriminate].
    apply (IH (length rest')); [subst m; simpl; lia | reflexivity |].
    cbn [opt_threads]. apply wtoi_range.
Qed.

Lemma wcscmp_eq_true a b : wcscmp_eq a b = true -> a = b.
Proof.
  unfold wcscmp_eq. destruct (list_eq_dec Z.eq_dec a b); [auto | discriminate].
Qed.

Lemma parse_options_app pre suf o o' :
  parse_options pre o = inl o' ->
  parse_options (pre ++ suf) o = parse_options suf o'.
Proof.
  remember (length pre) as m eqn:Hm. revert pre o Hm.
  induction m as [m IH] using lt_wf_ind. intros pre o Hm.
  destruct pre as [|a [|v rest]].
  - intros H; injection H as <-. reflexivity.
  - rewrite parse_options_one.
    destruct (wcscmp_eq a (W "-f")) eqn:Ef; [|discriminate].
    intros H; injection H as <-. apply wcscmp_eq_true in Ef. subst a.
    destruct suf as [|x suf]; [reflexivity|].
    cbn [app]. rewrite parse_options_two. reflexivity.
  - rewrite parse_options_two. cbn [app]. rewrite parse_options_two.
    destruct (wcscmp_eq a (W "-e")).
    { apply (IH (length rest)); [subst m; simpl; lia | reflexivity]. }
    destruct (wcscmp_eq a (W "-f")).
    { apply (IH (length (v :: rest)) ltac:(subst m; simpl; lia) (v :: rest));
        reflexivity. }
    destruct (wcscmp_eq a (W "-t")); [|discriminate].
    apply (IH (length rest)); [subst m; simpl; lia | reflexivity].
Qed.

Lemma parse_options_retarget args o o' t :
  ~ In (W "-t") args -> parse_options args o = inl o' ->
  opt_threads o' = opt_threads o /\
  parse_options args (mkOptions (opt_extcsv o) (opt_full o) t) =
    inl (mkOptions (opt_extcsv o') (opt_full o') t).
Proof.
  remember (length args) as m eqn:Hm. revert args o Hm.
  induction m as [m IH] using lt_wf_ind. intros args o Hm Hno.
  destruct args as [|a [|v rest]].
  - intros H; injection H as <-. auto.
  - rewrite !parse_options_one. destruct (wcscmp_eq a (W "-f")); [|discriminate].
    intros H; injection H as <-. auto.
  - rewrite !parse_options_two. destruct (wcscmp_eq a (W "-e")).
    { intros H.
      destruct (IH (length rest) ltac:(subst m; simpl; lia) rest _ eq_refl
                  ltac:(intros Hin; apply Hno; right; right; exact Hin) H) as [H1 H2].
      auto. }
    destruct (wcscmp_eq a (W "-f")).
    { intros H.
      destruct (IH (length (v :: rest)) ltac:(subst m; simpl; lia) (v :: rest) _ eq_refl
                  ltac:(intros Hin; apply Hno; right; exact Hin) H) as [H1 H2].
      auto. }
    destruct (wcscmp_eq a (W "-t")) eqn:Et; [|discriminate].
    apply wcscmp_eq_true in Et. exfalso. apply Hno. left. exact Et.
Qed.

Lemma wtoi_no_leading_number v : no_leading_number v = true -> wtoi v = 0.
Proof.
  unfold no_leading_number, wtoi, is_sign.
  destruct (skip_wspace v) as [|c r]; [reflexivity|].
  destruct (c =? 45) eqn:E45; cbn [orb].
  - destruct r as [|d r]; [reflexivity|]. intros H. apply negb_true_iff in H.
    cbn [wtoi_digits]. rewrite H. reflexivity.
  - destruct (c =? 43) eqn:E43.
    + destruct r as [|d r]; [reflexivity|]. intros H. apply negb_true_iff in H.
      cbn [wtoi_digits]. rewrite H. reflexivity.
    + intros H. apply negb_true_iff in H. cbn [wtoi_digits]. rewrite H.
      reflexivity.
Qed.

Lemma pick_threads_default t h :
  t <= 0 -> pick_threads t h = Z.max 1 (wrap_long (dwNumberOfProcessors h)).
Proof.
  intros Ht. unfold pick_threads.
  destruct (t <=? 0) eqn:E; [|apply Z.leb_gt in E; lia].
  destruct (wrap_long (dwNumberOfProcessors h) <? 1) eqn:E1.
  - apply Z.ltb_lt in E1. lia.
  - apply Z.ltb_ge in E1. lia.
Qed.

Lemma pick_threads_given t h : 0 < t -> pick_threads t h = t.
Proof.
  intros Ht. unfold pick_threads.
  destruct (t <=? 0) eqn:E; [apply Z.leb_le in E; lia | reflexivity].
Qed.

Lemma inv_launch_state k h root : inv k (launch_state h root k).
Proof.
  unfold launch_state. destruct (root_node_ok h); [exact (inv_init k root)|].
  destruct (inv_init k root) as [H1 H2 H3 H4 H5 H6].
  constructor; [exact H1 | exact H2 | exact H3 | | exact H5 | exact H6].
  intros H. destruct (H4 H) as (Hi & _). discriminate Hi.
Qed.

Lemma tinv_launch_state fs qy n h root k :
  within fs qy n root = true -> tinv fs qy n (launch_state h root k).
Proof.
  intros Hw. unfold launch_state. destruct (root_node_ok h).
  - exact (tinv_init fs qy k n root Hw).
  - constructor; [constructor | apply worker_ok_repeat].
Qed.

(** * Which files a traversal is expected to report *)

(** [dir], a separator where one is needed, then [name]. *)
Definition path_join (dir name : wstring) : wstring :=
  dir ++ (if needs_slash dir then [ch_backslash] else []) ++ name.

(** The text and its NUL fit in a working buffer of the worker. *)
Definition fits_buffer (p : wstring) : bool := (length p + 1 <=? PATH_CAP)%nat.

Definition unbounded (p : wstring) : bool := true.

Section Wanted.

Variable ok : wstring -> bool.
Variable fs : wstring -> list WIN32_FIND_DATAW.
Variable qy : Query.
Variable root : wstring.

(** The directories reached from [root] through real sub-directories,
    reparse points excluded; [ok] tells which patterns and paths can be
    formed. *)
Inductive reachable : wstring -> Prop :=
| reach_root : reachable root
| reach_sub dir fd :
    reachable dir ->
    ok (path_join dir [ch_star]) = true ->
    In fd (fs (path_join dir [ch_star])) ->
    is_dot_or_dotdot (cFileName fd) = false ->
    has_attr fd FILE_ATTRIBUTE_DIRECTORY = true ->
    has_attr fd FILE_ATTRIBUTE_REPARSE_POINT = false ->
    ok (path_join dir (cFileName fd)) = true ->
    reachable (path_join dir (cFileName fd)).

(** [p] is the path of a file in a reachable directory that passes the
    extension filter and the substring filter. *)
Definition wanted (p : wstring) : Prop :=
  exists dir fd,
    reachable dir /\
    ok (path_join dir [ch_star]) = true /\
    In fd (fs (path_join dir [ch_star])) /\
    is_dot_or_dotdot (cFileName fd) = false /\
    has_attr fd FILE_ATTRIBUTE_DIRECTORY = false /\
    ok (path_join dir (cFileName fd)) = true /\
    p = path_join dir (cFileName fd) /\
    ext_allowed (cFileName fd) (extcsv qy) = true /\
    name_matches qy p = true.

End Wanted.

Lemma join_path_fits dir name :
  join_path PATH_CAP dir name =
  if fits_buffer (path_join dir name) then Some (path_join dir name) else None.
Proof.
  unfold join_path, fits_buffer, path_join, wcslen.
  rewrite !length_app.
  replace (length (if needs_slash dir then [ch_backslash] else []))
    with (if needs_slash dir then 1%nat else 0%nat) by (destruct (needs_slash dir); reflexivity).
  destruct (PATH_CAP <? _)%nat eqn:E1; destruct (_ <=? PATH_CAP)%nat eqn:E2;
    try reflexivity.
  - apply Nat.ltb_lt in E1. apply Nat.leb_le in E2. lia.
  - apply Nat.ltb_ge in E1. apply Nat.leb_gt in E2. lia.
Qed.

Lemma make_glob_fits dir :
  make_glob PATH_CAP dir =
  if fits_buffer (path_join dir [ch_star]) then Some (path_join dir [ch_star]) else None.
Proof.
  unfold make_glob, fits_buffer, path_join, wcslen.
  rewrite !length_app.
  replace (length (if needs_slash dir then [ch_backslash] else []))
    with (if needs_slash dir then 1%nat else 0%nat) by (destruct (needs_slash dir); reflexivity).
  cbn [length].
  destruct (PATH_CAP <? _)%nat eqn:E1; destruct (_ <=? PATH_CAP)%nat eqn:E2;
    try reflexivity.
  - apply Nat.ltb_lt in E1. apply Nat.leb_le in E2. lia.
  - apply Nat.ltb_ge in E1. apply Nat.leb_gt in E2. lia.
Qed.

Section ClassifyFacts.

Variable qy : Query.

Lemma classify_push dir fd full :
  classify qy dir fd = Push full <->
  is_dot_or_dotdot (cFileName fd) = false /\
  fits_buffer (path_join dir (cFileName fd)) = true /\
  full = path_join dir (cFileName fd) /\
  has_attr fd FILE_ATTRIBUTE_DIRECTORY = true /\
  has_attr fd FILE_ATTRIBUTE_REPARSE_POINT = false.
Proof.
  unfold classify. rewrite join_path_fits.
  destruct (is_dot_or_dotdot (cFileName fd)); [split; [discriminate | intros (? & _); discriminate]|].
  destruct (fits_buffer (path_join dir (cFileName fd)));
    [|split; [discriminate | intros (_ & ? & _); discriminate]].
  destruct (has_attr fd FILE_ATTRIBUTE_DIRECTORY);
    [|split; [discriminate | intros (_ & _ & _ & ? & _); discriminate]].
  destruct (has_attr fd FILE_ATTRIBUTE_REPARSE_POINT);
    [split; [discriminate | intros (_ & _ & _ & _ & ?); discriminate]|].
  split.
  - intros H; injection H as <-. auto.
  - intros (_ & _ & -> & _). reflexivity.
Qed.

Lemma classify_file dir fd full :
  classify qy dir fd = File full true <->
  is_dot_or_dotdot (cFileName fd) = false /\
  fits_buffer (path_join dir (cFileName fd)) = true /\
  full = path_join dir (cFileName fd) /\
  has_attr fd FILE_ATTRIBUTE_DIRECTORY = false /\
  ext_allowed (cFileName fd) (extcsv qy) = true /\
  name_matches qy full = true.
Proof.
  unfold classify. rewrite join_path_fits.
  destruct (is_dot_or_dotdot (cFileName fd)); [split; [discriminate | intros (? & _); discriminate]|].
  destruct (fits_buffer (path_join dir (cFileName fd)));
    [|split; [discriminate | intros (_ & ? & _); discriminate]].
  destruct (has_attr fd FILE_ATTRIBUTE_DIRECTORY).
  { destruct (has_attr fd FILE_ATTRIBUTE_REPARSE_POINT);
      (split; [discriminate | intros (_ & _ & _ & ? & _); discriminate]). }
  split.
  - intros H; injection H as <- H. apply andb_true_iff in H. tauto.
  - intros (_ & _ & -> & _ & H1 & H2). rewrite H1, H2. reflexivity.
Qed.

End ClassifyFacts.

Section WalkWanted.

Variable fs : wstring -> list WIN32_FIND_DATAW.
Variable qy : Query.

Lemma in_listing dir fd :
  In fd (listing fs dir) <->
  fits_buffer (path_join dir [ch_star]) = true /\ In fd (fs (path_join dir [ch_star])).
Proof.
  unfold listing. rewrite make_glob_fits.
  destruct (fits_buffer (path_join dir [ch_star])); simpl; [tauto|].
  split; [tauto | intros [H _]; discriminate].
Qed.





End WalkWanted.

(** ** Each path is listed once *)

(** Entry names as a file system delivers them: not empty, without
    separators, and pairwise different within one directory. *)
Definition sane_names (fs : wstring -> list WIN32_FIND_DATAW) : Prop :=
  forall glob,
    NoDup (map cFileName (fs glob)) /\
    Forall (fun fd => cFileName fd <> [] /\
                      forall c, In c (cFileName fd) -> is_slash c = false) (fs glob).

Fixpoint first_segment (s : wstring) : wstring :=
  match s with
  | [] => []
  | c :: s' => if is_slash c then [] else c :: first_segment s'
  end.

(** The first path segment of [p] below [dir]. *)
Definition segment_after (dir p : wstring) : wstring :=
  first_segment (skipn (length dir + (if needs_slash dir then 1 else 0)) p).

Lemma NoDup_flat_map_key {A B K} (f : A -> list B) (key : B -> K) (tag : A -> K) l :
  NoDup (map tag l) ->
  (forall x, In x l -> NoDup (f x)) ->
  (forall x b, In x l -> In b (f x) -> key b = tag x) ->
  NoDup (flat_map f l).
Proof.
  induction l as [|x l IH]; intros Hnd Hf Hk; [constructor|].
  cbn [map] in Hnd. inversion Hnd as [|? ? Hx Hnd']; subst.
  cbn [flat_map]. apply NoDup_app.
  - apply Hf. left. reflexivity.
  - apply IH; [exact Hnd'| |].
    + intros y Hy. apply Hf. right. exact Hy.
    + intros y b Hy Hb. apply Hk; [right; exact Hy | exact Hb].
  - intros b Hb Hb'. apply in_flat_map in Hb'. destruct Hb' as (y & Hy & Hby).
    apply Hx. apply in_map_iff. exists y. split; [|exact Hy].
    rewrite <- (Hk y b (or_intror Hy) Hby). apply Hk; [left; reflexivity | exact Hb].
Qed.

Lemma first_segment_name nm :
  (forall c, In c nm -> is_slash c = false) -> first_segment nm = nm.
Proof.
  induction nm as [|c nm IH]; intros H; [reflexivity|].
  cbn [first_segment]. rewrite (H c (or_introl eq_refl)). f_equal.
  apply IH. intros c' Hc'. apply H. right. exact Hc'.
Qed.

Lemma first_segment_head nm rest :
  (forall c, In c nm -> is_slash c = false) ->
  first_segment (nm ++ ch_backslash :: rest) = nm.
Proof.
  induction nm as [|c nm IH]; intros H; [reflexivity|].
  cbn [app first_segment]. rewrite (H c (or_introl eq_refl)). f_equal.
  apply IH. intros c' Hc'. apply H. right. exact Hc'.
Qed.

Lemma segment_after_join dir rest :
  segment_after dir (path_join dir rest) = first_segment rest.
Proof.
  unfold segment_after, path_join. rewrite app_assoc.
  replace (length dir + (if needs_slash dir then 1 else 0))%nat
    with (length (dir ++ (if needs_slash dir then [ch_backslash] else []))).
  - rewrite skipn_app, skipn_all, Nat.sub_diag. reflexivity.
  - rewrite length_app. destruct (needs_slash dir); reflexivity.
Qed.

Lemma needs_slash_join dir nm :
  nm <> [] -> (forall c, In c nm -> is_slash c = false) ->
  needs_slash (path_join dir nm) = true.
Proof.
  intros Hne Hnm. destruct nm as [|c nm] using rev_ind; [congruence|].
  unfold path_join. rewrite !app_assoc. unfold needs_slash.
  rewrite last_last.
  destruct (((dir ++ _) ++ nm) ++ [c]) eqn:E.
  - apply app_eq_nil in E. destruct E as [_ E]. discriminate.
  - rewrite (Hnm c); [reflexivity|]. apply in_or_app. right. left. reflexivity.
Qed.

Section ListedOnce.

Variable fs : wstring -> list WIN32_FIND_DATAW.
Variable qy : Query.
Hypothesis names : sane_names fs.

Lemma listing_sane dir :
  NoDup (map cFileName (listing fs dir)) /\
  Forall (fun fd => cFileName fd <> [] /\
                    forall c, In c (cFileName fd) -> is_slash c = false)
         (listing fs dir).
Proof.
  unfold listing. destruct (make_glob PATH_CAP dir); [apply names|].
  split; constructor.
Qed.

Lemma walk_prefix n dir p :
  In p (walk fs qy n dir) -> exists rest, p = path_join dir rest.
Proof.
  revert dir p. induction n as [|n IH]; intros dir p Hin; [destruct Hin|].
  rewrite walk_S in Hin. apply in_flat_map in Hin. destruct Hin as (fd & Hfd & Hp).
  unfold entry_out in Hp.
  destruct (classify qy dir fd) as [|full|full [|]] eqn:Hc; try destruct Hp.
  - apply classify_push in Hc. destruct Hc as (_ & _ & -> & _).
    destruct (IH _ _ Hp) as (rest & ->).
    exists (cFileName fd ++
            (if needs_slash (path_join dir (cFileName fd)) then [ch_backslash] else [])
            ++ rest).
    unfold path_join. rewrite <- !app_assoc. reflexivity.
  - subst p. apply classify_file in Hc. destruct Hc as (_ & _ & -> & _).
    exists (cFileName fd). reflexivity.
  - destruct H.
Qed.

Lemma entry_out_segment n dir fd p :
  In fd (listing fs dir) -> In p (entry_out fs qy n dir fd) ->
  segment_after dir p = cFileName fd.
Proof.
  intros Hfd Hp.
  destruct (listing_sane dir) as [_ Hs]. rewrite Forall_forall in Hs.
  destruct (Hs fd Hfd) as [Hne Hnm].
  unfold entry_out in Hp.
  destruct (classify qy dir fd) as [|full|full [|]] eqn:Hc; try destruct Hp.
  - apply classify_push in Hc. destruct Hc as (_ & _ & -> & _).
    destruct (walk_prefix _ _ _ Hp) as (rest & ->).
    unfold path_join at 1. rewrite (needs_slash_join dir _ Hne Hnm).
    unfold path_join. rewrite <- !app_assoc.
    change (dir ++ (if needs_slash dir then [ch_backslash] else []) ++
            cFileName fd ++ [ch_backslash] ++ rest)
      with (path_join dir (cFileName fd ++ ch_backslash :: rest)).
    rewrite segment_after_join. apply first_segment_head. exact Hnm.
  - subst p. apply classify_file in Hc. destruct Hc as (_ & _ & -> & _).
    rewrite segment_after_join. apply first_segment_name. exact Hnm.
  - destruct H.
Qed.

(** With sane entry names the reference walk lists no path twice. *)
Lemma walk_NoDup n dir : NoDup (walk fs qy n dir).
Proof.
  revert dir. induction n as [|n IH]; intros dir; [constructor|].
  rewrite walk_S.
  apply (NoDup_flat_map_key _ (segment_after dir) cFileName).
  - apply listing_sane.
  - intros fd _. unfold entry_out.
    destruct (classify qy dir fd) as [|full|full [|]].
    + constructor.
    + apply IH.
    + constructor; [intros [] | constructor].
    + constructor.
  - intros fd p Hfd Hp. eapply entry_out_segment; eassumption.
Qed.

End ListedOnce.

(** ** Only reachable directories are ever queued or scanned *)

Section OnlyReachable.

Variable fs : wstring -> list WIN32_FIND_DATAW.
Variable qy : Query.
Variable root : wstring.

Definition worker_reach (w : worker) : Prop :=
  match w with
  | Holding dir => reachable fits_buffer fs root dir
  | Scanning dir fds =>
      reachable fits_buffer fs root dir /\ incl fds (listing fs dir)
  | _ => True
  end.

Record rinv (s : Sys) : Prop := mkRinv {
  rinv_items : Forall (reachable fits_buffer fs root) (items (wq s));
  rinv_pool : Forall worker_reach (pool s)
}.

Lemma rinv_init k : rinv (init root k).
Proof.
  constructor; simpl.
  - constructor; [apply reach_root | constructor].
  - induction k; simpl; constructor; simpl; auto.
Qed.

Lemma step_rinv s ev s' : rinv s -> step fs qy s ev s' -> rinv s'.
Proof.
  intros [Hit Hpl] Hstep. destruct s as [q pl o f ds fsc]. cbn [wq pool] in *.
  inversion Hstep; subst; cbn [wq pool out found dirs_scanned files_scanned] in *;
    match goal with Hp : pl = _ |- _ => rewrite Hp in * end; clear Hstep;
    apply Forall_mid in Hpl; destruct Hpl as (Hl1 & Hw & Hl2); cbn [worker_reach] in Hw.
  - match goal with Hq : wq_pop_pass _ = _ |- _ =>
      destruct (wq_pop_pass_cases _ _ _ Hq)
        as [(_ & -> & ->)|[(_ & d & rest & Hi & -> & ->)|
            [(_ & Hi & _ & -> & ->)|(_ & Hi & _ & -> & ->)]]] end;
      pose proof Hit as Hit0;
      constructor; cbn [wq pool items pop_wakes after_pop];
      try rewrite Hi in Hit; try (inversion Hit; subst); auto;
      try apply Forall_wake_all; try apply Forall_mid; cbn [worker_reach]; auto.
  - constructor; cbn [wq pool]; auto. apply Forall_mid. cbn [worker_reach].
    repeat split; auto. apply incl_refl.
  - destruct Hw as [Hr Hin]. constructor; cbn [wq pool]; auto.
    apply Forall_mid. cbn [worker_reach]. repeat split; auto.
    eapply incl_tran; [apply incl_tl, incl_refl | exact Hin].
  - destruct Hw as [Hr Hin].
    assert (Hfd : In fd (listing fs dir)) by (apply Hin; left; reflexivity).
    apply in_listing in Hfd. destruct Hfd as [Hg Hfd].
    match goal with Hc : classify _ _ _ = Push _ |- _ =>
      apply classify_push in Hc; destruct Hc as (Hd1 & Hd2 & Hd3 & Hd4 & Hd5) end.
    subst full.
    constructor; cbn [wq pool wq_push_owned items].
    + apply Forall_app. split; [exact Hit|].
      constructor; [apply reach_sub; assumption | constructor].
    + eapply Forall_wake_one; [| eassumption |]; [exact I|]. apply Forall_mid.
      cbn [worker_reach]. repeat split; auto.
      eapply incl_tran; [apply incl_tl, incl_refl | exact Hin].
  - destruct Hw as [Hr Hin]. constructor; cbn [wq pool]; auto.
    apply Forall_mid. cbn [worker_reach]. repeat split; auto.
    eapply incl_tran; [apply incl_tl, incl_refl | exact Hin].
  - destruct Hw as [Hr Hin]. constructor; cbn [wq pool]; auto.
    apply Forall_mid. cbn [worker_reach]. repeat split; auto.
    eapply incl_tran; [apply incl_tl, incl_refl | exact Hin].
  - constructor; cbn [wq pool wq_done_one items]; auto.
    apply Forall_wake_all; [exact I|]. apply Forall_mid. cbn [worker_reach]. auto.
  - constructor; cbn [wq pool]; auto. apply Forall_mid. cbn [worker_reach]. auto.
Qed.

Lemma run_rinv s tr s' : rinv s -> run fs qy s tr s' -> rinv s'.
Proof.
  intros Hi Hr. induction Hr as [|s ev s1 tr s2 Hstep _ IH]; [exact Hi|].
  apply IH. eapply step_rinv; eassumption.
Qed.

(** A directory is known to the system: queued, or held by a thread. *)
Definition known (s : Sys) (dir : wstring) : Prop :=
  In dir (items (wq s)) \/ In (Holding dir) (pool s) \/
  exists fds, In (Scanning dir fds) (pool s).

Lemma known_reachable s dir :
  rinv s -> known s dir -> reachable fits_buffer fs root dir.
Proof.
  intros [Hit Hpl] [H|[H|(fds & H)]].
  - rewrite Forall_forall in Hit. auto.
  - rewrite Forall_forall in Hpl. apply (Hpl _ H).
  - rewrite Forall_forall in Hpl. apply (Hpl _ H).
Qed.

(** No reachable directory other than the root is a reparse point or lies
    behind one: each link of the chain is a real directory entry. *)
Lemma reachable_real dir :
  reachable fits_buffer fs root dir ->
  dir = root \/
  exists parent fd,
    reachable fits_buffer fs root parent /\
    In fd (listing fs parent) /\
    dir = path_join parent (cFileName fd) /\
    has_attr fd FILE_ATTRIBUTE_DIRECTORY = true /\
    has_attr fd FILE_ATTRIBUTE_REPARSE_POINT = false.
Proof.
  intros H. destruct H as [|parent fd Hr Hg Hfd H1 H2 H3 H4]; [left; reflexivity|].
  right. exists parent, fd. repeat split; auto. apply in_listing. auto.
Qed.

End OnlyReachable.

(** * Sample file systems *)

(** [root] holds [a.c], [b.txt], the directory [sub] (with one more [a.c])
    and the junction [loop], which leads back to [root]: every pattern that
    does not end in [\sub\*] lists the root again. *)
Definition sample_dots : list WIN32_FIND_DATAW :=
  [mkFind 16 (W "."); mkFind 16 (W "..")].

Definition sample_root : list WIN32_FIND_DATAW :=
  sample_dots ++
  [mkFind 32 (W "a.c"); mkFind 32 (W "b.txt"); mkFind 16 (W "sub");
   mkFind 1040 (W "loop")].

Definition sample_sub : list WIN32_FIND_DATAW :=
  sample_dots ++ [mkFind 32 (W "a.c")].

Definition ends_with (suffix s : wstring) : bool :=
  wcscmp_eq (skipn (length s - length suffix) s) suffix.

Definition sample_fs (glob : wstring) : list WIN32_FIND_DATAW :=
  if ends_with (W "\sub\*") glob then sample_sub else sample_root.

Definition sample_query : Query := mkQuery (W "a") [] 0.

Example sample_walk :
  walk sample_fs sample_query 2 (W "root") = [W "root\a.c"; W "root\sub\a.c"].
Proof. vm_compute. reflexivity. Qed.

Example sample_within : within sample_fs sample_query 2 (W "root") = true.
Proof. vm_compute. reflexivity. Qed.

Example sample_cycle :
  listing sample_fs (W "root\loop") = listing sample_fs (W "root") /\
  listing sample_fs (W "root\loop\loop") = listing sample_fs (W "root").
Proof. split; vm_compute; reflexivity. Qed.






(** * Properties of the traversal engine *)


Lemma sample_sane : sane_names sample_fs.
Proof.
  intros glob. unfold sample_fs. destruct (ends_with (W "\sub\*") glob).
  - split.
    + repeat constructor; simpl; intuition discriminate.
    + repeat constructor; try discriminate;
        intros c Hc; simpl in Hc; intuition (subst; reflexivity).
  - split.
    + repeat constructor; simpl; intuition discriminate.
    + repeat constructor; try discriminate;
        intros c Hc; simpl in Hc; intuition (subst; reflexivity).
Qed.



(** C2. One pass of [wq_pop] under the mutex is a four-way case split:
    stop flag set: return the stop signal; else queue not empty: remove the
    head and increment the active count in the same step; else active count
    zero: set the stop flag, wake every sleeper, return the stop signal; else
    sleep, and on waking start again from the first case. *)
Theorem wq_pop_four_cases (q : WorkQ) :
  (stop q <> 0 -> wq_pop_pass q = (PopStop, q)) /\
  (stop q = 0 -> forall dir rest, items q = dir :: rest ->
     wq_pop_pass q =
       (PopDir dir,
        mkWorkQ rest (InterlockedIncrement (active_workers q)) (stop q)) /\
     (0 <= active_workers q < INT_MAX ->
      InterlockedIncrement (active_workers q) = active_workers q + 1)) /\
  (stop q = 0 -> items q = [] -> active_workers q = 0 ->
     wq_pop_pass q = (PopFinish, mkWorkQ [] 0 1)) /\
  (stop q = 0 -> items q = [] -> active_workers q <> 0 ->
     wq_pop_pass q = (PopSleep, q)) /\
  after_pop PopStop = Returned /\
  (forall dir, after_pop (PopDir dir) = Holding dir) /\
  after_pop PopFinish = Returned /\
  after_pop PopSleep = Asleep /\
  (forall l, pop_wakes PopFinish l = wake_all l /\ ~ In Asleep (wake_all l)) /\
  (forall fs qy s l1 l2 kd s',
     wq s = q -> pool s = l1 ++ AtPop :: l2 ->
     step fs qy s (Ev (length l1) kd) s' ->
     exists r, wq_pop_pass q = (r, wq s') /\
               pool s' = pop_wakes r (l1 ++ after_pop r :: l2)) /\
  (forall fs qy s l1 l2 kd s',
     wq s = q -> pool s = l1 ++ Asleep :: l2 ->
     step fs qy s (Ev (length l1) kd) s' ->
     kd = Spurious /\ wq s' = q /\ pool s' = l1 ++ AtPop :: l2).
Proof.
  split; [|split; [|split; [|split; [|split; [|split; [|split; [|split;
    [|split; [|split]]]]]]]]].
  - intros Hs. unfold wq_pop_pass. apply Z.eqb_neq in Hs. rewrite Hs. reflexivity.
  - intros Hs dir rest Hi. split.
    + unfold wq_pop_pass. rewrite Hs, Hi. reflexivity.
    + intros Ha. unfold InterlockedIncrement. apply wrap_long_small.
      unfold INT_MIN, INT_MAX in *. lia.
  - intros Hs Hi Ha. unfold wq_pop_pass. rewrite Hs, Hi, Ha. reflexivity.
  - intros Hs Hi Ha. unfold wq_pop_pass. rewrite Hs, Hi.
    apply Z.eqb_neq in Ha. rewrite Ha. reflexivity.
  - reflexivity.
  - reflexivity.
  - reflexivity.
  - reflexivity.
  - intros l. split; [reflexivity|]. rewrite sleepy_In, sleepy_wake_all. lia.
  - intros fs qy s l1 l2 kd s' Hq Hp Hstep. subst q.
    destruct (step_at_pop fs qy s l1 l2 kd s' Hp Hstep)
      as (_ & r & q' & Hq & <- & Hp' & _).
    exists r. auto.
  - intros fs qy s l1 l2 kd s' Hq Hp Hstep. subst q.
    exact (step_asleep fs qy s l1 l2 kd s' Hp Hstep).
Qed.

Lemma wq_pop_four_cases_witness :
  wq_pop_pass (mkWorkQ [W "root"; W "root\sub"] 1 0) =
    (PopDir (W "root"), mkWorkQ [W "root\sub"] 2 0) /\
  wq_pop_pass (mkWorkQ [] 0 0) = (PopFinish, mkWorkQ [] 0 1) /\
  wq_pop_pass (mkWorkQ [] 3 0) = (PopSleep, mkWorkQ [] 3 0) /\
  wq_pop_pass (mkWorkQ [] 0 1) = (PopStop, mkWorkQ [] 0 1).
Proof.
  split; [|split; [|split]].
  - destruct (wq_pop_four_cases (mkWorkQ [W "root"; W "root\sub"] 1 0))
      as (_ & H & _).
    destruct (H eq_refl (W "root") [W "root\sub"] eq_refl) as [H1 _]. exact H1.
  - destruct (wq_pop_four_cases (mkWorkQ [] 0 0)) as (_ & _ & H & _).
    exact (H eq_refl eq_refl eq_refl).
  - destruct (wq_pop_four_cases (mkWorkQ [] 3 0)) as (_ & _ & _ & H & _).
    apply H; [reflexivity | reflexivity | discriminate].
  - destruct (wq_pop_four_cases (mkWorkQ [] 0 1)) as (H & _).
    apply H. discriminate.
Defined.

(** C3. In every state the system reaches: the stop flag goes up only in a
    step taken with the queue empty, the active count zero and no thread
    owning a directory; once up it stays up and the queue is never touched
    again (nothing is pushed); by then no thread sleeps, every thread either
    has returned or is about to see the flag, and a thread returns only
    after the flag is up.  A sleeping thread always coexists with a thread
    that owns a directory and will wake it, so either every thread has
    returned or some thread can step (no deadlock); and over a tree of
    finite depth every run without spurious wake-ups is bounded in length and
    can be completed. *)
Theorem stop_flag_protocol
    (fs : wstring -> list WIN32_FIND_DATAW) (qy : Query) (root : wstring)
    (k : nat) (tr : list event) (s : Sys) :
  Z.of_nat k <= INT_MAX ->
  run fs qy (init root k) tr s ->
  (forall ev s', step fs qy s ev s' ->
     stop (wq s) = 0 -> stop (wq s') <> 0 ->
     items (wq s) = [] /\ active_workers (wq s) = 0 /\
     total busy (pool s) = 0%nat) /\
  (forall ev s', step fs qy s ev s' -> stop (wq s) <> 0 -> wq s' = wq s) /\
  (stop (wq s) <> 0 ->
     items (wq s) = [] /\ active_workers (wq s) = 0 /\ ~ In Asleep (pool s) /\
     Forall (fun w => w = AtPop \/ w = Returned) (pool s)) /\
  (In Returned (pool s) -> stop (wq s) <> 0) /\
  (In Asleep (pool s) -> (0 < total busy (pool s))%nat) /\
  (final s \/ exists i s', step fs qy s (Ev i Normal) s') /\
  (forall n, within fs qy n root = true ->
     (no_spurious tr -> (length tr <= measure fs qy k n (init root k))%nat) /\
     exists tr' s', run fs qy s tr' s' /\ final s').
Proof.
  intros Hk Hr.
  pose proof (run_inv fs qy k Hk _ _ _ (inv_init k root) Hr) as Hi.
  split; [|split; [|split; [|split; [|split; [|split]]]]].
  - intros ev s' Hstep. eapply stop_raised; eassumption.
  - intros ev s' Hstep. eapply stop_kept; eassumption.
  - intros Hs. destruct (inv_stopped k s Hi Hs) as (Hit & Hb & Hsl).
    split; [exact Hit|]. split; [rewrite (inv_active k s Hi), Hb; reflexivity|].
    split; [rewrite sleepy_In; lia | apply idle_pool; assumption].
  - intros Hin. apply (inv_gone k s Hi).
    apply in_split in Hin. destruct Hin as (l1 & l2 & ->).
    rewrite total_app, total_cons. simpl. lia.
  - intros Hin. apply (inv_sleep k s Hi). apply sleepy_In. exact Hin.
  - apply (progress fs qy k s Hi).
  - intros n Hw.
    pose proof (tinv_init fs qy k n root Hw) as Ht0.
    split.
    + intros Hns.
      pose proof (run_bounded fs qy k Hk n _ _ _ (inv_init k root) Ht0 Hr Hns).
      lia.
    + destruct (exists_complete_run fs qy k Hk n s Hi
                  (run_tinv fs qy n _ _ _ Ht0 Hr))
        as (tr' & s' & Hr' & Hf & _).
      exists tr', s'. auto.
Qed.

Lemma stop_flag_protocol_witness :
  let s1 := mkSys (mkWorkQ [] 1 0) [Holding (W "root"); AtPop] [] 0 0 0 in
  run sample_fs sample_query (init (W "root") 2) [Ev 0 Normal] s1 /\
  (final s1 \/ exists i s', step sample_fs sample_query s1 (Ev i Normal) s').
Proof.
  intros s1.
  assert (Hr : run sample_fs sample_query (init (W "root") 2) [Ev 0 Normal] s1).
  { eapply run_cons; [|apply run_nil].
    exact (step_pop sample_fs sample_query (init (W "root") 2) [] [AtPop]
             (PopDir (W "root")) (mkWorkQ [] 1 0) eq_refl eq_refl). }
  split; [exact Hr|].
  assert (Hk : Z.of_nat 2 <= INT_MAX) by (unfold INT_MAX; lia).
  destruct (stop_flag_protocol sample_fs sample_query (W "root") 2
              [Ev 0 Normal] s1 Hk Hr) as (_ & _ & _ & _ & _ & H & _).
  exact H.
Defined.

(** C4. An entry that is a directory and carries the reparse-point flag is
    skipped: classifying it changes neither the queue nor stdout, every
    directory ever queued or scanned is the root or a real (not reparse)
    directory entry of a directory reached the same way, and the traversal
    is bounded and can always be completed as soon as the tree of real
    directories has finite depth, whatever the links lead to. *)
Theorem reparse_points_not_followed
    (fs : wstring -> list WIN32_FIND_DATAW) (qy : Query) :
  (forall dir fd,
     has_attr fd FILE_ATTRIBUTE_DIRECTORY = true ->
     has_attr fd FILE_ATTRIBUTE_REPARSE_POINT = true ->
     classify qy dir fd = Skip) /\
  (forall s l1 l2 dir fd rest kd s',
     has_attr fd FILE_ATTRIBUTE_DIRECTORY = true ->
     has_attr fd FILE_ATTRIBUTE_REPARSE_POINT = true ->
     pool s = l1 ++ Scanning dir (fd :: rest) :: l2 ->
     step fs qy s (Ev (length l1) kd) s' ->
     wq s' = wq s /\ pool s' = l1 ++ Scanning dir rest :: l2 /\ out s' = out s) /\
  (forall root k tr s dir,
     run fs qy (init root k) tr s -> known s dir ->
     reachable fits_buffer fs root dir /\
     (dir = root \/
      exists parent fd,
        reachable fits_buffer fs root parent /\
        In fd (listing fs parent) /\
        dir = path_join parent (cFileName fd) /\
        has_attr fd FILE_ATTRIBUTE_DIRECTORY = true /\
        has_attr fd FILE_ATTRIBUTE_REPARSE_POINT = false)) /\
  (forall root k n tr s,
     Z.of_nat k <= INT_MAX -> within fs qy n root = true ->
     run fs qy (init root k) tr s ->
     (no_spurious tr -> (length tr <= measure fs qy k n (init root k))%nat) /\
     exists tr' s', run fs qy s tr' s' /\ final s').
Proof.
  assert (Hskip : forall dir fd,
             has_attr fd FILE_ATTRIBUTE_DIRECTORY = true ->
             has_attr fd FILE_ATTRIBUTE_REPARSE_POINT = true ->
             classify qy dir fd = Skip).
  { intros dir fd Hd Hp. unfold classify. rewrite Hd, Hp.
    destruct (is_dot_or_dotdot (cFileName fd)); [reflexivity|].
    destruct (join_path PATH_CAP dir (cFileName fd)); reflexivity. }
  split; [exact Hskip|]. split; [|split].
  - intros s l1 l2 dir fd rest kd s' Hd Hp Hpool Hstep.
    eapply step_skipped; try eassumption. apply Hskip; assumption.
  - intros root k tr s dir Hr Hkn.
    pose proof (run_rinv fs qy root _ _ _ (rinv_init fs root k) Hr) as Hri.
    pose proof (known_reachable fs root s dir Hri Hkn) as Hreach.
    split; [exact Hreach | apply reachable_real; exact Hreach].
  - intros root k n tr s Hk Hw Hr.
    pose proof (tinv_init fs qy k n root Hw) as Ht0.
    pose proof (run_inv fs qy k Hk _ _ _ (inv_init k root) Hr) as Hi.
    split.
    + intros Hns.
      pose proof (run_bounded fs qy k Hk n _ _ _ (inv_init k root) Ht0 Hr Hns).
      lia.
    + destruct (exists_complete_run fs qy k Hk n s Hi
                  (run_tinv fs qy n _ _ _ Ht0 Hr))
        as (tr' & s' & Hr' & Hf & _).
      exists tr', s'. auto.
Qed.

Lemma reparse_points_not_followed_witness :
  classify sample_query (W "root") (mkFind 1040 (W "loop")) = Skip /\
  listing sample_fs (W "root\loop") = sample_root /\
  exists tr' s',
    run sample_fs sample_query (init (W "root") 3) tr' s' /\ final s'.
Proof.
  destruct (reparse_points_not_followed sample_fs sample_query)
    as (Hskip & _ & _ & Hterm).
  split; [|split].
  - apply Hskip; reflexivity.
  - vm_compute. reflexivity.
  - assert (Hk : Z.of_nat 3 <= INT_MAX) by (unfold INT_MAX; lia).
    destruct (Hterm (W "root") 3%nat 2%nat [] (init (W "root") 3) Hk
                ltac:(vm_compute; reflexivity)
                (run_nil sample_fs sample_query _)) as [_ H].
    exact H.
Defined.

(** * Properties of the driver *)

Lemma wmain_startup_args prog root ndl opts h :
  wmain_startup (prog :: root :: ndl :: opts) h =
  match parse_options opts no_options with
  | inr a => Exit 2 [UnknownOption a; UsageText]
  | inl o =>
      if negb (root_copy_ok h) then Exit 1 [OutOfMemory]
      else if negb (handles_ok h) then Exit 1 [OutOfMemory]
      else Launch (mkQuery ndl (opt_extcsv o) (opt_full o)) root
                  (pick_threads (opt_threads o) h)
                  (Nat.min (Z.to_nat (pick_threads (opt_threads o) h)) (spawn_limit h))
  end.
Proof. reflexivity. Qed.

Lemma wmain_startup_codes argv h code err :
  wmain_startup argv h = Exit code err -> code = 1 \/ code = 2.
Proof.
  destruct argv as [|prog [|root [|ndl opts]]]; try (intros H; injection H as <- _; auto).
  rewrite wmain_startup_args. destruct (parse_options opts no_options).
  - destruct (negb (root_copy_ok h)); [intros H; injection H as <- _; auto|].
    destruct (negb (handles_ok h)); [intros H; injection H as <- _; auto | discriminate].
  - intros H; injection H as <- _; auto.
Qed.

(** C8, as the program has it.  The exit code is 2, with the usage text on
    stderr and before any traversal, when fewer than two positional arguments
    are given or an option is not recognised; 1 when the copy of the root
    path or the array of thread handles cannot be allocated; and 0 whenever
    the root was queued and the workers were started and have all returned,
    whatever they found.  Over a tree of finite depth such a run with code 0
    exists.  Nothing is stated for a run whose root could not be queued. *)
Theorem exit_codes
    (fs : wstring -> list WIN32_FIND_DATAW) (argv : list wstring) (h : Host) :
  ((length argv < 3)%nat -> wmain_startup argv h = Exit 2 [UsageText]) /\
  (forall a rest o,
     wcscmp_eq a (W "-e") = false -> wcscmp_eq a (W "-f") = false ->
     wcscmp_eq a (W "-t") = false -> parse_options (a :: rest) o = inr a) /\
  (forall prog root ndl opts a,
     argv = prog :: root :: ndl :: opts ->
     parse_options opts no_options = inr a ->
     wmain_startup argv h = Exit 2 [UnknownOption a; UsageText]) /\
  (forall prog root ndl opts o,
     argv = prog :: root :: ndl :: opts ->
     parse_options opts no_options = inl o ->
     root_copy_ok h && handles_ok h = false ->
     wmain_startup argv h = Exit 1 [OutOfMemory]) /\
  (forall prog root ndl opts o,
     argv = prog :: root :: ndl :: opts ->
     parse_options opts no_options = inl o ->
     root_copy_ok h = true -> root_node_ok h = true -> handles_ok h = true ->
     exists threads created,
       wmain_startup argv h =
         Launch (mkQuery ndl (opt_extcsv o) (opt_full o)) root threads created /\
       (forall code lines, wmain_returns fs argv h code lines -> code = 0) /\
       (forall n,
          within fs (mkQuery ndl (opt_extcsv o) (opt_full o)) n root = true ->
          exists lines, wmain_returns fs argv h 0 lines)) /\
  (root_node_ok h = true ->
   forall code lines,
     wmain_returns fs argv h code lines ->
     (code = 0 \/ code = 1 \/ code = 2) /\
     (code <> 0 -> lines = [] /\ exists err, wmain_startup argv h = Exit code err) /\
     (code = 2 -> exists err, wmain_startup argv h = Exit 2 err /\ In UsageText err) /\
     (code = 1 -> root_copy_ok h && handles_ok h = false)).
Proof.
  split; [|split; [|split; [|split; [|split]]]].
  - intros Hl. destruct argv as [|prog [|root [|ndl opts]]]; try reflexivity.
    simpl in Hl. lia.
  - intros a rest o He Hf Ht. destruct rest as [|v rest].
    + rewrite parse_options_one, Hf. reflexivity.
    + rewrite parse_options_two, He, Hf, Ht. reflexivity.
  - intros prog root ndl opts a -> Hp. rewrite wmain_startup_args, Hp. reflexivity.
  - intros prog root ndl opts o -> Hp Ha. rewrite wmain_startup_args, Hp.
    destruct (root_copy_ok h); [|reflexivity]. simpl in Ha. rewrite Ha. reflexivity.
  - intros prog root ndl opts o -> Hp Hr Hnode Hh.
    exists (pick_threads (opt_threads o) h),
           (Nat.min (Z.to_nat (pick_threads (opt_threads o) h)) (spawn_limit h)).
    assert (Hs : wmain_startup (prog :: root :: ndl :: opts) h =
                 Launch (mkQuery ndl (opt_extcsv o) (opt_full o)) root
                   (pick_threads (opt_threads o) h)
                   (Nat.min (Z.to_nat (pick_threads (opt_threads o) h)) (spawn_limit h))).
    { rewrite wmain_startup_args, Hp, Hr, Hh. reflexivity. }
    split; [exact Hs|]. split.
    + intros code lines Hret. inversion Hret; subst; [congruence | reflexivity].
    + intros n Hw.
      set (qy := mkQuery ndl (opt_extcsv o) (opt_full o)) in *.
      set (k := Nat.min (Z.to_nat (pick_threads (opt_threads o) h)) (spawn_limit h)) in *.
      assert (Hk : Z.of_nat k <= INT_MAX).
      { assert (Ho : opt_threads o <= INT_MAX).
        { eapply parse_options_threads; [|exact Hp]. simpl. unfold INT_MAX. lia. }
        pose proof (pick_threads_range (opt_threads o) h Ho). subst k. lia. }
      destruct (exists_complete_run fs qy k Hk n (launch_state h root k)
                  (inv_launch_state k h root) (tinv_launch_state fs qy n h root k Hw))
        as (tr & s & Hrun & Hf & _).
      exists (out s). eapply returns_joined; eassumption.
  - intros Hnode code lines Hret.
    inversion Hret as [c err Hs|qy root t c tr s Hs Hrun Hf]; subst.
    + pose proof (wmain_startup_codes _ _ _ _ Hs) as Hc.
      split; [tauto|]. split; [|split].
      * intros _. split; [reflexivity | exists err; exact Hs].
      * intros ->. exists err. split; [exact Hs|].
        destruct argv as [|prog [|root [|ndl opts]]];
          try (injection Hs as <-; left; reflexivity).
        rewrite wmain_startup_args in Hs.
        destruct (parse_options opts no_options).
        -- destruct (negb (root_copy_ok h)); [discriminate|].
           destruct (negb (handles_ok h)); discriminate.
        -- injection Hs as <-. right. left. reflexivity.
      * intros ->.
        destruct argv as [|prog [|root [|ndl opts]]]; try discriminate.
        rewrite wmain_startup_args in Hs.
        destruct (parse_options opts no_options); [|discriminate].
        destruct (root_copy_ok h); [|reflexivity].
        destruct (handles_ok h); [discriminate | reflexivity].
    + split; [auto|]. split; [congruence|]. split; discriminate.
Qed.

Definition sample_host : Host := mkHost 8 true true true 64.

Lemma exit_codes_witness :
  wmain_startup [W "ffind"; W "root"] sample_host = Exit 2 [UsageText] /\
  wmain_startup [W "ffind"; W "root"; W "a"; W "-x"] sample_host =
    Exit 2 [UnknownOption (W "-x"); UsageText] /\
  wmain_startup [W "ffind"; W "root"; W "a"; W "-f"] (mkHost 8 true true false 64) =
    Exit 1 [OutOfMemory] /\
  exists lines,
    wmain_returns sample_fs [W "ffind"; W "root"; W "a"; W "-t"; W "2"]
      sample_host 0 lines.
Proof.
  split; [|split; [|split]].
  - destruct (exit_codes sample_fs [W "ffind"; W "root"] sample_host) as (H & _).
    apply H. simpl. lia.
  - destruct (exit_codes sample_fs [W "ffind"; W "root"; W "a"; W "-x"] sample_host)
      as (_ & _ & H & _).
    apply (H (W "ffind") (W "root") (W "a") [W "-x"] (W "-x")); reflexivity.
  - destruct (exit_codes sample_fs [W "ffind"; W "root"; W "a"; W "-f"]
                (mkHost 8 true true false 64)) as (_ & _ & _ & H & _).
    apply (H (W "ffind") (W "root") (W "a") [W "-f"] (mkOptions [] 1 0)); reflexivity.
  - destruct (exit_codes sample_fs [W "ffind"; W "root"; W "a"; W "-t"; W "2"]
                sample_host) as (_ & _ & _ & _ & H & _).
    destruct (H (W "ffind") (W "root") (W "a") [W "-t"; W "2"] (mkOptions [] 0 2)
                eq_refl eq_refl eq_refl eq_refl eq_refl) as (t & c & _ & _ & Hex).
    apply (Hex 2%nat). vm_compute. reflexivity.
Defined.

(** C8, as stated, fails when the queue node for the root cannot be
    allocated.  That allocation fails at start-up, before any work begins,
    and yet [wmain] does not return 1: the one thread finds the queue empty,
    raises the stop flag and returns, nothing is printed, and the exit code
    is 0. *)
Lemma root_node_failure_exits_zero :
  root_node_ok (mkHost 8 true false true 64) = false /\
  wmain_returns sample_fs [W "ffind"; W "root"; W "a"; W "-t"; W "1"]
    (mkHost 8 true false true 64) 0 [] /\
  (forall code lines,
     wmain_returns sample_fs [W "ffind"; W "root"; W "a"; W "-t"; W "1"]
       (mkHost 8 true false true 64) code lines -> code = 0).
Proof.
  split; [reflexivity|]. split.
  - apply (returns_joined sample_fs _ _ (mkQuery (W "a") [] 0) (W "root") 1 1%nat
             [Ev 0 Normal] (mkSys (mkWorkQ [] 0 1) [Returned] [] 0 0 0)).
    + reflexivity.
    + eapply run_cons; [|apply run_nil].
      apply (step_pop sample_fs _ (mkSys wq_init [AtPop] [] 0 0 0) [] []
               PopFinish (mkWorkQ [] 0 1)); reflexivity.
    + repeat constructor.
  - intros code lines Hret.
    inversion Hret as [c err Hs|qy root t c tr s Hs Hrun Hf]; subst;
      [discriminate Hs | reflexivity].
Qed.

(** C9, as the program has it.  [_wtoi] reads the number a text begins with.
    Whatever valid options stand before and behind it, a [-t] value never
    leads to the error exit; when it does not begin with a number, or the
    number it begins with is not above zero, the worker count becomes the
    processor count of the host, and at least 1; when it begins with a number
    above zero, that number is the worker count.  Without any [-t] the
    worker count is the processor count as well. *)
Theorem thread_count_default
    (h : Host) (prog root ndl : wstring) (pre suf : list wstring) (v : wstring)
    (o1 o2 : Options) :
  parse_options pre no_options = inl o1 ->
  parse_options suf o1 = inl o2 ->
  ~ In (W "-t") suf ->
  root_copy_ok h = true -> handles_ok h = true ->
  (exists created,
     wmain_startup (prog :: root :: ndl :: pre ++ W "-t" :: v :: suf) h =
     Launch (mkQuery ndl (opt_extcsv o2) (opt_full o2)) root
            (pick_threads (wtoi v) h) created) /\
  (no_leading_number v = true -> wtoi v = 0) /\
  (wtoi v <= 0 ->
   pick_threads (wtoi v) h = Z.max 1 (wrap_long (dwNumberOfProcessors h))) /\
  (0 < wtoi v -> pick_threads (wtoi v) h = wtoi v) /\
  (~ In (W "-t") pre ->
   exists created,
     wmain_startup (prog :: root :: ndl :: pre ++ suf) h =
     Launch (mkQuery ndl (opt_extcsv o2) (opt_full o2)) root
            (Z.max 1 (wrap_long (dwNumberOfProcessors h))) created) /\
  1 <= Z.max 1 (wrap_long (dwNumberOfProcessors h)) /\
  (0 < dwNumberOfProcessors h <= INT_MAX ->
   Z.max 1 (wrap_long (dwNumberOfProcessors h)) = dwNumberOfProcessors h).
Proof.
  intros Hpre Hsuf Hno Hr Hh.
  split; [|split; [|split; [|split; [|split; [|split]]]]].
  - eexists. rewrite wmain_startup_args.
    rewrite (parse_options_app pre _ no_options o1 Hpre).
    rewrite parse_options_two.
    change (wcscmp_eq (W "-t") (W "-e")) with false.
    change (wcscmp_eq (W "-t") (W "-f")) with false.
    change (wcscmp_eq (W "-t") (W "-t")) with true. cbv iota.
    destruct (parse_options_retarget suf o1 o2 (wtoi v) Hno Hsuf) as [_ ->].
    rewrite Hr, Hh. cbn [negb opt_extcsv opt_full opt_threads]. reflexivity.
  - apply wtoi_no_leading_number.
  - apply pick_threads_default.
  - apply pick_threads_given.
  - intros Hnopre. eexists. rewrite wmain_startup_args.
    rewrite (parse_options_app pre _ no_options o1 Hpre), Hsuf.
    rewrite Hr, Hh. cbn [negb].
    destruct (parse_options_retarget suf o1 o2 0 Hno Hsuf) as [H2 _].
    destruct (parse_options_retarget pre no_options o1 0 Hnopre Hpre) as [H1 _].
    rewrite pick_threads_default; [reflexivity|].
    rewrite H2, H1. cbn [no_options opt_threads]. lia.
  - lia.
  - intros Hn. rewrite wrap_long_small; [lia | unfold INT_MIN; lia].
Qed.

Lemma thread_count_default_witness :
  no_leading_number (W "many") = true /\
  exists created,
    wmain_startup [W "ffind"; W "root"; W "a"; W "-f"; W "-t"; W "many"; W "-e"; W "c"]
      sample_host =
    Launch (mkQuery (W "a") (W "c") 1) (W "root") 8 created.
Proof.
  assert (Hno : ~ In (W "-t") [W "-e"; W "c"]).
  { simpl. intros [H|[H|[]]]; discriminate H. }
  destruct (thread_count_default sample_host (W "ffind") (W "root") (W "a")
              [W "-f"] [W "-e"; W "c"] (W "many")
              (mkOptions [] 1 0) (mkOptions (W "c") 1 0)
              eq_refl eq_refl Hno eq_refl eq_refl)
    as ((c & Hc) & H0 & Hd & _ & _ & _ & Hn).
  split; [reflexivity|]. exists c.
  cbn [app] in Hc. rewrite Hc. cbn [opt_extcsv opt_full].
  rewrite Hd by (rewrite (H0 eq_refl); lia).
  rewrite Hn; [reflexivity|]. cbn. unfold INT_MAX. lia.
Defined.

(** C9, as stated, fails for a value that is not a number but begins with
    one: with [-t 8x] on a host of 4 processors the worker count is 8, not
    the processor count. *)
Lemma numeric_prefix_sets_threads :
  is_number (W "8x") = false /\
  wtoi (W "8x") = 8 /\
  wmain_startup [W "ffind"; W "root"; W "a"; W "-t"; W "8x"]
    (mkHost 4 true true true 64) =
    Launch (mkQuery (W "a") [] 0) (W "root") 8 8 /\
  Z.max 1 (wrap_long 4) = 4.
Proof. repeat split. Qed.

(** * Further properties of the helpers *)

(** ** Paths *)

Lemma join_path_cap cap dir name :
  join_path cap dir name =
  if (length (path_join dir name) + 1 <=? cap)%nat
  then Some (path_join dir name) else None.
Proof.
  unfold join_path, path_join, wcslen. rewrite !length_app.
  replace (length (if needs_slash dir then [ch_backslash] else []))
    with (if needs_slash dir then 1%nat else 0%nat)
    by (destruct (needs_slash dir); reflexivity).
  destruct (cap <? _)%nat eqn:E1; destruct (_ <=? cap)%nat eqn:E2; try reflexivity.
  - apply Nat.ltb_lt in E1. apply Nat.leb_le in E2. lia.
  - apply Nat.ltb_ge in E1. apply Nat.leb_gt in E2. lia.
Qed.

(** X1. [join_path] succeeds exactly when the joined text and its NUL fit in
    the buffer, and then it is the directory, one backslash unless the
    directory is empty or already ends in a separator, and the name; it fails
    exactly when they do not fit. *)
Theorem join_path_result (cap : nat) (dir name full : wstring) :
  (join_path cap dir name = Some full <->
   full = path_join dir name /\ (length full + 1 <= cap)%nat) /\
  (join_path cap dir name = None <->
   (cap < length (path_join dir name) + 1)%nat) /\
  (needs_slash dir = false -> path_join dir name = dir ++ name) /\
  (needs_slash dir = true -> path_join dir name = dir ++ ch_backslash :: name).
Proof.
  split; [|split; [|split]].
  - rewrite join_path_cap.
    destruct (length (path_join dir name) + 1 <=? cap)%nat eqn:E.
    + apply Nat.leb_le in E. split.
      * intros Hj; injection Hj as <-. auto.
      * intros [-> _]. reflexivity.
    + apply Nat.leb_gt in E. split; [discriminate|]. intros [-> Hl]. lia.
  - rewrite join_path_cap.
    destruct (length (path_join dir name) + 1 <=? cap)%nat eqn:E.
    + apply Nat.leb_le in E. split; [discriminate | lia].
    + apply Nat.leb_gt in E. split; [intros _; exact E | reflexivity].
  - intros Hs. unfold path_join. rewrite Hs. reflexivity.
  - intros Hs. unfold path_join. rewrite Hs. reflexivity.
Qed.

Lemma join_path_result_witness :
  path_join (W "C:\") (W "a.c") = W "C:\a.c" /\
  path_join (W "C:\src") (W "a.c") = W "C:\src\a.c".
Proof.
  split.
  - destruct (join_path_result 16 (W "C:\") (W "a.c") []) as (_ & _ & H & _).
    apply H. reflexivity.
  - destruct (join_path_result 16 (W "C:\src") (W "a.c") []) as (_ & _ & _ & H).
    apply H. reflexivity.
Defined.

(** X2. The enumeration pattern is the join of the directory with the name
    [*]; so whenever the path of some entry with a non-empty name fits the
    buffer, the pattern of its directory fits as well. *)
Theorem make_glob_join (cap : nat) (dir : wstring) :
  make_glob cap dir = join_path cap dir [ch_star] /\
  (forall name full,
     name <> [] -> join_path cap dir name = Some full ->
     make_glob cap dir = Some (path_join dir [ch_star])).
Proof.
  assert (Hg : make_glob cap dir = join_path cap dir [ch_star]) by reflexivity.
  split; [exact Hg|]. intros name full Hne Hj.
  rewrite Hg. rewrite join_path_cap in *.
  destruct (length (path_join dir name) + 1 <=? cap)%nat eqn:E; [|discriminate].
  apply Nat.leb_le in E.
  assert (Hl : (length (path_join dir [ch_star]) <= length (path_join dir name))%nat).
  { unfold path_join. rewrite !length_app. destruct name; [congruence|].
    simpl. lia. }
  destruct (length (path_join dir [ch_star]) + 1 <=? cap)%nat eqn:E2; [reflexivity|].
  apply Nat.leb_gt in E2. lia.
Qed.

Lemma make_glob_join_witness :
  make_glob 9 (W "C:\src") = Some (W "C:\src\*").
Proof.
  destruct (make_glob_join 9 (W "C:\src")) as [_ H].
  apply (H (W "a") (W "C:\src\a")); [discriminate | reflexivity].
Defined.

(** X3. Within one directory different names give different paths. *)
Theorem join_path_injective (cap : nat) (dir n1 n2 full : wstring) :
  join_path cap dir n1 = Some full -> join_path cap dir n2 = Some full -> n1 = n2.
Proof.
  rewrite !join_path_cap.
  destruct (_ <=? cap)%nat; [|discriminate].
  destruct (_ <=? cap)%nat; [|discriminate].
  intros H1 H2. injection H1 as H1. injection H2 as H2. subst full.
  unfold path_join in H2. apply app_inv_head in H2. apply app_inv_head in H2.
  symmetry. exact H2.
Qed.

Lemma join_path_injective_witness : W "a.c" = W "a.c".
Proof.
  apply (join_path_injective 2080 (W "root") (W "a.c") (W "a.c") (W "root\a.c"));
    reflexivity.
Defined.

(** X4. The base name of a joined path is the name that was joined, as long
    as the name holds no separator. *)
Theorem basename_ptr_join_path (cap : nat) (dir name full : wstring) :
  (forall c, In c name -> is_slash c = false) ->
  join_path cap dir name = Some full ->
  basename_ptr full = name.
Proof. apply basename_join. Qed.

Lemma basename_ptr_join_path_witness :
  basename_ptr (W "C:/src\sub\a.c") = W "a.c".
Proof.
  apply (basename_ptr_join_path 2080 (W "C:/src\sub") (W "a.c")).
  - intros c Hc. vm_compute in Hc.
    repeat (destruct Hc as [<-|Hc]; [reflexivity|]). destruct Hc.
  - reflexivity.
Defined.

Lemma last_separator path :
  (forall c, In c path -> is_slash c = false) \/
  exists a s b, path = a ++ s :: b /\ is_slash s = true /\
                forall c, In c b -> is_slash c = false.
Proof.
  induction path as [|c path IH].
  - left. intros c [].
  - destruct IH as [IH|(a & s & b & -> & Hs & Hb)].
    + destruct (is_slash c) eqn:E.
      * right. exists [], c, path. auto.
      * left. intros x [<-|Hx]; auto.
    + right. exists (c :: a), s, b. auto.
Qed.

(** X5. [basename_ptr] returns the longest suffix without a separator: the
    path is some prefix followed by the result, the result holds no
    separator, and the prefix is empty or ends in one.  Taking the base name
    twice changes nothing. *)
Theorem basename_ptr_suffix (path : wstring) :
  (exists pre,
     path = pre ++ basename_ptr path /\
     (pre = [] \/ is_slash (last pre 0) = true)) /\
  (forall c, In c (basename_ptr path) -> is_slash c = false) /\
  basename_ptr (basename_ptr path) = basename_ptr path.
Proof.
  assert (Hplain : forall p, (forall c, In c p -> is_slash c = false) ->
                             basename_ptr p = p).
  { intros p Hp. unfold basename_ptr. apply basename_loop_no_slash. exact Hp. }
  destruct (last_separator path) as [H|(a & s & b & -> & Hs & Hb)].
  - rewrite (Hplain path H). split; [|split].
    + exists []. auto.
    + exact H.
    + apply Hplain. exact H.
  - assert (Hb' : basename_ptr (a ++ s :: b) = b).
    { unfold basename_ptr. apply basename_loop_after_slash; assumption. }
    rewrite Hb'. split; [|split].
    + exists (a ++ [s]). rewrite <- app_assoc. split; [reflexivity|].
      right. rewrite last_last. exact Hs.
    + exact Hb.
    + apply Hplain. exact Hb.
Qed.

(** ** The substring test and the extension filter *)

Lemma contains_ci_length hay ndl :
  contains_ci hay ndl -> (length ndl <= length hay)%nat.
Proof.
  intros (pre & mid & post & -> & Hq). unfold eq_ci in Hq.
  apply (f_equal (@length _)) in Hq. rewrite !length_map in Hq.
  rewrite !length_app. lia.
Qed.

(** X6. A needle longer than the text it is searched in is never found. *)
Theorem wcontains_i_longer_needle (hay ndl : wstring) :
  wstr ndl -> (length hay < length ndl)%nat -> wcontains_i hay ndl = false.
Proof.
  intros Hn Hl. destruct (wcontains_i hay ndl) eqn:E; [|reflexivity].
  apply (wcontains_i_spec hay ndl Hn) in E. apply contains_ci_length in E. lia.
Qed.

Lemma wcontains_i_longer_needle_witness :
  wcontains_i (W "a.c") (W "main") = false.
Proof.
  apply wcontains_i_longer_needle.
  - repeat constructor; discriminate.
  - simpl. lia.
Defined.

Lemma contains_ci_refl s : contains_ci s s.
Proof. exists [], s, []. rewrite app_nil_r. split; reflexivity. Qed.

Lemma contains_ci_trans a b c :
  contains_ci a b -> contains_ci b c -> contains_ci a c.
Proof.
  intros (p1 & m1 & q1 & -> & H1) (p2 & m2 & q2 & -> & H2). unfold eq_ci in *.
  rewrite !map_app in H1.
  apply map_eq_app in H1. destruct H1 as (x & yz & -> & Hx & Hyz).
  apply map_eq_app in Hyz. destruct Hyz as (y & z & -> & Hy & Hz).
  exists (p1 ++ x), y, (z ++ q1). split.
  - rewrite <- !app_assoc. reflexivity.
  - unfold eq_ci. rewrite Hy. exact H2.
Qed.

(** X7. Containment up to case is reflexive and transitive: a text contains
    itself, and what is found in a part is found in the whole. *)
Theorem wcontains_i_preorder (a b c : wstring) :
  wstr a -> wstr b -> wstr c ->
  wcontains_i a a = true /\
  (wcontains_i a b = true -> wcontains_i b c = true -> wcontains_i a c = true).
Proof.
  intros Ha Hb Hc. split.
  - apply (wcontains_i_spec a a Ha). apply contains_ci_refl.
  - intros H1 H2. apply (wcontains_i_spec a c Hc).
    apply (wcontains_i_spec a b Hb) in H1. apply (wcontains_i_spec b c Hc) in H2.
    eapply contains_ci_trans; eassumption.
Qed.

Lemma wcontains_i_preorder_witness :
  wcontains_i (W "C:\Src\Main.c") (W "in") = true.
Proof.
  assert (Ha : wstr (W "C:\Src\Main.c")) by (repeat constructor; discriminate).
  assert (Hb : wstr (W "MAIN")) by (repeat constructor; discriminate).
  assert (Hc : wstr (W "in")) by (repeat constructor; discriminate).
  destruct (wcontains_i_preorder (W "C:\Src\Main.c") (W "MAIN") (W "in") Ha Hb Hc)
    as [_ H].
  apply H; reflexivity.
Defined.

Lemma towlower_idem c : towlower (towlower c) = towlower c.
Proof.
  unfold towlower.
  destruct ((65 <=? c) && (c <=? 90)) eqn:E.
  - apply andb_true_iff in E. destruct E as [E1 E2].
    apply Z.leb_le in E1. apply Z.leb_le in E2.
    destruct ((65 <=? c + 32) && (c + 32 <=? 90)) eqn:E'; [|reflexivity].
    apply andb_true_iff in E'. destruct E' as [_ E3]. apply Z.leb_le in E3. lia.
  - rewrite E. reflexivity.
Qed.

Lemma map_towlower_idem s : map towlower (map towlower s) = map towlower s.
Proof. rewrite map_map. apply map_ext. exact towlower_idem. Qed.

Lemma wstr_map_towlower s : wstr s -> wstr (map towlower s).
Proof.
  unfold wstr. intros H. apply Forall_map. eapply Forall_impl; [|exact H].
  intros c Hc Hz. apply (proj1 (towlower_zero c)) in Hz. exact (Hc Hz).
Qed.

Lemma contains_ci_fold hay ndl :
  contains_ci (map towlower hay) (map towlower ndl) <-> contains_ci hay ndl.
Proof.
  unfold contains_ci, eq_ci. split.
  - intros (pre & mid & post & H & Hq).
    apply map_eq_app in H. destruct H as (x & yz & -> & <- & Hyz).
    apply map_eq_app in Hyz. destruct Hyz as (y & z & -> & <- & <-).
    exists x, y, z. split; [reflexivity|].
    rewrite !map_towlower_idem in Hq. exact Hq.
  - intros (pre & mid & post & -> & Hq).
    exists (map towlower pre), (map towlower mid), (map towlower post).
    rewrite !map_app. split; [reflexivity|].
    rewrite !map_towlower_idem. exact Hq.
Qed.

(** X8. The case of the letters A-Z matters neither in the needle nor in
    the text: folding both to lower case does not change the result. *)
Theorem wcontains_i_case_blind (hay ndl : wstring) :
  wstr ndl ->
  wcontains_i (map towlower hay) (map towlower ndl) = wcontains_i hay ndl.
Proof.
  intros Hn.
  pose proof (wcontains_i_spec hay ndl Hn) as H1.
  pose proof (wcontains_i_spec (map towlower hay) (map towlower ndl)
                (wstr_map_towlower ndl Hn)) as H2.
  rewrite contains_ci_fold in H2.
  destruct (wcontains_i hay ndl);
    destruct (wcontains_i (map towlower hay) (map towlower ndl)); try reflexivity.
  - apply (proj2 H2). apply (proj1 H1). reflexivity.
  - symmetry. apply (proj2 H1). apply (proj1 H2). reflexivity.
Qed.

Lemma wcontains_i_case_blind_witness :
  wcontains_i (W "readme.md") (W "read") = wcontains_i (W "ReadMe.MD") (W "READ").
Proof.
  apply (wcontains_i_case_blind (W "ReadMe.MD") (W "READ")).
  repeat constructor; discriminate.
Defined.

(** X9. Only the text after the last dot decides: whatever stands before
    that dot, earlier dots included, the extension filter answers the
    same. *)
Theorem ext_allowed_last_dot (pre pre' ext lst : wstring) :
  ~ In ch_dot ext ->
  ext_allowed (pre ++ ch_dot :: ext) lst = ext_allowed (pre' ++ ch_dot :: ext) lst.
Proof.
  intros Hnd. unfold ext_allowed. destruct lst as [|l0 lst]; [reflexivity|].
  assert (H : forall p, wcsrchr (p ++ ch_dot :: ext) ch_dot = Some (ch_dot :: ext)).
  { intros p. apply wcsrchr_some. exists p, ext. auto. }
  rewrite (H pre), (H pre'). reflexivity.
Qed.

Lemma ext_allowed_last_dot_witness :
  ext_allowed (W "backup.tar.gz") (W "tar") = ext_allowed (W ".gz") (W "tar").
Proof.
  apply (ext_allowed_last_dot (W "backup.tar") [] (W "gz") (W "tar")).
  simpl. intros [H|[H|[]]]; discriminate.
Defined.

Lemma split_commas_cons s : exists f fs, split_commas s = f :: fs.
Proof. rewrite split_commas_field. eexists _, _. reflexivity. Qed.

Lemma split_commas_app l1 l2 :
  split_commas (l1 ++ ch_comma :: l2) = split_commas l1 ++ split_commas l2.
Proof.
  induction l1 as [|c l1 IH]; [reflexivity|].
  cbn [app split_commas]. destruct (c =? ch_comma).
  - rewrite IH. reflexivity.
  - rewrite IH. destruct (split_commas_cons l1) as (f & fs & ->). reflexivity.
Qed.

Lemma csv_entries_app l1 l2 :
  csv_entries (l1 ++ ch_comma :: l2) = csv_entries l1 ++ csv_entries l2.
Proof.
  unfold csv_entries. rewrite split_commas_app, map_app, filter_app. reflexivity.
Qed.

(** X10. Two non-empty lists joined by a comma accept what either of them
    accepts. *)
Theorem ext_allowed_union (filename l1 l2 : wstring) :
  wstr filename -> l1 <> [] -> l2 <> [] ->
  ext_allowed filename (l1 ++ ch_comma :: l2) =
  ext_allowed filename l1 || ext_allowed filename l2.
Proof.
  intros Hf H1 H2.
  assert (H12 : l1 ++ ch_comma :: l2 <> []) by (destruct l1; discriminate).
  pose proof (ext_allowed_entries filename _ Hf H12) as E12.
  pose proof (ext_allowed_entries filename _ Hf H1) as E1.
  pose proof (ext_allowed_entries filename _ Hf H2) as E2.
  rewrite csv_entries_app in E12.
  destruct (ext_allowed filename l1) eqn:A1; destruct (ext_allowed filename l2) eqn:A2;
    cbn [orb].
  - apply E12. destruct (proj1 E1 eq_refl) as (pre & ext & e & Ha & Hb & Hc & Hd).
    exists pre, ext, e. repeat split; auto. apply in_or_app. left. exact Hc.
  - apply E12. destruct (proj1 E1 eq_refl) as (pre & ext & e & Ha & Hb & Hc & Hd).
    exists pre, ext, e. repeat split; auto. apply in_or_app. left. exact Hc.
  - apply E12. destruct (proj1 E2 eq_refl) as (pre & ext & e & Ha & Hb & Hc & Hd).
    exists pre, ext, e. repeat split; auto. apply in_or_app. right. exact Hc.
  - destruct (ext_allowed filename (l1 ++ ch_comma :: l2)) eqn:A; [|reflexivity].
    destruct (proj1 E12 eq_refl) as (pre & ext & e & Ha & Hb & Hc & Hd).
    apply in_app_or in Hc. destruct Hc as [Hc|Hc].
    + assert (Hx : false = true); [|discriminate]. apply E1.
      exists pre, ext, e. auto.
    + assert (Hx : false = true); [|discriminate]. apply E2.
      exists pre, ext, e. auto.
Qed.

Lemma ext_allowed_union_witness :
  ext_allowed (W "a.h") (W "c,cpp" ++ ch_comma :: W "h,hpp") = true.
Proof.
  rewrite (ext_allowed_union (W "a.h") (W "c,cpp") (W "h,hpp")).
  - reflexivity.
  - repeat constructor; discriminate.
  - discriminate.
  - discriminate.
Defined.

(** * Further properties of the work queue *)

(** [n] successive passes of [wq_pop], collecting the directories handed
    out; it stops at the first pass that hands out none. *)
Fixpoint wq_drain (n : nat) (q : WorkQ) : list wstring * WorkQ :=
  match n with
  | O => ([], q)
  | S n' =>
      match wq_pop_pass q with
      | (PopDir dir, q') =>
          let (dirs, q'') := wq_drain n' q' in (dir :: dirs, q'')
      | (_, q') => ([], q')
      end
  end.

Lemma items_pushes dirs q :
  items (fold_left wq_push_owned dirs q) = items q ++ dirs /\
  stop (fold_left wq_push_owned dirs q) = stop q /\
  active_workers (fold_left wq_push_owned dirs q) = active_workers q.
Proof.
  revert q. induction dirs as [|d dirs IH]; intros q.
  - cbn [fold_left]. rewrite app_nil_r. auto.
  - cbn [fold_left]. destruct (IH (wq_push_owned q d)) as (H1 & H2 & H3).
    rewrite H1, H2, H3. cbn [wq_push_owned items stop active_workers].
    rewrite <- app_assoc. auto.
Qed.

Lemma wq_drain_all q :
  stop q = 0 ->
  fst (wq_drain (length (items q)) q) = items q /\
  items (snd (wq_drain (length (items q)) q)) = [] /\
  stop (snd (wq_drain (length (items q)) q)) = 0.
Proof.
  destruct q as [its a st]. cbn [items stop]. intros ->.
  revert a. induction its as [|d its IH]; intros a; [cbn; auto|].
  cbn [length wq_drain wq_pop_pass items stop active_workers negb Z.eqb].
  specialize (IH (InterlockedIncrement a)).
  destruct (wq_drain (length its) (mkWorkQ its (InterlockedIncrement a) 0))
    as [dirs q''].
  cbn [fst snd] in *. destruct IH as (-> & H2 & H3). auto.
Qed.

(** X11. The queue is first in, first out: after any sequence of pushes onto
    a queue that is not stopped, as many pops as there are items hand out the
    old items and then the pushed ones, in the order of the pushes, and leave
    the queue empty. *)
Theorem wq_fifo (q : WorkQ) (dirs : list wstring) :
  stop q = 0 ->
  let q1 := fold_left wq_push_owned dirs q in
  fst (wq_drain (length (items q1)) q1) = items q ++ dirs /\
  items (snd (wq_drain (length (items q1)) q1)) = [].
Proof.
  intros Hs q1. destruct (items_pushes dirs q) as (Hi & Hst & _).
  fold q1 in Hi, Hst.
  destruct (wq_drain_all q1 ltac:(congruence)) as (H1 & H2 & _).
  split; [rewrite H1; exact Hi | exact H2].
Qed.

Lemma wq_fifo_witness :
  fst (wq_drain 3 (fold_left wq_push_owned [W "r\b"; W "r\c"]
                     (mkWorkQ [W "r\a"] 1 0)))
  = [W "r\a"; W "r\b"; W "r\c"].
Proof.
  destruct (wq_fifo (mkWorkQ [W "r\a"] 1 0) [W "r\b"; W "r\c"] eq_refl) as [H _].
  exact H.
Defined.

Lemma wrap_long_add a b : wrap_long (wrap_long a + b) = wrap_long (a + b).
Proof.
  unfold wrap_long. f_equal.
  replace ((a + 2147483648) mod 4294967296 - 2147483648 + b + 2147483648)
    with ((a + 2147483648) mod 4294967296 + b) by lia.
  rewrite Zplus_mod_idemp_l. f_equal. lia.
Qed.

(** X12. Taking a directory and reporting it done leaves the active count as
    it was: [wq_done_one] undoes the increment of the pop, even across the
    wrap-around of the 32-bit counter. *)
Theorem wq_pop_done_round_trip (q q' : WorkQ) (dir : wstring) :
  INT_MIN <= active_workers q <= INT_MAX ->
  wq_pop_pass q = (PopDir dir, q') ->
  items q = dir :: items q' /\
  wq_done_one q' = mkWorkQ (items q') (active_workers q) (stop q).
Proof.
  intros Ha Hp.
  destruct (wq_pop_pass_cases _ _ _ Hp)
    as [(_ & H & _)|[(_ & d & rest & Hi & Hd & ->)|
        [(_ & _ & _ & H & _)|(_ & _ & _ & H & _)]]]; try discriminate.
  injection Hd as <-. split; [exact Hi|].
  unfold wq_done_one, InterlockedDecrement, InterlockedIncrement.
  cbn [items active_workers stop]. f_equal.
  replace (wrap_long (active_workers q + 1) - 1)
    with (wrap_long (active_workers q + 1) + -1) by lia.
  rewrite wrap_long_add.
  replace (active_workers q + 1 + -1) with (active_workers q) by lia.
  apply wrap_long_small. exact Ha.
Qed.

Lemma wq_pop_done_round_trip_witness :
  wq_done_one (mkWorkQ [W "b"] (-2147483648) 0) = mkWorkQ [W "b"] 2147483647 0.
Proof.
  destruct (wq_pop_done_round_trip (mkWorkQ [W "a"; W "b"] 2147483647 0)
              (mkWorkQ [W "b"] (-2147483648) 0) (W "a")) as [_ H].
  - unfold INT_MIN, INT_MAX. cbn. lia.
  - reflexivity.
  - exact H.
Defined.

(** * Further properties of the traversal *)

(** X13. In every state the system reaches, the active count is the number
    of threads that hold a popped directory; it lies between 0 and the
    number of threads, the pool keeps its size, and the stop flag is 0 or
    1. *)
Theorem active_count_is_busy_threads
    (fs : wstring -> list WIN32_FIND_DATAW) (qy : Query) (root : wstring)
    (k : nat) (tr : list event) (s : Sys) :
  Z.of_nat k <= INT_MAX ->
  run fs qy (init root k) tr s ->
  active_workers (wq s) = Z.of_nat (total busy (pool s)) /\
  0 <= active_workers (wq s) <= Z.of_nat k /\
  length (pool s) = k /\
  (stop (wq s) = 0 \/ stop (wq s) = 1).
Proof.
  intros Hk Hr.
  pose proof (run_inv fs qy k Hk _ _ _ (inv_init k root) Hr) as Hi.
  pose proof (total_le_length busy (pool s) busy_le) as Hb.
  rewrite (inv_len k s Hi) in Hb.
  split; [apply (inv_active k s Hi)|]. split; [rewrite (inv_active k s Hi); lia|].
  split; [apply (inv_len k s Hi) | apply (inv_stop01 k s Hi)].
Qed.

Lemma active_count_is_busy_threads_witness :
  exists s,
    run sample_fs sample_query (init (W "root") 2) [Ev 0 Normal; Ev 1 Normal] s /\
    pool s = [Holding (W "root"); Asleep] /\
    active_workers (wq s) = 1 /\ stop (wq s) = 0.
Proof.
  exists (mkSys (mkWorkQ [] 1 0) [Holding (W "root"); Asleep] [] 0 0 0).
  assert (Hr : run sample_fs sample_query (init (W "root") 2)
                 [Ev 0 Normal; Ev 1 Normal]
                 (mkSys (mkWorkQ [] 1 0) [Holding (W "root"); Asleep] [] 0 0 0)).
  { eapply run_cons.
    - apply (step_pop sample_fs sample_query (init (W "root") 2) [] [AtPop]
               (PopDir (W "root")) (mkWorkQ [] 1 0)); reflexivity.
    - eapply run_cons; [|apply run_nil].
      apply (step_pop sample_fs sample_query
               (mkSys (mkWorkQ [] 1 0) [Holding (W "root"); AtPop] [] 0 0 0)
               [Holding (W "root")] [] PopSleep (mkWorkQ [] 1 0)); reflexivity. }
  destruct (active_count_is_busy_threads sample_fs sample_query (W "root") 2 _ _
              ltac:(unfold INT_MAX; lia) Hr) as (Ha & _ & _ & _).
  split; [exact Hr|]. split; [reflexivity|]. split; [|reflexivity].
  rewrite Ha. reflexivity.
Defined.

Lemma wrap_long64_add a b : wrap_long64 (wrap_long64 a + b) = wrap_long64 (a + b).
Proof.
  unfold wrap_long64. f_equal.
  replace ((a + 9223372036854775808) mod 18446744073709551616
           - 9223372036854775808 + b + 9223372036854775808)
    with ((a + 9223372036854775808) mod 18446744073709551616 + b) by lia.
  rewrite Zplus_mod_idemp_l. f_equal. lia.
Qed.

Lemma wrap_long64_small z :
  -9223372036854775808 <= z <= 9223372036854775807 -> wrap_long64 z = z.
Proof. unfold wrap_long64. intros H. rewrite Z.mod_small; lia. Qed.

Section Counters.

Variable fs : wstring -> list WIN32_FIND_DATAW.
Variable qy : Query.

Lemma step_found s ev s' :
  step fs qy s ev s' ->
  found s = wrap_long64 (Z.of_nat (length (out s))) ->
  found s' = wrap_long64 (Z.of_nat (length (out s'))).
Proof.
  intros Hstep Hf. inversion Hstep; subst; cbn [found out]; try exact Hf.
  destruct matched; [|exact Hf].
  unfold InterlockedIncrement64. rewrite Hf, wrap_long64_add, length_app.
  cbn [length]. f_equal. lia.
Qed.

End Counters.

Lemma run_found fs qy s tr s' :
  run fs qy s tr s' ->
  found s = wrap_long64 (Z.of_nat (length (out s))) ->
  found s' = wrap_long64 (Z.of_nat (length (out s'))).
Proof.
  intros Hr. induction Hr as [|s ev s1 tr s2 Hstep _ IH]; [auto|].
  intros H0. apply IH. eapply step_found; eassumption.
Qed.

(** X14. When every thread has returned, the match counter that the summary
    prints is the number of lines written to stdout (as a 64-bit counter),
    whether or not the root was queued. *)
Theorem found_counts_lines
    (fs : wstring -> list WIN32_FIND_DATAW) (qy : Query) (h : Host)
    (root : wstring) (k : nat) (tr : list event) (s : Sys) :
  run fs qy (launch_state h root k) tr s ->
  final s ->
  found s = wrap_long64 (Z.of_nat (length (out s))) /\
  (Z.of_nat (length (out s)) <= 9223372036854775807 ->
   found s = Z.of_nat (length (out s))).
Proof.
  intros Hr _.
  assert (H : found s = wrap_long64 (Z.of_nat (length (out s))))
    by (apply (run_found fs qy _ _ _ Hr); reflexivity).
  split; [exact H|]. intros Hl. rewrite H. apply wrap_long64_small. lia.
Qed.

Lemma found_counts_lines_witness :
  exists tr s,
    run sample_fs sample_query (init (W "root") 2) tr s /\ final s /\
    length (out s) = 2%nat /\ found s = 2.
Proof.
  assert (Hk : Z.of_nat 2 <= INT_MAX) by (unfold INT_MAX; lia).
  destruct (exists_complete_run sample_fs sample_query 2 Hk 2 (init (W "root") 2)
              (inv_init 2 (W "root"))
              (tinv_init sample_fs sample_query 2 2 (W "root") sample_within))
    as (tr & s & Hr & Hf & Hna & _).
  exists tr, s. split; [exact Hr|]. split; [exact Hf|].
  pose proof (complete_output sample_fs sample_query 2 Hk 2 (W "root") tr s
                (le_n_S _ _ (Nat.le_0_l 1)) sample_within Hr Hna Hf) as Hp.
  apply Permutation_length in Hp. rewrite sample_walk in Hp. cbn [length] in Hp.
  split; [exact Hp|].
  destruct (found_counts_lines sample_fs sample_query sample_host (W "root") 2 tr s
              Hr Hf) as [_ H].
  rewrite H; rewrite Hp; [reflexivity | lia].
Defined.

Lemma final_pool l : Forall (fun w => w = Returned) l -> l = repeat Returned (length l).
Proof.
  induction 1 as [|w l Hw _ IH]; [reflexivity|].
  subst w. cbn [length repeat]. f_equal. exact IH.
Qed.

(** X16. When every thread has returned (and at least one was started) the
    queue is empty, no thread is counted active and the stop flag is 1:
    nothing is left for [wq_destroy] to free. *)
Theorem final_queue_empty
    (fs : wstring -> list WIN32_FIND_DATAW) (qy : Query) (root : wstring)
    (k : nat) (tr : list event) (s : Sys) :
  (1 <= k)%nat -> Z.of_nat k <= INT_MAX ->
  run fs qy (init root k) tr s -> final s ->
  wq s = mkWorkQ [] 0 1 /\ pool s = repeat Returned k.
Proof.
  intros H1 Hk Hr Hf.
  pose proof (run_inv fs qy k Hk _ _ _ (inv_init k root) Hr) as Hi.
  assert (Hstop : stop (wq s) <> 0).
  { apply (inv_gone k s Hi). rewrite (final_gone _ Hf), (inv_len k s Hi). lia. }
  destruct (inv_stopped k s Hi Hstop) as (Hit & Hb & _).
  pose proof (inv_active k s Hi) as Ha. rewrite Hb in Ha.
  destruct (inv_stop01 k s Hi) as [H0|H01]; [congruence|].
  split.
  - destruct (wq s) as [its a st]. cbn [items active_workers stop] in *.
    subst. reflexivity.
  - rewrite <- (inv_len k s Hi). apply final_pool. exact Hf.
Qed.

Lemma final_queue_empty_witness :
  exists tr s,
    run sample_fs sample_query (init (W "root") 2) tr s /\
    wq s = mkWorkQ [] 0 1 /\ pool s = [Returned; Returned].
Proof.
  assert (Hk : Z.of_nat 2 <= INT_MAX) by (unfold INT_MAX; lia).
  destruct (exists_complete_run sample_fs sample_query 2 Hk 2 (init (W "root") 2)
              (inv_init 2 (W "root"))
              (tinv_init sample_fs sample_query 2 2 (W "root") sample_within))
    as (tr & s & Hr & Hf & _).
  exists tr, s. split; [exact Hr|].
  apply (final_queue_empty sample_fs sample_query (W "root") 2 tr s);
    [lia | exact Hk | exact Hr | exact Hf].
Defined.

(** ** What is printed is wanted, and never printed twice *)

Section Soundness.

Variable fs : wstring -> list WIN32_FIND_DATAW.
Variable qy : Query.
Variable root : wstring.

Lemma step_sound s ev s' :
  rinv fs root s -> step fs qy s ev s' ->
  (forall p, In p (out s) -> wanted fits_buffer fs qy root p) ->
  forall p, In p (out s') -> wanted fits_buffer fs qy root p.
Proof.
  intros [_ Hpl] Hstep Hs. inversion Hstep; subst; cbn [out]; try exact Hs.
  destruct matched; [|exact Hs].
  intros p Hp. apply in_app_or in Hp. destruct Hp as [Hp|[<-|[]]]; [auto|].
  match goal with Hpool : pool _ = _ |- _ => rewrite Hpool in Hpl end.
  apply Forall_mid in Hpl. destruct Hpl as (_ & [Hr Hin] & _).
  assert (Hfd : In fd (listing fs dir)) by (apply Hin; left; reflexivity).
  apply in_listing in Hfd. destruct Hfd as [Hg Hfd].
  match goal with Hc : classify _ _ _ = File _ _ |- _ =>
    apply classify_file in Hc;
    destruct Hc as (Hd1 & Hd2 & Hd3 & Hd4 & Hd5 & Hd6) end.
  subst full. exists dir, fd. repeat split; assumption.
Qed.

Lemma run_sound s tr s' :
  rinv fs root s -> run fs qy s tr s' ->
  (forall p, In p (out s) -> wanted fits_buffer fs qy root p) ->
  forall p, In p (out s') -> wanted fits_buffer fs qy root p.
Proof.
  intros Hri Hr. revert Hri.
  induction Hr as [|s ev s1 tr s2 Hstep _ IH]; intros Hri Hs; [exact Hs|].
  apply IH; [eapply step_rinv; eassumption|].
  eapply step_sound; eassumption.
Qed.

End Soundness.

(** X17. Whatever the schedule, with or without allocation failures and
    spurious wake-ups, and also on trees of unbounded depth, every line ever
    written is the path of a file that is reachable from the root through
    real directories and passes the extension filter and the substring
    filter. *)
Theorem printed_lines_are_wanted
    (fs : wstring -> list WIN32_FIND_DATAW) (qy : Query) (root : wstring)
    (k : nat) (tr : list event) (s : Sys) (p : wstring) :
  run fs qy (init root k) tr s -> In p (out s) ->
  wanted fits_buffer fs qy root p /\ wanted unbounded fs qy root p.
Proof.
  intros Hr Hp.
  assert (Hw : wanted fits_buffer fs qy root p).
  { eapply run_sound; [apply rinv_init | exact Hr | | exact Hp].
    intros q []. }
  split; [exact Hw|].
  destruct Hw as (dir & fd & Hreach & Hg & Hfd & H1 & H2 & H3 & H4 & H5 & H6).
  exists dir, fd. repeat split; try assumption.
  clear -Hreach. induction Hreach as [|dir fd Hr IH Hg Hfd H1 H2 H3 H4].
  - apply reach_root.
  - apply reach_sub; auto.
Qed.

Lemma printed_lines_are_wanted_witness :
  exists tr s,
    run sample_fs sample_query (init (W "root") 2) tr s /\ final s /\
    forall p, In p (out s) -> wanted unbounded sample_fs sample_query (W "root") p.
Proof.
  assert (Hk : Z.of_nat 2 <= INT_MAX) by (unfold INT_MAX; lia).
  destruct (exists_complete_run sample_fs sample_query 2 Hk 2 (init (W "root") 2)
              (inv_init 2 (W "root"))
              (tinv_init sample_fs sample_query 2 2 (W "root") sample_within))
    as (tr & s & Hr & Hf & _).
  exists tr, s. split; [exact Hr|]. split; [exact Hf|].
  intros p Hp.
  exact (proj2 (printed_lines_are_wanted sample_fs sample_query (W "root") 2 tr s p
                  Hr Hp)).
Defined.

Section NeverTwice.

Variable fs : wstring -> list WIN32_FIND_DATAW.
Variable qy : Query.
Variable n : nat.

Lemma step_output_le p s ev s' :
  tinv fs qy n s -> step fs qy s ev s' ->
  (occ p (out s') + pending fs qy n p s' <= occ p (out s) + pending fs qy n p s)%nat.
Proof.
  intros Ht Hstep. destruct ev as [i kd]. destruct kd.
  - assert (Hk : ev_kind (Ev i Normal) <> AllocFail) by discriminate.
    rewrite (step_output fs qy 0%nat n p s _ s' Ht Hstep Hk). apply Nat.le_refl.
  - inversion Hstep; subst. unfold pending. cbn [wq pool out].
    match goal with Hp : pool _ = _ |- _ => rewrite Hp end.
    rewrite !total_app, !total_cons. cbn [worker_pending]. rewrite total_cons. lia.
  - assert (Hk : ev_kind (Ev i Spurious) <> AllocFail) by discriminate.
    rewrite (step_output fs qy 0%nat n p s _ s' Ht Hstep Hk). apply Nat.le_refl.
Qed.

Lemma run_output_le p s tr s' :
  tinv fs qy n s -> run fs qy s tr s' ->
  (occ p (out s') + pending fs qy n p s' <= occ p (out s) + pending fs qy n p s)%nat.
Proof.
  intros Ht Hr. revert Ht.
  induction Hr as [|s ev s1 tr s2 Hstep _ IH]; intros Ht; [apply Nat.le_refl|].
  pose proof (step_output_le p _ _ _ Ht Hstep).
  pose proof (IH (step_tinv fs qy n _ _ _ Ht Hstep)). lia.
Qed.

End NeverTwice.

(** X18. Over a tree of finite depth no schedule, not even one with
    allocation failures, makes a line appear more often than the sequential
    walk lists it: a dropped directory only loses lines.  With sane entry
    names no path is ever printed twice. *)
Theorem never_printed_twice
    (fs : wstring -> list WIN32_FIND_DATAW) (qy : Query) (root : wstring)
    (n k : nat) (tr : list event) (s : Sys) :
  within fs qy n root = true ->
  run fs qy (init root k) tr s ->
  (forall p, (occ p (out s) <= occ p (walk fs qy n root))%nat) /\
  (sane_names fs -> NoDup (out s)).
Proof.
  intros Hw Hr.
  assert (H : forall p, (occ p (out s) <= occ p (walk fs qy n root))%nat).
  { intros p.
    pose proof (run_output_le fs qy n p _ _ _ (tinv_init fs qy k n root Hw) Hr) as Hle.
    unfold pending in Hle at 2.
    cbn [init wq pool out wq_push_owned wq_init items app] in Hle.
    rewrite (total_repeat_AtPop (worker_pending fs qy n p) k eq_refl) in Hle.
    rewrite !total_cons, !total_nil in Hle. cbn [occ count_occ] in Hle.
    change (count_occ wstring_eq_dec (walk fs qy n root) p)
      with (occ p (walk fs qy n root)) in Hle.
    lia. }
  split; [exact H|]. intros Hsane.
  apply (NoDup_count_occ wstring_eq_dec). intros p.
  pose proof (proj1 (NoDup_count_occ wstring_eq_dec (walk fs qy n root))
                (walk_NoDup fs qy Hsane n root) p) as Hone.
  specialize (H p). unfold occ in H. lia.
Qed.

Lemma never_printed_twice_witness :
  let s1 := mkSys (mkWorkQ [] 1 0) [Holding (W "root"); AtPop; AtPop] [] 0 0 0 in
  run sample_fs sample_query (init (W "root") 3) [Ev 0 Normal] s1 /\ NoDup (out s1).
Proof.
  intros s1.
  assert (Hr : run sample_fs sample_query (init (W "root") 3) [Ev 0 Normal] s1).
  { eapply run_cons; [|apply run_nil].
    exact (step_pop sample_fs sample_query (init (W "root") 3) [] [AtPop; AtPop]
             (PopDir (W "root")) (mkWorkQ [] 1 0) eq_refl eq_refl). }
  split; [exact Hr|].
  destruct (never_printed_twice sample_fs sample_query (W "root") 2 3
              [Ev 0 Normal] s1 sample_within Hr) as [_ H].
  exact (H sample_sane).
Defined.

(** ** The summary counters *)

Section Tally.

Variable fs : wstring -> list WIN32_FIND_DATAW.
Variable qy : Query.

(** A weighted count over the tree below [dir]: [wd] for each directory
    that is opened, [wf] for each entry that is scanned as a file. *)
Variable wd wf : nat.

Definition entry_weight (rec : wstring -> nat) (dir : wstring)
    (fd : WIN32_FIND_DATAW) : nat :=
  match classify qy dir fd with
  | Push full => rec full
  | File _ _ => wf
  | Skip => 0%nat
  end.

Fixpoint tally (n : nat) (dir : wstring) : nat :=
  match n with
  | O => wd
  | S n' => (wd + total (entry_weight (tally n') dir) (listing fs dir))%nat
  end.

Lemma tally_stable n dir :
  within fs qy n dir = true -> tally (S n) dir = tally n dir.
Proof.
  revert dir. induction n as [|n IH]; intros dir H; [discriminate|].
  change (tally (S (S n)) dir)
    with (wd + total (entry_weight (tally (S n)) dir) (listing fs dir))%nat.
  change (tally (S n) dir)
    with (wd + total (entry_weight (tally n) dir) (listing fs dir))%nat.
  f_equal. unfold total. f_equal. apply map_ext_in. intros fd Hfd.
  rewrite within_S, forallb_forall in H. specialize (H fd Hfd).
  unfold child_within in H. unfold entry_weight.
  destruct (classify qy dir fd); auto.
Qed.

Lemma tally_unfold n dir :
  within fs qy n dir = true ->
  tally n dir = (wd + total (entry_weight (tally n) dir) (listing fs dir))%nat.
Proof.
  intros H. destruct n as [|n]; [discriminate|].
  change (tally (S n) dir)
    with (wd + total (entry_weight (tally n) dir) (listing fs dir))%nat at 1.
  f_equal. unfold total. f_equal. apply map_ext_in. intros fd Hfd.
  rewrite within_S, forallb_forall in H. specialize (H fd Hfd).
  unfold child_within in H. unfold entry_weight.
  destruct (classify qy dir fd); auto. symmetry. apply tally_stable. exact H.
Qed.

Variable n : nat.

Definition worker_owes (w : worker) : nat :=
  match w with
  | Holding dir => tally n dir
  | Scanning dir fds => total (entry_weight (tally n) dir) fds
  | _ => 0%nat
  end.

Definition owed (s : Sys) : nat :=
  (total (tally n) (items (wq s)) + total worker_owes (pool s))%nat.

(** The two scan counters hold the numbers [md] and [mf], and together with
    what the queued and held directories still owe they make up the count
    over the whole tree. *)
Definition counted (root : wstring) (s : Sys) : Prop :=
  exists md mf : nat,
    dirs_scanned s = wrap_long64 (Z.of_nat md) /\
    files_scanned s = wrap_long64 (Z.of_nat mf) /\
    (wd * md + wf * mf + owed s = tally n root)%nat.

Lemma worker_owes_wake_up w : worker_owes (wake_up w) = worker_owes w.
Proof. destruct w; reflexivity. Qed.

Lemma incr64_of_nat m :
  InterlockedIncrement64 (wrap_long64 (Z.of_nat m)) = wrap_long64 (Z.of_nat (S m)).
Proof.
  unfold InterlockedIncrement64. rewrite wrap_long64_add. f_equal. lia.
Qed.

Lemma entry_weight_of dir fd a :
  classify qy dir fd = a ->
  entry_weight (tally n) dir fd =
  match a with Push full => tally n full | File _ _ => wf | Skip => 0%nat end.
Proof. intros <-. reflexivity. Qed.

Ltac owe_norm :=
  repeat first
    [ rewrite total_app | rewrite total_cons | rewrite total_nil
    | rewrite (total_wake_all worker_owes) by apply worker_owes_wake_up
    | progress cbn [worker_owes after_pop] ].

Lemma step_counted root s ev s' :
  tinv fs qy n s -> step fs qy s ev s' -> ev_kind ev <> AllocFail ->
  counted root s -> counted root s'.
Proof.
  intros [Hit Hpl] Hstep Hk (md & mf & Hd & Hf & Hsum).
  destruct s as [q pl o f ds fsc]. unfold counted, owed in *.
  cbn [wq pool dirs_scanned files_scanned] in *.
  inversion Hstep; subst; cbn [wq pool dirs_scanned files_scanned ev_kind] in *;
    try congruence;
    match goal with Hp : pl = _ |- _ => rewrite Hp in * end; clear Hstep;
    apply Forall_mid in Hpl; destruct Hpl as (Hl1 & Hw & Hl2); cbn [worker_ok] in Hw;
    revert Hsum; owe_norm; intros Hsum.
  - exists md, mf. split; [reflexivity|]. split; [reflexivity|].
    match goal with Hq : wq_pop_pass _ = _ |- _ =>
      destruct (wq_pop_pass_cases _ _ _ Hq)
        as [(_ & -> & ->)|[(_ & d & rest & Hi & -> & ->)|
            [(_ & Hi & Ha & -> & ->)|(_ & Hi & _ & -> & ->)]]] end;
      cbn [wq pool items pop_wakes after_pop]; revert Hsum; rewrite ?Hi;
      owe_norm; intros Hsum; lia.
  - exists (S md), mf. split; [apply incr64_of_nat|]. split; [reflexivity|].
    rewrite (tally_unfold n dir Hw) in Hsum. lia.
  - exists md, mf. split; [reflexivity|]. split; [reflexivity|].
    revert Hsum.
    match goal with Hc : classify _ _ _ = _ |- _ => rewrite (entry_weight_of _ _ _ Hc) end.
    intros Hsum. lia.
  - exists md, mf. split; [reflexivity|]. split; [reflexivity|].
    match goal with Hw1 : wake_one _ _ |- _ =>
      pose proof (total_wake_one worker_owes _ _ eq_refl Hw1) as Hco end.
    cbn [wq_push_owned items]. rewrite Hco. revert Hsum. owe_norm.
    match goal with Hc : classify _ _ _ = _ |- _ => rewrite (entry_weight_of _ _ _ Hc) end.
    intros Hsum. lia.
  - exists md, (S mf). split; [reflexivity|]. split; [apply incr64_of_nat|].
    revert Hsum.
    match goal with Hc : classify _ _ _ = _ |- _ => rewrite (entry_weight_of _ _ _ Hc) end.
    intros Hsum. lia.
  - exists md, mf. split; [reflexivity|]. split; [reflexivity|].
    cbn [wq_done_one items]. owe_norm. lia.
  - exists md, mf. split; [reflexivity|]. split; [reflexivity|]. owe_norm. lia.
Qed.

Lemma run_counted root s tr s' :
  tinv fs qy n s -> run fs qy s tr s' -> no_alloc_failure tr ->
  counted root s -> counted root s'.
Proof.
  intros Ht Hr. revert Ht.
  induction Hr as [|s ev s1 tr s2 Hstep _ IH]; intros Ht Hna Hc; [exact Hc|].
  inversion Hna as [|? ? Hev Hna']; subst.
  apply IH; [eapply step_tinv; eassumption | exact Hna' |].
  eapply step_counted; eassumption.
Qed.

Lemma counted_init root k : counted root (init root k).
Proof.
  exists 0%nat, 0%nat. split; [reflexivity|]. split; [reflexivity|].
  unfold owed. cbn [init wq pool wq_push_owned wq_init items app].
  rewrite (total_repeat_AtPop worker_owes k eq_refl).
  rewrite total_cons, total_nil. lia.
Qed.

Lemma final_owes l : Forall (fun w => w = Returned) l -> total worker_owes l = 0%nat.
Proof.
  induction 1 as [|w l Hw _ IH]; [reflexivity|].
  subst w. rewrite total_cons, IH. reflexivity.
Qed.

End Tally.

Lemma complete_counters fs qy wd wf root n k tr s :
  (1 <= k)%nat -> Z.of_nat k <= INT_MAX ->
  within fs qy n root = true ->
  run fs qy (init root k) tr s -> no_alloc_failure tr -> final s ->
  exists md mf : nat,
    dirs_scanned s = wrap_long64 (Z.of_nat md) /\
    files_scanned s = wrap_long64 (Z.of_nat mf) /\
    (wd * md + wf * mf = tally fs qy wd wf n root)%nat.
Proof.
  intros H1 Hk Hw Hr Hna Hf.
  pose proof (run_inv fs qy k Hk _ _ _ (inv_init k root) Hr) as Hi.
  destruct (run_counted fs qy wd wf n root _ _ _ (tinv_init fs qy k n root Hw) Hr Hna
              (counted_init fs qy wd wf n root k)) as (md & mf & Hd & Hfs & Hsum).
  exists md, mf. split; [exact Hd|]. split; [exact Hfs|].
  assert (Hstop : stop (wq s) <> 0).
  { apply (inv_gone k s Hi). rewrite (final_gone _ Hf), (inv_len k s Hi). lia. }
  destruct (inv_stopped k s Hi Hstop) as (Hit & _ & _).
  unfold owed in Hsum. rewrite Hit, (final_owes fs qy wd wf n _ Hf) in Hsum.
  rewrite total_nil in Hsum. lia.
Qed.

(** The directories a descent opens, and the entries it scans as files
    (non-directories whose joined path fits the buffer). *)
Definition dirs_below fs qy n root : nat := tally fs qy 1 0 n root.
Definition files_below fs qy n root : nat := tally fs qy 0 1 n root.

(** X19. After a complete run without allocation failure over a tree of
    finite depth, the summary counters are the numbers of the tree, whatever
    the worker count and the schedule: [dirs_scanned] is the number of
    directories reached (the root included), [files_scanned] the number of
    file entries seen in them. *)
Theorem scan_counters
    (fs : wstring -> list WIN32_FIND_DATAW) (qy : Query) (root : wstring)
    (n k : nat) (tr : list event) (s : Sys) :
  (1 <= k)%nat -> Z.of_nat k <= INT_MAX ->
  within fs qy n root = true ->
  run fs qy (init root k) tr s -> no_alloc_failure tr -> final s ->
  dirs_scanned s = wrap_long64 (Z.of_nat (dirs_below fs qy n root)) /\
  files_scanned s = wrap_long64 (Z.of_nat (files_below fs qy n root)).
Proof.
  intros H1 Hk Hw Hr Hna Hf. split.
  - destruct (complete_counters fs qy 1 0 root n k tr s H1 Hk Hw Hr Hna Hf)
      as (md & mf & Hd & _ & Hsum).
    rewrite Hd. unfold dirs_below. do 2 f_equal. lia.
  - destruct (complete_counters fs qy 0 1 root n k tr s H1 Hk Hw Hr Hna Hf)
      as (md & mf & _ & Hfs & Hsum).
    rewrite Hfs. unfold files_below. do 2 f_equal. lia.
Qed.

Lemma scan_counters_witness :
  exists tr s,
    run sample_fs sample_query (init (W "root") 2) tr s /\ final s /\
    dirs_scanned s = 2 /\ files_scanned s = 3.
Proof.
  assert (Hk : Z.of_nat 2 <= INT_MAX) by (unfold INT_MAX; lia).
  destruct (exists_complete_run sample_fs sample_query 2 Hk 2 (init (W "root") 2)
              (inv_init 2 (W "root"))
              (tinv_init sample_fs sample_query 2 2 (W "root") sample_within))
    as (tr & s & Hr & Hf & Hna & _).
  exists tr, s. split; [exact Hr|]. split; [exact Hf|].
  exact (scan_counters sample_fs sample_query (W "root") 2 2 tr s
           (le_n_S _ _ (Nat.le_0_l 1)) Hk sample_within Hr Hna Hf).
Defined.











(** * Further properties of the driver *)

(** X21. Options are read from left to right and compose: once a prefix of
    the options is accepted, the rest is read as if it stood alone, starting
    from the settings of the prefix.  So a later [-t] or [-e] replaces an
    earlier one, and [-f] may be repeated. *)
Theorem options_compose (pre suf : list wstring) (o o' : Options) (v : wstring) :
  parse_options pre o = inl o' ->
  parse_options (pre ++ suf) o = parse_options suf o' /\
  parse_options (pre ++ [W "-t"; v]) o =
    inl (mkOptions (opt_extcsv o') (opt_full o') (wtoi v)) /\
  parse_options (pre ++ [W "-e"; v]) o =
    inl (mkOptions v (opt_full o') (opt_threads o')) /\
  parse_options (pre ++ [W "-f"]) o =
    inl (mkOptions (opt_extcsv o') 1 (opt_threads o')).
Proof.
  intros Hp. split; [apply parse_options_app; exact Hp|].
  rewrite !(parse_options_app pre _ o o' Hp). auto.
Qed.

Lemma options_compose_witness :
  parse_options [W "-t"; W "2"; W "-f"; W "-t"; W "8"] no_options =
  inl (mkOptions [] 1 8).
Proof.
  destruct (options_compose [W "-t"; W "2"; W "-f"] [] no_options
              (mkOptions [] 1 2) (W "8") eq_refl) as (_ & H & _).
  exact H.
Defined.

(** X22. [-e] or [-t] as the last argument, with no value behind it, is
    reported as an unknown option: the exit code is 2, whatever options came
    before. *)
Theorem option_without_value
    (prog root ndl : wstring) (pre : list wstring) (o' : Options) (h : Host) :
  parse_options pre no_options = inl o' ->
  wmain_startup (prog :: root :: ndl :: pre ++ [W "-e"]) h =
    Exit 2 [UnknownOption (W "-e"); UsageText] /\
  wmain_startup (prog :: root :: ndl :: pre ++ [W "-t"]) h =
    Exit 2 [UnknownOption (W "-t"); UsageText].
Proof.
  intros Hp. rewrite !wmain_startup_args.
  rewrite !(parse_options_app pre _ no_options o' Hp). auto.
Qed.

Lemma option_without_value_witness :
  wmain_startup [W "ffind"; W "root"; W "a"; W "-f"; W "-t"] sample_host =
  Exit 2 [UnknownOption (W "-t"); UsageText].
Proof.
  destruct (option_without_value (W "ffind") (W "root") (W "a") [W "-f"]
              (mkOptions [] 1 0) sample_host eq_refl) as [_ H].
  exact H.
Defined.

(** X23. Whenever the workers are launched, the worker count asked for lies
    between 1 and [INT_MAX], the number of threads created is never above it
    and equals it when every [CreateThread] succeeds, and the root and the
    needle are the first two arguments as given. *)
Theorem launch_bounds
    (argv : list wstring) (h : Host) (qy : Query) (root : wstring)
    (threads : Z) (created : nat) :
  wmain_startup argv h = Launch qy root threads created ->
  1 <= threads <= INT_MAX /\
  (created <= Z.to_nat threads)%nat /\
  (created <= spawn_limit h)%nat /\
  ((Z.to_nat threads <= spawn_limit h)%nat -> Z.of_nat created = threads) /\
  nth_error argv 1 = Some root /\
  nth_error argv 2 = Some (needle qy).
Proof.
  destruct argv as [|prog [|root' [|ndl opts]]]; try discriminate.
  rewrite wmain_startup_args.
  destruct (parse_options opts no_options) as [o|a] eqn:Hp; [|discriminate].
  destruct (negb (root_copy_ok h)); [discriminate|].
  destruct (negb (handles_ok h)); [discriminate|].
  intros H; injection H as <- <- <- <-.
  assert (Ho : opt_threads o <= INT_MAX).
  { eapply parse_options_threads; [|exact Hp]. simpl. unfold INT_MAX. lia. }
  pose proof (pick_threads_range (opt_threads o) h Ho) as Hr.
  split; [exact Hr|]. split; [lia|]. split; [lia|]. split; [|split; reflexivity].
  intros Hl. rewrite Nat.min_l by exact Hl. lia.
Qed.

Lemma launch_bounds_witness :
  1 <= 4 <= INT_MAX /\ (3 <= 4)%nat.
Proof.
  destruct (launch_bounds [W "ffind"; W "root"; W "a"; W "-t"; W "4"]
              (mkHost 8 true true true 3) (mkQuery (W "a") [] 0) (W "root") 4 3 eq_refl)
    as (H1 & H2 & _).
  split; [exact H1 | exact H2].
Defined.

Lemma launch_created argv h qy root threads created :
  wmain_startup argv h = Launch qy root threads created ->
  (created <= spawn_limit h)%nat.
Proof.
  destruct argv as [|prog [|root' [|ndl opts]]]; try discriminate.
  rewrite wmain_startup_args.
  destruct (parse_options opts no_options); [|discriminate].
  destruct (negb (root_copy_ok h)); [discriminate|].
  destruct (negb (handles_ok h)); [discriminate|].
  intros H; injection H as <- <- <- <-. lia.
Qed.

Lemma no_thread_no_step fs qy s ev s' : pool s = [] -> step fs qy s ev s' -> False.
Proof.
  intros Hp Hstep. inversion Hstep; subst;
    match goal with H : pool _ = _ ++ _ :: _ |- _ =>
      rewrite Hp in H; destruct (app_cons_not_nil _ _ _ H) end.
Qed.

Lemma no_thread_no_run fs qy s tr s' : pool s = [] -> run fs qy s tr s' -> s' = s.
Proof.
  intros Hp Hr. destruct Hr as [|s ev s1 tr s2 Hstep _]; [reflexivity|].
  destruct (no_thread_no_step fs qy _ _ _ Hp Hstep).
Qed.

(** X24. If no worker thread can be created, [wmain] still returns: for
    every command line and whatever the allocations do there is a return,
    every return prints no line, and when the start-up got as far as the
    launch the exit code is 0. *)
Theorem no_thread_created
    (fs : wstring -> list WIN32_FIND_DATAW) (argv : list wstring) (h : Host) :
  spawn_limit h = 0%nat ->
  (exists code, wmain_returns fs argv h code []) /\
  (forall code lines,
     wmain_returns fs argv h code lines ->
     lines = [] /\
     (forall qy root threads created,
        wmain_startup argv h = Launch qy root threads created ->
        created = 0%nat /\ code = 0)).
Proof.
  intros Hs.
  assert (Hc : forall qy root threads created,
             wmain_startup argv h = Launch qy root threads created ->
             created = 0%nat).
  { intros qy root threads created Hl.
    pose proof (launch_created argv h qy root threads created Hl). lia. }
  split.
  - destruct (wmain_startup argv h) as [code err|qy root t c] eqn:E.
    + exists code. eapply returns_early. exact E.
    + exists 0. pose proof (Hc _ _ _ _ eq_refl) as ->.
      apply (returns_joined fs argv h qy root t 0%nat [] (launch_state h root 0) E).
      * apply run_nil.
      * constructor.
  - intros code lines Hret.
    inversion Hret as [c err Hst|qy root t c tr s Hst Hrun Hf]; subst.
    + split; [reflexivity|]. intros qy root t c Hl. congruence.
    + pose proof (Hc _ _ _ _ Hst) as ->.
      apply no_thread_no_run in Hrun; [|reflexivity]. subst s.
      split; [reflexivity|]. intros qy' root' t' c' Hl.
      split; [exact (Hc _ _ _ _ Hl) | reflexivity].
Qed.

Lemma no_thread_created_witness :
  exists code,
    wmain_returns sample_fs [W "ffind"; W "root"; W "a"]
      (mkHost 8 true true true 0) code [] /\ code = 0.
Proof.
  destruct (no_thread_created sample_fs [W "ffind"; W "root"; W "a"]
              (mkHost 8 true true true 0) eq_refl) as [[code Hret] Hall].
  exists code. split; [exact Hret|].
  destruct (Hall code [] Hret) as [_ H].
  destruct (H (mkQuery (W "a") [] 0) (W "root") 8 0%nat eq_refl) as [_ H0].
  exact H0.
Defined.
